(** * N-back task: sequence generator and go/no-go scoring

    A shallow embedding of [nback/sequences.py] (letter chooser, run-limit
    check, validator, target-index sampler, [generate_sequence] with its
    emergency fallback) and of the response-latching and scoring part of
    [run_block] in [nback_task.py]; further of the marker table and senders
    of [nback/markers.py], of a whole block of [run_block] with its rows,
    counters and marker names, of the set-up and block schedule of [main],
    and of [safe_filename] in [nback/utilities.py].

    Conventions of the embedding:
    - Python [int]s that can be negative stay in [Z]; list positions and the
      two sizes [n_back] and [n_trials] are [nat] (the configuration has
      n_back >= 1 and n_trials >= 0).
    - Python [float]s (rates, [random.random()] draws, clock readings) are
      rationals [Q]; comparisons are exact as in binary64, and the two
      products [target_rate * n_trials] and [random() * total] are taken
      exactly (binary64 rounding of a product is not modelled).
    - The module-level generator of Python's [random] is an explicit state
      threaded through the code; [IndexError] is an explicit result.
    - The module globals of [markers.py] and [nback_task.py] are records
      passed to the functions that read them; what the keyboard and the
      display report during a trial is an input list; the names passed to
      [send_named] are collected in order. *)

From Stdlib Require Import QArith Qround Ascii.
From stdpp Require Import gmap strings list sorting pretty.

(** ** Results and the random-state monad *)

Inductive exn := IndexError | UnboundLocalError.

Inductive result (A : Type) :=
| Ok (a : A)
| Raise (e : exn).
Arguments Ok {A} a.
Arguments Raise {A} e.

Definition bindE {A B} (r : result A) (k : A → result B) : result B :=
  match r with
  | Ok a => k a
  | Raise e => Raise e
  end.

Notation "'let?' x := e 'in' k" := (bindE e (λ x, k))
  (at level 10, x name, e at level 100, k at level 200, only parsing).

(** [l[i]] for a non-negative index. *)
Definition getitem {A} (l : list A) (i : nat) : result A :=
  match l !! i with
  | Some a => Ok a
  | None => Raise IndexError
  end.

(** [l[i] = v] *)
Definition setitem {A} (l : list A) (i : nat) (v : A) : result (list A) :=
  if decide (i < length l) then Ok (<[i:=v]> l) else Raise IndexError.

(** The interface of Python's [random] module that the program uses:
    [random.random()] and the internal [_randbelow(n)] on which
    [random.shuffle] and [random.choice] are built. *)
Class RandomSource (R : Type) := {
  random : R → Q * R;
  randbelow : nat → R → nat * R
}.

(** What Python documents of the two: [random()] lies in [0.0, 1.0) and
    [_randbelow(n)] in [range(n)]. *)
Class RandomLaws (R : Type) `{RandomSource R} : Prop := {
  random_unit : ∀ g, (0 <= fst (random g))%Q ∧ (fst (random g) < 1)%Q;
  randbelow_lt : ∀ n g, 0 < n → fst (randbelow n g) < n
}.

Definition M (R A : Type) : Type := R → result (A * R).

Definition ret {R A} (a : A) : M R A := λ g, Ok (a, g).

Definition bind {R A B} (m : M R A) (k : A → M R B) : M R B :=
  λ g, match m g with
       | Ok (a, g') => k a g'
       | Raise e => Raise e
       end.

Definition lift {R A} (r : result A) : M R A :=
  λ g, match r with
       | Ok a => Ok (a, g)
       | Raise e => Raise e
       end.

Notation "'let*' x := m 'in' k" := (bind m (λ x, k))
  (at level 10, x name, m at level 100, k at level 200, only parsing).
Notation "'let*' ' pat := m 'in' k" := (bind m (λ x, match x with pat => k end))
  (at level 10, pat pattern, m at level 100, k at level 200, only parsing).

Section Random.
Context {R : Type} `{RandomSource R}.

Definition random_random : M R Q := λ g, Ok (random g).

Definition rand_below (n : nat) : M R nat := λ g, Ok (randbelow n g).

(** [x[i], x[j] = x[j], x[i]] *)
Definition swap {A} (x : list A) (i j : nat) : result (list A) :=
  let? xj := getitem x j in
  let? xi := getitem x i in
  let? x1 := setitem x i xj in
  setitem x1 j xi.

(** [random.shuffle]: for i in reversed(range(1, len(x))):
      j = randbelow(i + 1); x[i], x[j] = x[j], x[i] *)
Fixpoint shuffle_from {A} (i : nat) (x : list A) : M R (list A) :=
  match i with
  | O => ret x
  | S i' =>
      let* j := rand_below (S i) in
      let* x' := lift (swap x i j) in
      shuffle_from i' x'
  end.

Definition shuffle {A} (x : list A) : M R (list A) :=
  shuffle_from (length x - 1) x.

(** [random.choice]: seq[randbelow(len(seq))], IndexError when empty. *)
Definition choice {A} (xs : list A) : M R A :=
  match xs with
  | [] => lift (Raise IndexError)
  | _ =>
      let* j := rand_below (length xs) in
      lift (getitem xs j)
  end.
End Random.

(** ** Letters, trial plans, configuration *)

Definition ascii_uppercase : list string :=
  ["A"; "B"; "C"; "D"; "E"; "F"; "G"; "H"; "I"; "J"; "K"; "L"; "M";
   "N"; "O"; "P"; "Q"; "R"; "S"; "T"; "U"; "V"; "W"; "X"; "Y"; "Z"]%string.

Definition LETTERS : list string :=
  filter (λ c, c ∉ ["I"; "O"; "Q"]%string) ascii_uppercase.

Definition TARGET_RATE : Q := 3 # 10.
Definition LURE_N_MINUS_1_RATE : Q := 5 # 100.
Definition LURE_N_PLUS_1_RATE : Q := 5 # 100.
Definition MAX_IDENTICAL_RUN : Z := 2.
Definition MAX_ATTEMPTS : Z := 300.
Definition MAX_CONSEC_TARGETS_DEFAULT : Z := 1.

Record TrialPlan := {
  stimulus : string;
  is_target : Z;
  lure_type : string;
  iti_ms : Z
}.

(** The arguments of [generate_sequence]. *)
Record Config := {
  n_back : nat;
  n_trials : nat;
  target_rate : Q;
  lure_n_minus_1_rate : Q;
  lure_n_plus_1_rate : Q;
  max_consec_targets : Z;
  max_identical_run : Z;
  fixed_iti_ms : Z;
  max_attempts : Z;
  soft_balance_initial : bool;
  include_lures : bool
}.

(** [generate_sequence(n_back, n_trials)] with every keyword at its default. *)
Definition default_config (nb nt : nat) : Config :=
  {| n_back := nb; n_trials := nt;
     target_rate := TARGET_RATE;
     lure_n_minus_1_rate := LURE_N_MINUS_1_RATE;
     lure_n_plus_1_rate := LURE_N_PLUS_1_RATE;
     max_consec_targets := MAX_CONSEC_TARGETS_DEFAULT;
     max_identical_run := MAX_IDENTICAL_RUN;
     fixed_iti_ms := 500;
     max_attempts := MAX_ATTEMPTS;
     soft_balance_initial := true;
     include_lures := true |}.

(** Python's [round] on a float: to nearest, ties to even. *)
Definition py_round (q : Q) : Z :=
  let f := Qfloor q in
  match ((q - inject_Z f) ?= 1 # 2)%Q with
  | Lt => f
  | Gt => (f + 1)%Z
  | Eq => if Z.even f then f else (f + 1)%Z
  end.

Definition Qltb (x y : Q) : bool := negb (Qle_bool y x).

Definition sumZ (l : list Z) : Z := foldr Z.add 0%Z l.

(** ** The letter chooser *)

(** [max(freq.values()) if freq else 1] *)
Definition max_count (freq : gmap string Z) : Z :=
  match (map_to_list freq).*2 with
  | [] => 1%Z
  | v :: vs => foldl Z.max v vs
  end.

(** [freq.get(c, 0)] *)
Definition freq_get (freq : gmap string Z) (c : string) : Z :=
  default 0%Z (freq !! c).

Definition weight_of (freq : gmap string Z) (c : string) : Z :=
  Z.max (max_count freq - freq_get freq c + 1) 1.

(** The scan [for c, w in zip(candidates, weights): acc += w; if r <= acc:
    return c], [None] when the scan ends without returning. *)
Fixpoint pick_weighted (cws : list (string * Z)) (r : Q) (acc : Z) : option string :=
  match cws with
  | [] => None
  | (c, w) :: rest =>
      let acc' := (acc + w)%Z in
      if Qle_bool r (inject_Z acc') then Some c else pick_weighted rest r acc'
  end.

Section Chooser.
Context {R : Type} `{RandomSource R}.

Definition _choose_letter (candidates : list string) (freq : gmap string Z)
    (soft_balance : bool) : M R string :=
  let candidates := match candidates with [] => LETTERS | _ => candidates end in
  if soft_balance then
    let weights := map (weight_of freq) candidates in
    let total := sumZ weights in
    let* u := random_random in
    let r := (u * inject_Z total)%Q in
    match pick_weighted (zip candidates weights) r 0 with
    | Some c => ret c
    | None => lift (getitem candidates (length candidates - 1))
    end
  else choice candidates.
End Chooser.

(** ** Identical-letter run limit *)

(** The loop [while i >= 0 and seq[i] == candidate], walking the sequence
    from its end. *)
Fixpoint count_run (rev_seq : list string) (candidate : string) (run_len : Z) : Z :=
  match rev_seq with
  | [] => run_len
  | x :: rest =>
      if decide (x = candidate) then count_run rest candidate (run_len + 1)
      else run_len
  end.

Definition _valid_run_limit (sq : list string) (candidate : string) (max_run : Z) : bool :=
  if decide (max_run ≤ 0)%Z then true
  else bool_decide (count_run (reverse sq) candidate 1 ≤ max_run)%Z.

(** ** The validator *)

(** The reason strings of [validate_sequence]; the two formatted ones carry
    the numbers they print. *)
Inductive reason :=
| R_ok
| R_target_in_first_n
| R_target_count (total desired : Z)
| R_immediate_repeat
| R_nm1_too_early
| R_lure_double_counted
| R_nm1_mismatch
| R_nm1_equals_target
| R_np1_too_early
| R_np1_mismatch
| R_np1_equals_target
| R_consecutive (limit : Z).

(** [any(is_target_flags[i] == 1 for i in idxs)] *)
Fixpoint any_target (flags : list Z) (idxs : list nat) : result bool :=
  match idxs with
  | [] => Ok false
  | i :: rest =>
      let? f := getitem flags i in
      if decide (f = 1%Z) then Ok true else any_target flags rest
  end.

(** [seq[i] == seq[i - 1] and is_target_flags[i] == 0 and lure_types[i] == "none"] *)
Definition plain_repeat (sq : list string) (flags : list Z) (lures : list string)
    (i : nat) : result bool :=
  let? a := getitem sq i in
  let? b := getitem sq (i - 1) in
  if decide (a = b) then
    let? f := getitem flags i in
    if decide (f = 0%Z) then
      let? lt := getitem lures i in
      Ok (bool_decide (lt = "none"%string))
    else Ok false
  else Ok false.

Fixpoint any_plain_repeat (sq : list string) (flags : list Z) (lures : list string)
    (idxs : list nat) : result bool :=
  match idxs with
  | [] => Ok false
  | i :: rest =>
      let? b := plain_repeat sq flags lures i in
      if b then Ok true else any_plain_repeat sq flags lures rest
  end.

(** [i >= n_back and seq[i] == seq[i - n_back]] *)
Definition equals_n_back (nb : nat) (sq : list string) (i : nat) : result bool :=
  if decide (nb ≤ i) then
    let? a := getitem sq i in
    let? c := getitem sq (i - nb) in
    Ok (bool_decide (a = c))
  else Ok false.

(** The body of the lure loop at position [i]: the reason of the first
    failed check, [None] when the position passes. *)
Definition check_lure (nb : nat) (sq : list string) (flags : list Z)
    (lures : list string) (i : nat) : result (option reason) :=
  let? lt := getitem lures i in
  if decide (lt = "n-1"%string) then
    if negb (bool_decide (nb - 1 ≤ i ∧ 0 < nb - 1)) then Ok (Some R_nm1_too_early)
    else
      let? f := getitem flags i in
      if decide (f = 1%Z) then Ok (Some R_lure_double_counted)
      else
        let? a := getitem sq i in
        let? b := getitem sq (i - (nb - 1)) in
        if decide (a ≠ b) then Ok (Some R_nm1_mismatch)
        else
          let? e := equals_n_back nb sq i in
          if e then Ok (Some R_nm1_equals_target) else Ok None
  else if decide (lt = "n+1"%string) then
    if negb (bool_decide (nb + 1 ≤ i)) then Ok (Some R_np1_too_early)
    else
      let? f := getitem flags i in
      if decide (f = 1%Z) then Ok (Some R_lure_double_counted)
      else
        let? a := getitem sq i in
        let? b := getitem sq (i - (nb + 1)) in
        if decide (a ≠ b) then Ok (Some R_np1_mismatch)
        else
          let? e := equals_n_back nb sq i in
          if e then Ok (Some R_np1_equals_target) else Ok None
  else Ok None.

Fixpoint check_lures (nb : nat) (sq : list string) (flags : list Z)
    (lures : list string) (idxs : list nat) : result (option reason) :=
  match idxs with
  | [] => Ok None
  | i :: rest =>
      let? r := check_lure nb sq flags lures i in
      match r with
      | Some why => Ok (Some why)
      | None => check_lures nb sq flags lures rest
      end
  end.

(** The last loop: [false] as soon as [consec] exceeds the limit. *)
Fixpoint check_consec (flags : list Z) (consec limit : Z) : bool :=
  match flags with
  | [] => true
  | f :: rest =>
      if decide (f = 1%Z) then
        if decide (limit < consec + 1)%Z then false
        else check_consec rest (consec + 1) limit
      else check_consec rest 0 limit
  end.

Definition validate_sequence (sq : list string) (is_target_flags : list Z)
    (lure_types : list string) (nb : nat) (rate : Q) (max_consec : Z)
    : result (bool * reason) :=
  let nt := length sq in
  let? early := any_target is_target_flags (seq 0 (nt `min` nb)) in
  if early then Ok (false, R_target_in_first_n) else
  let desired_targets := py_round (rate * inject_Z (Z.of_nat nt)) in
  let total_targets := sumZ is_target_flags in
  if negb (bool_decide (desired_targets - 1 ≤ total_targets ∧
                        total_targets ≤ desired_targets + 1)%Z)
  then Ok (false, R_target_count total_targets desired_targets) else
  let? rep := (if decide (1 < nb)
               then any_plain_repeat sq is_target_flags lure_types (seq 1 (nt - 1))
               else Ok false) in
  if rep then Ok (false, R_immediate_repeat) else
  let? lr := check_lures nb sq is_target_flags lure_types (seq 0 nt) in
  match lr with
  | Some why => Ok (false, why)
  | None =>
      if check_consec is_target_flags 0 max_consec then Ok (true, R_ok)
      else Ok (false, R_consecutive max_consec)
  end.

(** ** Sampling the target positions *)

(** The inner [while j >= 0 and chosen[j] == i - (len(chosen) - j)], walking
    [chosen] from its end; [k] is [len(chosen) - j]. *)
Fixpoint back_run (rev_chosen : list nat) (i k : nat) (run : Z) : Z :=
  match rev_chosen with
  | [] => run
  | c :: rest =>
      if decide (Z.of_nat c = Z.of_nat i - Z.of_nat k)%Z
      then back_run rest i (S k) (run + 1)
      else run
  end.

(** Whether the body of the position loop reaches a [continue] for [i]. *)
Definition skips_position (chosen : list nat) (i : nat) (max_consec : Z) : bool :=
  if decide (max_consec ≤ 0)%Z then false
  else
    match last chosen with
    | None => false
    | Some c =>
        if decide (max_consec = 1 ∧ Z.of_nat i - Z.of_nat c = 1)%Z then true
        else bool_decide (max_consec < back_run (reverse chosen) i 1 1)%Z
    end.

Fixpoint choose_positions (positions chosen : list nat) (desired max_consec : Z)
    : list nat :=
  match positions with
  | [] => chosen
  | i :: rest =>
      if decide (desired ≤ Z.of_nat (length chosen))%Z then chosen
      else if skips_position chosen i max_consec
           then choose_positions rest chosen desired max_consec
           else choose_positions rest (chosen ++ [i]) desired max_consec
  end.

Section Generator.
Context {R : Type} `{RandomSource R}.

Fixpoint sample_attempts (attempts : nat) (positions : list nat)
    (desired max_consec : Z) : M R (option (list nat)) :=
  match attempts with
  | O => ret None
  | S attempts' =>
      let* positions' := shuffle positions in
      let chosen := choose_positions positions' [] desired max_consec in
      if decide (Z.of_nat (length chosen) = desired)
      then ret (Some (merge_sort (≤) chosen))
      else sample_attempts attempts' positions' desired max_consec
  end.

Definition _sample_target_indices (nb nt : nat) (desired max_consec : Z)
    (attempts : nat) : M R (option (list nat)) :=
  if decide (desired ≤ 0)%Z then ret (Some [])
  else sample_attempts attempts (seq nb (nt - nb)) desired max_consec.

(** ** One primary attempt *)

(** The source letter of a lure [dist] positions back (lines 226-228 and
    235-237): [Some] when the letter is accepted as a lure. *)
Definition lure_source (cfg : Config) (sq : list string) (i dist : nat)
    : result (option string) :=
  let? l := getitem sq (i - dist) in
  let? letter_n := (if decide (n_back cfg ≤ i)
                    then let? x := getitem sq (i - n_back cfg) in Ok (Some x)
                    else Ok None) in
  if bool_decide (l ≠ ""%string) && bool_decide (letter_n ≠ Some l)
     && _valid_run_limit sq l (max_identical_run cfg)
  then Ok (Some l) else Ok None.

(** [if seq: last = seq[-1]; if last in cands and not
    _valid_run_limit(seq, last, max_identical_run - 1): drop last] *)
Definition drop_last_letter (cfg : Config) (sq cands : list string) : list string :=
  match last sq with
  | None => cands
  | Some l =>
      if bool_decide (l ∈ cands) && negb (_valid_run_limit sq l (max_identical_run cfg - 1))
      then filter (λ c, c ≠ l) cands
      else cands
  end.

(** [[c for c in cands if c != seq[k]]], the item read once per element. *)
Definition filter_ne_item (cands sq : list string) (k : nat) : result (list string) :=
  match cands with
  | [] => Ok []
  | _ => let? a := getitem sq k in Ok (filter (λ c, c ≠ a) cands)
  end.

Record attempt := {
  a_seq : list string;
  a_flags : list Z;
  a_lures : list string;
  a_freqs : gmap string Z
}.

(** The n-1 and n+1 lure blocks: the planned lure type and the letter, when
    one was bound. *)
Definition place_lure (cfg : Config) (sq : list string) (i : nat)
    : M R (string * option string) :=
  if include_lures cfg then
    let* nm1 :=
      (if decide (0 < n_back cfg - 1 ∧ n_back cfg - 1 ≤ i) then
         let* u := random_random in
         if Qltb u (lure_n_minus_1_rate cfg)
         then lift (lure_source cfg sq i (n_back cfg - 1))
         else ret None
       else ret None) in
    match nm1 with
    | Some l => ret ("n-1"%string, Some l)
    | None =>
        if decide (n_back cfg + 1 ≤ i) then
          let* u := random_random in
          if Qltb u (lure_n_plus_1_rate cfg) then
            let* np1 := lift (lure_source cfg sq i (n_back cfg + 1)) in
            match np1 with
            | Some l => ret ("n+1"%string, Some l)
            | None => ret ("none"%string, None)
            end
          else ret ("none"%string, None)
        else ret ("none"%string, None)
    end
  else ret ("none"%string, None).

(** A regular non-target letter (lines 244-252). *)
Definition filler_letter (cfg : Config) (sq : list string)
    (freqs : gmap string Z) (i : nat) : M R string :=
  let candidates := LETTERS in
  let* candidates :=
    lift (if decide (n_back cfg ≤ i)
          then let? avoid := getitem sq (i - n_back cfg) in
               Ok (filter (λ c, c ≠ avoid) candidates)
          else Ok candidates) in
  let candidates := drop_last_letter cfg sq candidates in
  _choose_letter candidates freqs (soft_balance_initial cfg).

(** The final run-limit adjustment (lines 257-266). *)
Definition adjust_letter (cfg : Config) (sq : list string)
    (freqs : gmap string Z) (i : nat) (letter : string) : M R string :=
  if negb (_valid_run_limit sq letter (max_identical_run cfg)) then
    let cands := filter (λ c, _valid_run_limit sq c (max_identical_run cfg) = true) LETTERS in
    let* cands :=
      lift (if decide (n_back cfg ≤ i)
            then filter_ne_item cands sq (i - n_back cfg)
            else Ok cands) in
    let cands := drop_last_letter cfg sq cands in
    _choose_letter cands freqs (soft_balance_initial cfg)
  else ret letter.

(** The body of [for i in range(n_trials)] of a primary attempt. *)
Definition fill_step (cfg : Config) (target_set : gset nat) (i : nat)
    (st : attempt) : M R attempt :=
  let sq := a_seq st in
  let* '(letter, flag, planned) :=
    (if decide (i ∈ target_set ∧ n_back cfg ≤ i) then
       let* letter :=
         (if decide (n_back cfg ≤ i) then lift (getitem sq (i - n_back cfg))
          else _choose_letter LETTERS (a_freqs st) (soft_balance_initial cfg)) in
       ret (letter, 1%Z, "none"%string)
     else
       let* '(planned, bound) := place_lure cfg sq i in
       let* letter :=
         (if decide (planned = "none"%string)
          then filler_letter cfg sq (a_freqs st) i
          else match bound with
               | Some l => ret l
               | None => lift (Raise UnboundLocalError)
               end) in
       ret (letter, 0%Z, planned)) in
  let* letter := adjust_letter cfg sq (a_freqs st) i letter in
  ret {| a_seq := sq ++ [letter];
         a_flags := a_flags st ++ [flag];
         a_lures := a_lures st ++ [planned];
         a_freqs := <[letter := (freq_get (a_freqs st) letter + 1)%Z]> (a_freqs st) |}.

Fixpoint fill_loop (cfg : Config) (target_set : gset nat) (idxs : list nat)
    (st : attempt) : M R attempt :=
  match idxs with
  | [] => ret st
  | i :: rest =>
      let* st' := fill_step cfg target_set i st in
      fill_loop cfg target_set rest st'
  end.

(** [{c: 0 for c in LETTERS}] *)
Definition initial_freqs : gmap string Z :=
  list_to_map (map (λ c, (c, 0%Z)) LETTERS).

Fixpoint mapE {A B} (f : A → result B) (l : list A) : result (list B) :=
  match l with
  | [] => Ok []
  | a :: rest =>
      let? b := f a in
      let? bs := mapE f rest in
      Ok (b :: bs)
  end.

(** The plans of a validated attempt (lines 281-290). *)
Definition build_plans (cfg : Config) (st : attempt) : result (list TrialPlan) :=
  mapE (λ i,
    let? s := getitem (a_seq st) i in
    let? f := getitem (a_flags st) i in
    let? l := getitem (a_lures st) i in
    Ok {| stimulus := s; is_target := f; lure_type := l;
          iti_ms := fixed_iti_ms cfg |}) (seq 0 (n_trials cfg)).

Definition desired_targets (cfg : Config) : Z :=
  py_round (target_rate cfg * inject_Z (Z.of_nat (n_trials cfg))).

(** One pass of [for _attempt in ...]: [Some plans] when the pass returns,
    [None] when it reaches a [continue]. *)
Definition primary_attempt (cfg : Config) : M R (option (list TrialPlan)) :=
  let* target_indices :=
    _sample_target_indices (n_back cfg) (n_trials cfg) (desired_targets cfg)
      (max_consec_targets cfg) 200 in
  match target_indices with
  | None => ret None
  | Some target_indices =>
      let target_set : gset nat := list_to_set target_indices in
      let* st := fill_loop cfg target_set (seq 0 (n_trials cfg))
                   {| a_seq := []; a_flags := []; a_lures := [];
                      a_freqs := initial_freqs |} in
      let* '(ok, _) := lift (validate_sequence (a_seq st) (a_flags st) (a_lures st)
                               (n_back cfg) (target_rate cfg) (max_consec_targets cfg)) in
      if ok : bool then
        let* plans := lift (build_plans cfg st) in
        ret (Some plans)
      else ret None
  end.

Fixpoint primary_loop (cfg : Config) (attempts : nat) : M R (option (list TrialPlan)) :=
  match attempts with
  | O => ret None
  | S attempts' =>
      let* r := primary_attempt cfg in
      match r with
      | Some plans => ret (Some plans)
      | None => primary_loop cfg attempts'
      end
  end.

(** ** The emergency fallback *)

(** [left_run + right_run] around position [i] (lines 309-310, 325-326). *)
Definition neighbour_runs (flags : list Z) (nt i : nat) : result Z :=
  let? left_run :=
    (if decide (1 ≤ i)
     then let? f := getitem flags (i - 1) in Ok (if decide (f = 1%Z) then 1%Z else 0%Z)
     else Ok 0%Z) in
  let? right_run :=
    (if decide (i + 1 < nt)
     then let? f := getitem flags (i + 1) in Ok (if decide (f = 1%Z) then 1%Z else 0%Z)
     else Ok 0%Z) in
  Ok (left_run + right_run)%Z.

(** [for i in candidates] inside the [while] (lines 303-313). *)
Fixpoint scatter_targets (cands : list nat) (flags : list Z) (nt : nat)
    (desired max_consec : Z) : result (list Z) :=
  match cands with
  | [] => Ok flags
  | i :: rest =>
      if decide (desired ≤ sumZ flags)%Z then Ok flags
      else if decide (max_consec ≤ 0)%Z
      then scatter_targets rest flags nt desired max_consec
      else
        let? runs := neighbour_runs flags nt i in
        if decide (max_consec ≤ runs)%Z
        then scatter_targets rest flags nt desired max_consec
        else
          let? flags' := setitem flags i 1%Z in
          scatter_targets rest flags' nt desired max_consec
  end.

(** [while sum(target_flags) < desired and attempts < 50]; [budget] is
    [50 - attempts]. *)
Fixpoint scatter_rounds (budget : nat) (cands : list nat) (flags : list Z)
    (nt : nat) (desired max_consec : Z) : M R (list Z) :=
  match budget with
  | O => ret flags
  | S budget' =>
      if decide (sumZ flags < desired)%Z then
        let* cands' := shuffle cands in
        let* flags' := lift (scatter_targets cands' flags nt desired max_consec) in
        scatter_rounds budget' cands' flags' nt desired max_consec
      else ret flags
  end.

(** [for i in pool] of the final pass (lines 322-329). *)
Fixpoint final_pass (pool : list nat) (flags : list Z) (nt : nat) (needed : Z)
    : result (list Z) :=
  match pool with
  | [] => Ok flags
  | i :: rest =>
      if decide (needed ≤ 0)%Z then Ok flags
      else
        let? runs := neighbour_runs flags nt i in
        if decide (runs = 0%Z) then
          let? flags' := setitem flags i 1%Z in
          final_pass rest flags' nt (needed - 1)
        else final_pass rest flags nt needed
  end.

Fixpoint filterE {A} (f : A → result bool) (l : list A) : result (list A) :=
  match l with
  | [] => Ok []
  | a :: rest =>
      let? b := f a in
      let? r := filterE f rest in
      Ok (if b then a :: r else r)
  end.

(** Lines 294-329: the target flags of the fallback. *)
Definition fallback_flags (cfg : Config) : M R (list Z) :=
  let desired := desired_targets cfg in
  let nt := n_trials cfg in
  let target_flags := replicate nt 0%Z in
  let candidates := seq (n_back cfg) (nt - n_back cfg) in
  let* target_flags :=
    scatter_rounds 50 candidates target_flags nt desired (max_consec_targets cfg) in
  if decide (sumZ target_flags < 0 `max` (desired - 1))%Z then
    let needed := (desired - sumZ target_flags)%Z in
    if decide (0 < needed)%Z then
      let* pool :=
        lift (filterE (λ i, let? f := getitem target_flags i in
                            Ok (bool_decide (f = 0%Z)))
                      (seq (n_back cfg) (nt - n_back cfg))) in
      let* pool := shuffle pool in
      lift (final_pass pool target_flags nt needed)
    else ret target_flags
  else ret target_flags.

(** The body of the letter loop of the fallback (lines 335-347). *)
Definition fallback_letter (cfg : Config) (target_flags : list Z) (i : nat)
    (sq : list string) : M R string :=
  let* f := lift (getitem target_flags i) in
  if decide (f = 1%Z ∧ n_back cfg ≤ i) then lift (getitem sq (i - n_back cfg))
  else
    let candidates := LETTERS in
    let* candidates :=
      lift (if decide (n_back cfg ≤ i)
            then let? avoid_n := getitem sq (i - n_back cfg) in
                 Ok (filter (λ c, c ≠ avoid_n) candidates)
            else Ok candidates) in
    let* candidates :=
      lift (if decide (1 ≤ i) then filter_ne_item candidates sq (i - 1)
            else Ok candidates) in
    match candidates with
    | [] => lift (getitem LETTERS 0)
    | _ => choice candidates
    end.

Fixpoint fallback_letters (cfg : Config) (target_flags : list Z) (idxs : list nat)
    (sq lure_types : list string) : M R (list string * list string) :=
  match idxs with
  | [] => ret (sq, lure_types)
  | i :: rest =>
      let* letter := fallback_letter cfg target_flags i sq in
      fallback_letters cfg target_flags rest (sq ++ [letter]) (lure_types ++ ["none"%string])
  end.

Definition fallback (cfg : Config) : M R (list TrialPlan) :=
  let* target_flags := fallback_flags cfg in
  let* '(sq, lure_types) :=
    fallback_letters cfg target_flags (seq 0 (n_trials cfg)) [] [] in
  lift (mapE (λ i,
    let? s := getitem sq i in
    let? f := getitem target_flags i in
    let? l := getitem lure_types i in
    Ok {| stimulus := s;
          is_target := if decide (f = 1%Z) then 1%Z else 0%Z;
          lure_type := l;
          iti_ms := fixed_iti_ms cfg |}) (seq 0 (n_trials cfg))).

Definition generate_sequence (cfg : Config) : M R (list TrialPlan) :=
  let* r := primary_loop cfg (Z.to_nat (max_attempts cfg)) in
  match r with
  | Some plans => ret plans
  | None => fallback cfg
  end.
End Generator.

(** ** A scripted random source

    The draws are read from two tapes, one for [random()] and one for
    [_randbelow]; an exhausted tape gives 0. *)
Record Tape := { floats : list Q; ints : list nat }.

Definition clamp_unit (q : Q) : Q :=
  if Qle_bool 0 q && Qltb q 1 then q else 0%Q.

Definition tape_random (t : Tape) : Q * Tape :=
  match floats t with
  | [] => (0%Q, t)
  | q :: rest => (clamp_unit q, {| floats := rest; ints := ints t |})
  end.

Definition tape_randbelow (n : nat) (t : Tape) : nat * Tape :=
  match ints t with
  | [] => (0, t)
  | k :: rest => (k `mod` n, {| floats := floats t; ints := rest |})
  end.

#[export] Instance tape_source : RandomSource Tape :=
  {| random := tape_random; randbelow := tape_randbelow |}.

Definition zero_tape : Tape := {| floats := []; ints := [] |}.

(** ** Properties of a list of trial plans *)

(** Number of plans flagged as targets. *)
Definition target_count (plans : list TrialPlan) : Z :=
  Z.of_nat (length (filter (λ p, is_target p = 1%Z) plans)).

(** Positions [i], [i+1], ..., [i+len-1] all exist and are targets. *)
Definition target_run (plans : list TrialPlan) (i len : nat) : Prop :=
  ∀ j, j < len → ∃ p, plans !! (i + j) = Some p ∧ is_target p = 1%Z.

(** No run of consecutive targets is longer than [k]. *)
Definition runs_within (plans : list TrialPlan) (k : nat) : Prop :=
  ∀ i, ¬ target_run plans i (S k).

Definition lure_names : list string := ["none"; "n-1"; "n+1"]%string.

(** The lure conditions of a plan at position [i] for level [nb]. *)
Definition lure_ok (nb : nat) (plans : list TrialPlan) (i : nat) (p : TrialPlan) : Prop :=
  (lure_type p = "n-1"%string →
     1 < nb ∧ nb - 1 ≤ i ∧
     (∃ q, plans !! (i - (nb - 1)) = Some q ∧ stimulus p = stimulus q) ∧
     (nb ≤ i → ∃ q, plans !! (i - nb) = Some q ∧ stimulus p ≠ stimulus q)) ∧
  (lure_type p = "n+1"%string →
     nb + 1 ≤ i ∧
     (∃ q, plans !! (i - (nb + 1)) = Some q ∧ stimulus p = stimulus q) ∧
     (nb ≤ i → ∃ q, plans !! (i - nb) = Some q ∧ stimulus p ≠ stimulus q)).

(** ** The chooser as the specification words it *)





(** ** Response latching and scoring in [run_block] *)

Definition KEY_RESPONSE : string := "space".
Definition KEY_QUIT : string := "escape".

(** One pass of the polling loop: the clock reading and the key presses the
    backend reports at that pass, each with its time stamp in seconds. *)
Record poll := { now_ms : Q; pressed : list (string * Q) }.

(** [getKeys(keyList=...)] reports only the keys of [keyList]. *)
Definition getKeys (keyList : list string) (presses : list (string * Q))
    : list (string * Q) :=
  filter (λ kt, kt.1 ∈ keyList) presses.

Inductive scan := NoKey | QuitKey | Latched (k : string) (rt_ms : Q).

(** [for k, t in keys] of the event backend: quit on the quit key, latch the
    first non-empty key and break. *)
Fixpoint scan_keys (keys : list (string * Q)) : scan :=
  match keys with
  | [] => NoKey
  | (k, t) :: rest =>
      if decide (k = KEY_QUIT) then QuitKey
      else if decide (k ≠ ""%string) then Latched k (t * 1000)
      else scan_keys rest
  end.

(** [k = keys[0]] of the hardware keyboard backend. *)
Definition first_key (keys : list (string * Q)) : scan :=
  match keys with
  | [] => NoKey
  | (name, rt) :: _ =>
      if decide (name = KEY_QUIT) then QuitKey else Latched name (rt * 1000)
  end.

Record latch := {
  got_response : bool;
  resp_key : option string;
  rt_ms : option Q
}.

Inductive trial_end := Aborted | Elapsed (l : latch).

(** The [while True] loop of one trial; [None] when the clock readings end
    before the SOA is reached. [hw] selects the hardware keyboard backend. *)
Fixpoint poll_loop (hw : bool) (soa_ms : Q) (polls : list poll) (l : latch)
    : option trial_end :=
  match polls with
  | [] => None
  | p :: rest =>
      if Qle_bool soa_ms (now_ms p) then Some (Elapsed l)
      else
        let keys := getKeys [KEY_RESPONSE; KEY_QUIT] (pressed p) in
        if bool_decide (keys ≠ []) && negb (got_response l) then
          match (if hw then first_key keys else scan_keys keys) with
          | QuitKey => Some Aborted
          | Latched k rt =>
              poll_loop hw soa_ms rest
                {| got_response := true; resp_key := Some k; rt_ms := Some rt |}
          | NoKey => poll_loop hw soa_ms rest l
          end
        else poll_loop hw soa_ms rest l
  end.

(** The score of a trial (lines 591-592). *)
Definition score (plan : TrialPlan) (l : latch) : Z :=
  let is_space := bool_decide (resp_key l = Some KEY_RESPONSE) in
  if (bool_decide (is_target plan = 1%Z) && is_space)
     || (bool_decide (is_target plan = 0%Z) && negb is_space)
  then 1%Z else 0%Z.




(** ** Predicates and concrete inputs used by the proofs *)

(** [r] does not raise and its value satisfies [Q]. *)
Definition okE {A} (r : result A) (Q : A → Prop) : Prop :=
  match r with
  | Ok a => Q a
  | Raise _ => False
  end.

(** [m] run from [g] does not raise and its value and final state satisfy [Q]. *)
Definition wp {R A} (m : M R A) (g : R) (Q : A → R → Prop) : Prop :=
  match m g with
  | Ok (a, g') => Q a g'
  | Raise _ => False
  end.

(** A target flag is 0 or 1. *)
Definition is_flag (f : Z) : Prop := f = 0%Z ∨ f = 1%Z.

(** The state of a primary attempt before position [i] is filled. *)
Definition attempt_inv (i : nat) (st : attempt) : Prop :=
  length (a_seq st) = i ∧ length (a_flags st) = i ∧ length (a_lures st) = i ∧
  Forall (λ c, c ∈ LETTERS) (a_seq st) ∧
  Forall is_flag (a_flags st) ∧
  Forall (λ l, l ∈ lure_names) (a_lures st).

(** What a passed lure check says about the three lists. *)
Definition lure_lists_ok (nb : nat) (sq : list string) (i dist : nat) : Prop :=
  (∃ a, sq !! i = Some a ∧ sq !! (i - dist) = Some a) ∧
  (nb ≤ i → ∃ a c, sq !! i = Some a ∧ sq !! (i - nb) = Some c ∧ a ≠ c).

(** Positions [i .. i+len-1] of a flag list all hold 1. *)
Definition flag_run (flags : list Z) (i len : nat) : Prop :=
  ∀ j, j < len → flags !! (i + j) = Some 1%Z.

(** Everything [validate_sequence] guarantees when it answers [True]. *)
Definition validated (nb : nat) (rate : Q) (limit : Z)
    (sq : list string) (flags : list Z) (lures : list string) : Prop :=
  (∀ i, i < length sq `min` nb → flags !! i ≠ Some 1%Z) ∧
  (let d := py_round (rate * inject_Z (Z.of_nat (length sq))) in
   d - 1 ≤ sumZ flags ∧ sumZ flags ≤ d + 1)%Z ∧
  (∀ i lt, i < length sq → lures !! i = Some lt →
     (lt = "n-1"%string → 1 < nb ∧ nb - 1 ≤ i ∧ lure_lists_ok nb sq i (nb - 1)) ∧
     (lt = "n+1"%string → nb + 1 ≤ i ∧ lure_lists_ok nb sq i (nb + 1))) ∧
  (∀ i, ¬ flag_run flags i (S (Z.to_nat limit))).

(** Every plan holds a letter of the pool, a flag 0 or 1 and a known lure
    type. *)
Definition well_formed (plans : list TrialPlan) : Prop :=
  Forall (λ p, stimulus p ∈ LETTERS ∧ is_flag (is_target p) ∧
               lure_type p ∈ lure_names) plans.

(** What holds of every list returned by the primary loop. *)
Definition primary_ok (cfg : Config) (plans : list TrialPlan) : Prop :=
  length plans = n_trials cfg ∧
  well_formed plans ∧
  (∀ i p, plans !! i = Some p → i < n_back cfg → is_target p ≠ 1%Z) ∧
  (desired_targets cfg - 1 ≤ target_count plans ∧
   target_count plans ≤ desired_targets cfg + 1)%Z ∧
  runs_within plans (Z.to_nat (max_consec_targets cfg)) ∧
  (∀ i p, plans !! i = Some p → lure_ok (n_back cfg) plans i p).

(** No two neighbouring positions are both flagged. *)
Definition no_adjacent (flags : list Z) : Prop :=
  ∀ i, flags !! i = Some 1%Z → flags !! (S i) = Some 1%Z → False.

(** The target flags of the fallback, at every point of their construction. *)
Definition flags_inv (cfg : Config) (flags : list Z) : Prop :=
  length flags = n_trials cfg ∧
  Forall is_flag flags ∧
  (∀ i, flags !! i = Some 1%Z → n_back cfg ≤ i) ∧
  (max_consec_targets cfg = 1%Z → no_adjacent flags).

(** The positions the fallback may flag: [range(n_back, n_trials)]. *)
Definition eligible (cfg : Config) (i : nat) : Prop :=
  n_back cfg ≤ i ∧ i < n_trials cfg.

(** What holds of every list returned by the fallback. *)
Definition fallback_ok (cfg : Config) (plans : list TrialPlan) : Prop :=
  length plans = n_trials cfg ∧
  well_formed plans ∧
  (∀ i p, plans !! i = Some p → i < n_back cfg → is_target p ≠ 1%Z) ∧
  (target_count plans ≤ 0 `max` desired_targets cfg)%Z ∧
  (max_consec_targets cfg = 1%Z → runs_within plans 1) ∧
  Forall (λ p, lure_type p = "none"%string) plans.

(** A plan with the default planned ITI of 500 ms. *)
Definition plan (s : string) (t : Z) (l : string) : TrialPlan :=
  {| stimulus := s; is_target := t; lure_type := l; iti_ms := 500 |}.

(** The configuration domain of the generator. *)
Definition config_in_domain (cfg : Config) : Prop :=
  1 ≤ n_back cfg ∧
  (0 <= target_rate cfg)%Q ∧ (target_rate cfg <= 1)%Q ∧
  (0 <= lure_n_minus_1_rate cfg)%Q ∧ (lure_n_minus_1_rate cfg <= 1)%Q ∧
  (0 <= lure_n_plus_1_rate cfg)%Q ∧ (lure_n_plus_1_rate cfg <= 1)%Q ∧
  (1 ≤ max_consec_targets cfg)%Z ∧ (1 ≤ max_identical_run cfg)%Z ∧
  (1 ≤ max_attempts cfg)%Z.

(** Draws 0.5, 0.02 and 0.7 of [random.random()]. *)
Definition demo_tape : Tape := {| floats := [1 # 2; 1 # 50; 7 # 10]; ints := [] |}.

(** What [generate_sequence(2, 3)] returns under those draws. *)
Definition demo_plans : list TrialPlan :=
  [plan "M" 0 "none"; plan "M" 0 "n-1"; plan "T" 1 "none"].

(** Level 1 with target rate 1.0: every one of the [nt] trials should be a
    target, one more than there are eligible positions. *)
Definition crowded_config (nt : nat) (limit : Z) : Config :=
  {| n_back := 1; n_trials := nt; target_rate := 1;
     lure_n_minus_1_rate := LURE_N_MINUS_1_RATE;
     lure_n_plus_1_rate := LURE_N_PLUS_1_RATE;
     max_consec_targets := limit;
     max_identical_run := MAX_IDENTICAL_RUN;
     fixed_iti_ms := 500;
     max_attempts := MAX_ATTEMPTS;
     soft_balance_initial := true;
     include_lures := true |}.

(** The frequencies and the draw at which the two weightings part. *)
Definition skewed_freq : gmap string Z :=
  <["A" := 0%Z]> (<["B" := 1%Z]> (<["C" := 5%Z]> ∅)).



(** A target trial: the response key is pressed at the second pass, the quit
    key later in the same trial, and the clock reaches the SOA at the fourth. *)
Definition demo_polls : list poll :=
  [ {| now_ms := 100; pressed := [] |};
    {| now_ms := 640; pressed := [("space"%string, 64 # 100)] |};
    {| now_ms := 1200; pressed := [("escape"%string, 12 # 10)] |};
    {| now_ms := 2500; pressed := [] |} ].


(** Run from states related by [same], the two computations raise the same
    exception or return the same value in related states. *)
Definition sim {R1 R2 A} (same : R1 → R2 → Prop) (m1 : M R1 A) (m2 : M R2 A) : Prop :=
  ∀ g1 g2, same g1 g2 →
    match m1 g1, m2 g2 with
    | Ok (a1, g1'), Ok (a2, g2') => a1 = a2 ∧ same g1' g2'
    | Raise e1, Raise e2 => e1 = e2
    | _, _ => False
    end.

(** ** Further properties: predicates *)

(** The last [k] letters of [sq] exist and all equal [c]. *)
Definition trailing_all (sq : list string) (c : string) (k : nat) : Prop :=
  k ≤ length sq ∧ Forall (λ x, x = c) (drop (length sq - k) sq).

(** What a primary attempt guarantees of the letter, flag and lure type it
    appends at position [i], given the letters [sq] placed before. *)
Definition step_ok (cfg : Config) (ts : gset nat) (sq : list string) (i : nat)
    (letter : string) (flag : Z) (planned : string) : Prop :=
  (flag = 1%Z ↔ i ∈ ts ∧ n_back cfg ≤ i) ∧
  (flag = 1%Z → planned = "none"%string) ∧
  _valid_run_limit sq letter (max_identical_run cfg) = true ∧
  (flag ≠ 1%Z → n_back cfg ≤ i → sq !! (i - n_back cfg) ≠ Some letter) ∧
  (flag = 1%Z → ∃ back, sq !! (i - n_back cfg) = Some back ∧
     (letter = back ∨ _valid_run_limit sq back (max_identical_run cfg) = false)) ∧
  (planned ≠ "none"%string → include_lures cfg = true) ∧
  (planned = "n-1"%string → (0 < lure_n_minus_1_rate cfg)%Q) ∧
  (planned = "n+1"%string → (0 < lure_n_plus_1_rate cfg)%Q).

(** Every position filled so far satisfies [step_ok]. *)
Definition trace_ok (cfg : Config) (ts : gset nat) (st : attempt) : Prop :=
  ∀ j letter flag planned,
    a_seq st !! j = Some letter → a_flags st !! j = Some flag →
    a_lures st !! j = Some planned →
    step_ok cfg ts (take j (a_seq st)) j letter flag planned.

(** The plan at position [j] satisfies [step_ok] after the stimuli before it. *)
Definition plan_step_ok (cfg : Config) (ts : gset nat) (plans : list TrialPlan)
    (j : nat) (p : TrialPlan) : Prop :=
  step_ok cfg ts (map stimulus (take j plans)) j
    (stimulus p) (is_target p) (lure_type p).

(** A stimulus repeats its predecessor only at a target or a lure. *)
Definition no_plain_repeat (plans : list TrialPlan) : Prop :=
  ∀ i p q, plans !! (S i) = Some p → plans !! i = Some q →
    stimulus p = stimulus q →
    is_target p ≠ 0%Z ∨ lure_type p ≠ "none"%string.

(** What the primary loop guarantees beyond [primary_ok]: the sampled target
    positions [idxs] and the facts of the fill loop at every position. *)
Definition primary_strong (cfg : Config) (plans : list TrialPlan) : Prop :=
  ∃ idxs : list nat,
    NoDup idxs ∧ (∀ i, i ∈ idxs → n_back cfg ≤ i < n_trials cfg) ∧
    Z.of_nat (length idxs) = Z.max 0 (desired_targets cfg) ∧
    (∀ j p, plans !! j = Some p → plan_step_ok cfg (list_to_set idxs) plans j p) ∧
    (1 < n_back cfg → no_plain_repeat plans) ∧
    Forall (λ p, iti_ms p = fixed_iti_ms cfg) plans.

(** The letters of the fallback: a flagged position repeats the letter
    [n_back] positions back, any other differs from it and from its
    predecessor. *)
Definition letters_ok (cfg : Config) (flags : list Z) (sq : list string) : Prop :=
  ∀ j c f, sq !! j = Some c → flags !! j = Some f →
    (f = 1%Z → n_back cfg ≤ j ∧ sq !! (j - n_back cfg) = Some c) ∧
    (f ≠ 1%Z → (n_back cfg ≤ j → sq !! (j - n_back cfg) ≠ Some c) ∧
               (1 ≤ j → sq !! (j - 1) ≠ Some c)).

(** What the fallback guarantees beyond [fallback_ok]. *)
Definition fallback_strong (cfg : Config) (plans : list TrialPlan) : Prop :=
  (∀ j p, plans !! j = Some p →
     (is_target p = 1%Z →
        ∃ q, plans !! (j - n_back cfg) = Some q ∧ stimulus p = stimulus q) ∧
     (is_target p ≠ 1%Z →
        (n_back cfg ≤ j →
           ∃ q, plans !! (j - n_back cfg) = Some q ∧ stimulus p ≠ stimulus q) ∧
        (1 ≤ j → ∃ q, plans !! (j - 1) = Some q ∧ stimulus p ≠ stimulus q))) ∧
  Forall (λ p, iti_ms p = fixed_iti_ms cfg) plans.

(** Positions [i], ..., [i+len-1] exist and all show the letter [c]. *)
Definition letter_run (plans : list TrialPlan) (i len : nat) (c : string) : Prop :=
  ∀ j, j < len → ∃ p, plans !! (i + j) = Some p ∧ stimulus p = c.

(** What the fallback returns for [crowded_config 3 1] under zero draws. *)
Definition crowded_plans : list TrialPlan :=
  [plan "A" 0 "none"; plan "B" 0 "none"; plan "B" 1 "none"].


(** ** Event markers ([nback/markers.py]) *)

(** The module's two globals. *)
Record marker_state := {
  ENABLE_MARKERS : bool;
  triggers : gmap string Z
}.

(** The dict literal [TRIGGERS]. *)
Definition TRIGGERS : gmap string Z :=
  list_to_map
    [("experiment_start", 1); ("consent_shown", 2); ("instructions_shown", 3);
     ("practice_start", 10); ("practice_end", 11);
     ("block_ll_start", 20); ("block_ll_end", 21);
     ("block_hl_start", 30); ("block_hl_end", 31);
     ("stim_presentation", 40); ("fixation_onset", 41);
     ("response_ll", 50); ("response_hl", 51);
     ("debrief_shown", 90); ("experiment_end", 99)]%string%Z.

(** The module as imported: markers off, the default table. *)
Definition markers_at_import : marker_state :=
  {| ENABLE_MARKERS := false; triggers := TRIGGERS |}.

(** The outcome of a call that may raise [KeyError]. *)
Inductive keyed (A : Type) :=
| Returned (a : A)
| KeyError (key : string).
Arguments Returned {A} a.
Arguments KeyError {A} key.

Definition set_enable (st : marker_state) (value : bool) : marker_state :=
  {| ENABLE_MARKERS := value; triggers := triggers st |}.

(** [TRIGGERS[name] = int(code) & 0xFF], after the membership test. *)
Definition set_trigger_code (st : marker_state) (name : string) (code : Z)
    : keyed marker_state :=
  match triggers st !! name with
  | None => KeyError name
  | Some _ =>
      Returned {| ENABLE_MARKERS := ENABLE_MARKERS st;
                  triggers := <[name := Z.land code 255]> (triggers st) |}
  end.

Section Backends.
(** The state of whatever the backends drive. *)
Context {W : Type}.

(** A method of a backend object: the state after the call, and whether the
    call raised. *)
Definition method (A : Type) : Type := A → W → W * bool.

(** [try: m(a) except Exception: pass] *)
Definition try_pass {A} (m : method A) (a : A) (w : W) : W := (m a w).1.

(** [parallel_port] and [eyelink] are [None] or an object with the method
    called on it. *)
Definition send_marker (st : marker_state) (code : Z)
    (parallel_port : option (method Z)) (eyelink : option (method string))
    (w : W) : W :=
  if negb (ENABLE_MARKERS st) then w
  else
    let w :=
      match parallel_port with
      | Some setData => try_pass setData (Z.land code 255) w
      | None => w
      end in
    match eyelink with
    | Some sendMessage => try_pass sendMessage (pretty code) w
    | None => w
    end.

Definition send_named (st : marker_state) (name : string)
    (parallel_port : option (method Z)) (eyelink : option (method string))
    (w : W) : keyed W :=
  match triggers st !! name with
  | None => KeyError name
  | Some code => Returned (send_marker st code parallel_port eyelink w)
  end.

End Backends.

(** A call that changes the module's globals. *)
Inductive marker_call :=
| Call_set_enable (value : bool)
| Call_set_trigger_code (name : string) (code : Z).

(** The globals after a call; a call that raises leaves them as they were. *)
Definition after_call (st : marker_state) (c : marker_call) : marker_state :=
  match c with
  | Call_set_enable value => set_enable st value
  | Call_set_trigger_code name code =>
      match set_trigger_code st name code with
      | Returned st' => st'
      | KeyError _ => st
      end
  end.

Definition after_calls (st : marker_state) (cs : list marker_call) : marker_state :=
  foldl after_call st cs.

(** What a parallel port and an EyeLink that record their calls have received. *)
Record wire := {
  port_data : list Z;
  messages : list string
}.

Definition recording_port : method (W := wire) Z :=
  λ v w, ({| port_data := port_data w ++ [v]; messages := messages w |}, false).

Definition recording_eyelink : method (W := wire) string :=
  λ s w, ({| port_data := port_data w; messages := messages w ++ [s] |}, false).

(** A backend whose every call raises and changes nothing. *)
Definition failing_backend {A} : method (W := wire) A := λ _ w, (w, true).

Definition idle_wire : wire := {| port_data := []; messages := [] |}.

(** The table keeps its names and holds 8-bit codes. *)
Definition table_ok (st : marker_state) : Prop :=
  dom (triggers st) = dom TRIGGERS ∧
  ∀ name code, triggers st !! name = Some code → (0 ≤ code ≤ 255)%Z.



(** ** A whole block ([run_block]) *)

Definition STIM_DUR_MS : Z := 500.

(** [if is_target:] tests the integer for being non-zero. *)
Definition _marker_code_for_stim (is_target : Z) (lure_type : string) : Z :=
  if decide (is_target ≠ 0%Z) then 41%Z
  else if decide (lure_type = "n-1"%string) then 43%Z
  else if decide (lure_type = "n+1"%string) then 44%Z
  else 42%Z.

(** The module globals of [nback_task.py] that [main] sets and the blocks
    read; [use_hw_kb] is the test
    [CFG_USE_HW_KB and _HAVE_HW_KB and kb is not None], fixed for a block. *)
Record task_globals := {
  CURRENT_PARTICIPANT : string;
  SESSION_TS : string;
  CFG_TARGET_RATE : Q;
  CFG_LURE_NM1 : Q;
  CFG_LURE_NP1 : Q;
  CFG_MAX_CONSEC_TARGETS : Z;
  CFG_SOA_MS : Z;
  CFG_FIXED_ITI_MS : Z;
  use_hw_kb : bool
}.

Definition block_start_name (n_back : nat) : string :=
  if decide (n_back = 1) then "block_ll_start"%string else "block_hl_start"%string.

Definition block_end_name (n_back : nat) : string :=
  if decide (n_back = 1) then "block_ll_end"%string else "block_hl_end"%string.

Definition response_name (n_back : nat) : string :=
  if decide (n_back = 1) then "response_ll"%string else "response_hl"%string.

(** The locals of the polling loop, and the names passed to [send_named] so
    far, oldest first. *)
Record trial_state := {
  t_latch : latch;
  fixation_mark_sent : bool;
  t_sent : list string
}.

Inductive loop_end :=
| LoopQuit (sent : list string)
| LoopElapsed (s : trial_state).

(** The [while True] loop of one trial with its markers; [None] when the
    clock readings end before the SOA is reached. The quit key ends the
    process in [graceful_quit]. *)
Fixpoint trial_loop (hw : bool) (soa_ms : Q) (n_back : nat) (polls : list poll)
    (s : trial_state) : option loop_end :=
  match polls with
  | [] => None
  | p :: rest =>
      if Qle_bool soa_ms (now_ms p) then Some (LoopElapsed s)
      else
        let keys := getKeys [KEY_RESPONSE; KEY_QUIT] (pressed p) in
        let after_keys :=
          if bool_decide (keys ≠ []) && negb (got_response (t_latch s)) then
            match (if hw then first_key keys else scan_keys keys) with
            | QuitKey => None
            | Latched k rt =>
                Some {| t_latch := {| got_response := true; resp_key := Some k;
                                      rt_ms := Some rt |};
                        fixation_mark_sent := fixation_mark_sent s;
                        t_sent := t_sent s ++ [response_name n_back] |}
            | NoKey => Some s
            end
          else Some s in
        match after_keys with
        | None => Some (LoopQuit (t_sent s))
        | Some s1 =>
            let s2 :=
              if Qltb (now_ms p) (inject_Z STIM_DUR_MS) then s1
              else if fixation_mark_sent s1 then s1
              else {| t_latch := t_latch s1; fixation_mark_sent := true;
                      t_sent := t_sent s1 ++ ["fixation_onset"%string] |} in
            trial_loop hw soa_ms n_back rest s2
        end
  end.

(** A row of the CSV; the onset and the reaction time are kept as numbers,
    the source formats them to 6 and 2 decimals. An empty cell is [None]. *)
Record csv_row := {
  csv_participant_id : string;
  csv_session_timestamp : string;
  csv_block_idx : Z;
  csv_trial_idx : nat;
  csv_n_back : nat;
  csv_stimulus : string;
  csv_is_target : Z;
  csv_lure_type : string;
  csv_iti_ms : Z;
  csv_stim_onset_time : Q;
  csv_response_key : string;
  csv_rt_ms : option Q;
  csv_correct : Z;
  csv_marker_code_stim : Z;
  csv_marker_code_resp : option Z
}.

(** What the display and the keyboard give during one trial: the time stamp
    of the stimulus flip and the passes of the polling loop. *)
Record trial_input := {
  stim_onset : Q;
  trial_polls : list poll
}.

(** The variables a block updates: its counter, the three lists it appends
    to ([rows_out] may be [None]) and the names passed to [send_named]. *)
Record block_vars := {
  correct_count : Z;
  accs_out : list Z;
  rts_out : list Q;
  rows_out : option (list csv_row);
  sent : list string
}.

Inductive trial_outcome :=
| TrialQuit (sent : list string)
| TrialDone (v : block_vars).

(** The dict [row] built at the end of a trial. *)
Definition make_row (gl : task_globals) (block_idx : Z) (n_back t_idx : nat)
    (plan : TrialPlan) (inp : trial_input) (l : latch) : csv_row :=
  {| csv_participant_id := CURRENT_PARTICIPANT gl;
     csv_session_timestamp := SESSION_TS gl;
     csv_block_idx := block_idx;
     csv_trial_idx := t_idx;
     csv_n_back := n_back;
     csv_stimulus := stimulus plan;
     csv_is_target := is_target plan;
     csv_lure_type := lure_type plan;
     csv_iti_ms := iti_ms plan;
     csv_stim_onset_time := stim_onset inp;
     csv_response_key := default ""%string (resp_key l);
     csv_rt_ms := rt_ms l;
     csv_correct := score plan l;
     csv_marker_code_stim := _marker_code_for_stim (is_target plan) (lure_type plan);
     csv_marker_code_resp :=
       if got_response l then Some (if decide (n_back = 1) then 50%Z else 51%Z)
       else None |}.

(** One pass of [for t_idx, plan in enumerate(plans, start=1)]. *)
Definition block_trial (gl : task_globals) (block_idx : Z) (n_back t_idx : nat)
    (plan : TrialPlan) (inp : trial_input) (v : block_vars) : option trial_outcome :=
  match trial_loop (use_hw_kb gl) (inject_Z (CFG_SOA_MS gl)) n_back (trial_polls inp)
          {| t_latch := {| got_response := false; resp_key := None; rt_ms := None |};
             fixation_mark_sent := false;
             t_sent := sent v ++ ["stim_presentation"%string] |} with
  | None => None
  | Some (LoopQuit names) => Some (TrialQuit names)
  | Some (LoopElapsed s) =>
      let l := t_latch s in
      let correct := score plan l in
      Some (TrialDone
        {| correct_count :=
             if decide (correct ≠ 0%Z) then (correct_count v + 1)%Z else correct_count v;
           accs_out := accs_out v ++ [correct];
           rts_out :=
             match rt_ms l with
             | Some rt => if decide (correct ≠ 0%Z) then rts_out v ++ [rt] else rts_out v
             | None => rts_out v
             end;
           rows_out :=
             (λ rows, rows ++ [make_row gl block_idx n_back t_idx plan inp l])
               <$> rows_out v;
           sent := t_sent s |})
  end.

(** The trial loop from trial number [t_idx] on; [None] when the inputs end
    before the plans do. *)
Fixpoint block_trials (gl : task_globals) (block_idx : Z) (n_back t_idx : nat)
    (plans : list TrialPlan) (inputs : list trial_input) (v : block_vars)
    : option trial_outcome :=
  match plans with
  | [] => Some (TrialDone v)
  | plan :: plans' =>
      match inputs with
      | [] => None
      | inp :: inputs' =>
          match block_trial gl block_idx n_back t_idx plan inp v with
          | None => None
          | Some (TrialQuit names) => Some (TrialQuit names)
          | Some (TrialDone v') =>
              block_trials gl block_idx n_back (S t_idx) plans' inputs' v'
          end
      end
  end.

Definition sumQ (l : list Q) : Q := foldr Qplus 0%Q l.

Inductive block_end :=
| BlockQuit (sent : list string)
| BlockDone (acc : Q) (mean_rt : option Q) (v : block_vars).

(** [run_block]; the quotients are exact where the source divides floats. *)
Definition run_block (gl : task_globals) (block_idx : Z) (n_back : nat)
    (plans : list TrialPlan) (inputs : list trial_input)
    (accs : list Z) (rts : list Q) (rows : option (list csv_row))
    : option block_end :=
  match block_trials gl block_idx n_back 1 plans inputs
          {| correct_count := 0; accs_out := accs; rts_out := rts;
             rows_out := rows; sent := [block_start_name n_back] |} with
  | None => None
  | Some (TrialQuit names) => Some (BlockQuit names)
  | Some (TrialDone v) =>
      let acc :=
        match plans with
        | [] => 0%Q
        | _ => (inject_Z (correct_count v) / inject_Z (Z.of_nat (length plans)))%Q
        end in
      let mean_rt :=
        match rts_out v with
        | [] => None
        | _ => Some (sumQ (rts_out v) / inject_Z (Z.of_nat (length (rts_out v))))%Q
        end in
      Some (BlockDone acc mean_rt
              {| correct_count := correct_count v; accs_out := accs_out v;
                 rts_out := rts_out v; rows_out := rows_out v;
                 sent := sent v ++ [block_end_name n_back] |})
  end.

(** A latch as the polling loop can leave it: empty, or holding the response
    key with a reaction time. *)
Definition latch_full (l : latch) : Prop :=
  (got_response l = true ∧ resp_key l = Some KEY_RESPONSE ∧ is_Some (rt_ms l)) ∨
  (got_response l = false ∧ resp_key l = None ∧ rt_ms l = None).

Definition no_latch : latch :=
  {| got_response := false; resp_key := None; rt_ms := None |}.

(** A hit: a correct trial of a target plan. *)
Definition is_hit (r : csv_row) : bool :=
  bool_decide (csv_is_target r = 1%Z) && bool_decide (csv_correct r = 1%Z).

(** The reaction times of the hits among the rows. *)
Definition hit_rts (rows : list csv_row) : list Q :=
  omap (λ r, if is_hit r then csv_rt_ms r else None) rows.

Definition count_name (name : string) (names : list string) : nat :=
  length (filter (λ x, x = name) names).

(** The part of a loop's end that [poll_loop] reports. *)
Definition end_latch (e : loop_end) : trial_end :=
  match e with
  | LoopQuit _ => Aborted
  | LoopElapsed s => Elapsed (t_latch s)
  end.

(** The columns of a row that copy the block and the plan. *)
Definition row_of_plan (gl : task_globals) (block_idx : Z) (n_back t_idx : nat)
    (p : TrialPlan) (r : csv_row) : Prop :=
  csv_participant_id r = CURRENT_PARTICIPANT gl ∧
  csv_session_timestamp r = SESSION_TS gl ∧
  csv_block_idx r = block_idx ∧ csv_trial_idx r = t_idx ∧ csv_n_back r = n_back ∧
  csv_stimulus r = stimulus p ∧ csv_is_target r = is_target p ∧
  csv_lure_type r = lure_type p ∧ csv_iti_ms r = iti_ms p ∧
  csv_marker_code_stim r = _marker_code_for_stim (is_target p) (lure_type p).

(** The response columns of a row: a response with its key, time and code,
    correct on a target; or no response and three empty cells, correct on a
    plan flagged 0. *)
Definition response_columns (n_back : nat) (r : csv_row) : Prop :=
  (csv_response_key r = KEY_RESPONSE ∧ is_Some (csv_rt_ms r) ∧
   csv_marker_code_resp r = Some (if decide (n_back = 1) then 50%Z else 51%Z) ∧
   csv_correct r = (if decide (csv_is_target r = 1%Z) then 1%Z else 0%Z)) ∨
  (csv_response_key r = ""%string ∧ csv_rt_ms r = None ∧
   csv_marker_code_resp r = None ∧
   csv_correct r = (if decide (csv_is_target r = 0%Z) then 1%Z else 0%Z)).

(** The names a trial passes to [send_named]. *)
Definition trial_names (n_back : nat) : list string :=
  ["stim_presentation"%string; response_name n_back; "fixation_onset"%string].

(** [sum(accs) / len(accs) if accs else 0.0] of [run_practice]. *)
Definition mean_acc (accs : list Z) : Q :=
  match accs with
  | [] => 0%Q
  | _ => (inject_Z (sumZ accs) / inject_Z (Z.of_nat (length accs)))%Q
  end.

(** The globals of a session with the default SOA and the event backend. *)
Definition demo_globals : task_globals :=
  {| CURRENT_PARTICIPANT := "anon"; SESSION_TS := "20240101_120000";
     CFG_TARGET_RATE := TARGET_RATE;
     CFG_LURE_NM1 := LURE_N_MINUS_1_RATE; CFG_LURE_NP1 := LURE_N_PLUS_1_RATE;
     CFG_MAX_CONSEC_TARGETS := MAX_CONSEC_TARGETS_DEFAULT;
     CFG_SOA_MS := 2500; CFG_FIXED_ITI_MS := 2000; use_hw_kb := false |}.

(** Three trials for [demo_plans]: no key; the response key at 300 ms; the
    response key at 640 ms and the quit key later. *)
Definition demo_inputs : list trial_input :=
  [ {| stim_onset := 1;
       trial_polls := [ {| now_ms := 100; pressed := [] |};
                        {| now_ms := 600; pressed := [] |};
                        {| now_ms := 2500; pressed := [] |} ] |};
    {| stim_onset := 7 # 2;
       trial_polls := [ {| now_ms := 100; pressed := [] |};
                        {| now_ms := 300; pressed := [("space"%string, 3 # 10)] |};
                        {| now_ms := 700; pressed := [] |};
                        {| now_ms := 2500; pressed := [] |} ] |};
    {| stim_onset := 6; trial_polls := demo_polls |} ].

(** The state of the polling loop when a trial starts, after [sent]. *)
Definition trial_start (names : list string) : trial_state :=
  {| t_latch := no_latch; fixation_mark_sent := false; t_sent := names |}.

(** ** The session set-up and block schedule of [main] *)

Definition PRACTICE_TARGET_RATE : Q := 2 # 5.
Definition PRACTICE_HAS_LURES : bool := false.

(** The parsed command line; [--trials] is taken non-negative, and the
    float options hold numbers. *)
Record Args := {
  arg_version : string;
  arg_blocks_per_load : Z;
  arg_trials : nat;
  arg_practice_trials : Z;
  arg_lure_nminus1 : Q;
  arg_lure_nplus1 : Q;
  arg_target_rate : Q;
  arg_max_consec_targets : Z;
  arg_soa_ms : Z
}.

(** [max(0.0, min(1.0, x))] *)
Definition clamp01 (x : Q) : Q :=
  let m := if Qltb x 1 then x else 1%Q in
  if Qltb 0 m then m else 0%Q.

Definition load_order (a : Args) : list nat :=
  if decide (arg_version a = "A"%string) then [1; 3] else [3; 1].

Definition blocks_per_load (a : Args) : Z := Z.max 1 (arg_blocks_per_load a).

(** "Apply CLI config": the globals after the assignments of [main]. *)
Definition apply_cli (a : Args) (participant session : string) (hw : bool)
    : task_globals :=
  let soa := Z.max 1 (arg_soa_ms a) in
  {| CURRENT_PARTICIPANT := participant;
     SESSION_TS := session;
     CFG_TARGET_RATE := clamp01 (arg_target_rate a);
     CFG_LURE_NM1 := clamp01 (arg_lure_nminus1 a);
     CFG_LURE_NP1 := clamp01 (arg_lure_nplus1 a);
     CFG_MAX_CONSEC_TARGETS := Z.max 1 (arg_max_consec_targets a);
     CFG_SOA_MS := soa;
     CFG_FIXED_ITI_MS := Z.max 0 (soa - STIM_DUR_MS);
     use_hw_kb := hw |}.


(** The arguments of the [generate_sequence] call of [run_practice]. *)
Definition practice_config (gl : task_globals) (n_back practice_trials : nat) : Config :=
  {| n_back := n_back; n_trials := practice_trials;
     target_rate := PRACTICE_TARGET_RATE;
     lure_n_minus_1_rate := if PRACTICE_HAS_LURES then CFG_LURE_NM1 gl else 0%Q;
     lure_n_plus_1_rate := if PRACTICE_HAS_LURES then CFG_LURE_NP1 gl else 0%Q;
     max_consec_targets := CFG_MAX_CONSEC_TARGETS gl;
     max_identical_run := MAX_IDENTICAL_RUN;
     fixed_iti_ms := CFG_FIXED_ITI_MS gl;
     max_attempts := MAX_ATTEMPTS;
     soft_balance_initial := true;
     include_lures := PRACTICE_HAS_LURES |}.

(** [practice_trials = max(1, int(args.practice_trials))], and the level 2 of
    the call [run_practice(win, 2, practice_trials)]. *)
Definition main_practice_config (a : Args) (gl : task_globals) : Config :=
  practice_config gl 2 (Z.to_nat (Z.max 1 (arg_practice_trials a))).

(** A block of the main task: its number, its level and whether the break
    screen follows it. *)
Record block_slot := {
  slot_block_idx : Z;
  slot_n_back : nat;
  slot_break : bool
}.

(** [for within_phase_b in range(1, blocks_per_load + 1)], with the counter
    it advances. *)
Fixpoint phase_slots (n_back k : nat) (block_counter total_blocks : Z)
    : list block_slot * Z :=
  match k with
  | 0 => ([], block_counter)
  | S k' =>
      let block_counter := (block_counter + 1)%Z in
      let slot := {| slot_block_idx := block_counter; slot_n_back := n_back;
                     slot_break := bool_decide (block_counter < total_blocks)%Z |} in
      let '(rest, final) := phase_slots n_back k' block_counter total_blocks in
      (slot :: rest, final)
  end.

(** [for phase_idx, n_back in enumerate(load_order, start=1)] *)
Fixpoint session_slots (loads : list nat) (per_load block_counter total_blocks : Z)
    : list block_slot :=
  match loads with
  | [] => []
  | n_back :: rest =>
      let '(slots, block_counter) :=
        phase_slots n_back (Z.to_nat per_load) block_counter total_blocks in
      slots ++ session_slots rest per_load block_counter total_blocks
  end.

Definition main_slots (a : Args) : list block_slot :=
  session_slots (load_order a) (blocks_per_load a) 0 (2 * blocks_per_load a).

(** The command line with every option at its default. *)
Definition default_args : Args :=
  {| arg_version := "A"; arg_blocks_per_load := 3; arg_trials := 60;
     arg_practice_trials := 30;
     arg_lure_nminus1 := LURE_N_MINUS_1_RATE; arg_lure_nplus1 := LURE_N_PLUS_1_RATE;
     arg_target_rate := TARGET_RATE;
     arg_max_consec_targets := MAX_CONSEC_TARGETS_DEFAULT;
     arg_soa_ms := 2500 |}.

(** The block of the closed form of the schedule at position [j]. *)
Definition slot_at (first second b j : nat) : block_slot :=
  {| slot_block_idx := Z.of_nat (S j);
     slot_n_back := if decide (j < b) then first else second;
     slot_break := bool_decide (S j < 2 * b) |}.

(** ** File names ([nback/utilities.py]) *)

Section SafeFilename.
(** The characters of a Python string with the two classifications and the
    three punctuation characters [safe_filename] uses. *)
Context {char : Type} `{EqDecision char}.
Variables (isalnum isspace : char → bool) (hyphen underscore dot : char).

(** [c.isalnum() or c in ("-", "_", ".")] *)
Definition kept (c : char) : bool :=
  isalnum c || bool_decide (c ∈ [hyphen; underscore; dot]).

Fixpoint lstrip (s : list char) : list char :=
  match s with
  | [] => []
  | c :: rest => if isspace c then lstrip rest else s
  end.

(** [str.strip()]: leading and trailing whitespace removed. *)
Definition strip (s : list char) : list char :=
  reverse (lstrip (reverse (lstrip s))).

Definition safe_filename (name : list char) : list char :=
  strip (filter (λ c, kept c = true) name).
End SafeFilename.

(** The two classifications on ASCII characters. *)
Definition ascii_isalnum (c : Ascii.ascii) : bool :=
  let n := Ascii.nat_of_ascii c in
  (48 <=? n) && (n <=? 57) || (65 <=? n) && (n <=? 90) || (97 <=? n) && (n <=? 122).

Definition ascii_isspace (c : Ascii.ascii) : bool :=
  let n := Ascii.nat_of_ascii c in
  (9 <=? n) && (n <=? 13) || (28 <=? n) && (n <=? 32).

Definition ascii_safe_filename (name : string) : string :=
  String.string_of_list_ascii
    (safe_filename ascii_isalnum ascii_isspace "-"%char "_"%char "."%char
       (String.list_ascii_of_string name)).

(** * Proofs *)

Lemma tape_random_unit t :
  (0 <= fst (tape_random t))%Q ∧ (fst (tape_random t) < 1)%Q.
Proof.
  unfold tape_random. destruct (floats t) as [|q rest]; simpl; [done|].
  unfold clamp_unit, Qltb.
  destruct (Qle_bool 0 q) eqn:E1; simpl; [|done].
  destruct (Qle_bool 1 q) eqn:E2; simpl; [done|].
  split; [by apply Qle_bool_iff|].
  apply Qnot_le_lt. intros Hle. apply Qle_bool_iff in Hle. congruence.
Qed.

Lemma tape_randbelow_lt n t : 0 < n → fst (tape_randbelow n t) < n.
Proof.
  intros Hn. unfold tape_randbelow. destruct (ints t); simpl; [done|].
  apply Nat.mod_upper_bound. lia.
Qed.

#[export] Instance tape_laws : RandomLaws Tape.
Proof. split; [apply tape_random_unit | apply tape_randbelow_lt]. Qed.

(** ** Reasoning about results and random-state computations *)

Lemma okE_bind {A B} (r : result A) (k : A → result B) (Q : B → Prop) :
  okE r (λ a, okE (k a) Q) → okE (bindE r k) Q.
Proof. by destruct r. Qed.

Lemma okE_mono {A} (r : result A) (P Q : A → Prop) :
  okE r P → (∀ a, P a → Q a) → okE r Q.
Proof. destruct r; simpl; auto. Qed.

Lemma okE_getitem {A} (l : list A) i (Q : A → Prop) :
  (∃ a, l !! i = Some a ∧ Q a) → okE (getitem l i) Q.
Proof. intros (a & Ha & HQ). unfold getitem. by rewrite Ha. Qed.

Lemma okE_getitem_lt {A} (l : list A) i (Q : A → Prop) :
  i < length l → (∀ a, l !! i = Some a → Q a) → okE (getitem l i) Q.
Proof.
  intros Hi HQ. destruct (lookup_lt_is_Some_2 l i Hi) as [a Ha].
  apply okE_getitem. eauto.
Qed.

Lemma okE_setitem {A} (l : list A) i v (Q : list A → Prop) :
  i < length l → Q (<[i:=v]> l) → okE (setitem l i v) Q.
Proof. intros Hi HQ. unfold setitem. by rewrite decide_True. Qed.

Lemma wp_ret {R A} (a : A) (g : R) Q : Q a g → wp (ret a) g Q.
Proof. done. Qed.

Lemma wp_bind {R A B} (m : M R A) (k : A → M R B) (g : R) Q :
  wp m g (λ a g', wp (k a) g' Q) → wp (bind m k) g Q.
Proof. unfold wp, bind. by destruct (m g) as [[a g']|]. Qed.

Lemma wp_mono {R A} (m : M R A) (g : R) (P Q : A → R → Prop) :
  wp m g P → (∀ a g', P a g' → Q a g') → wp m g Q.
Proof. unfold wp. destruct (m g) as [[a g']|]; auto. Qed.

Lemma wp_lift {R A} (r : result A) (g : R) Q :
  okE r (λ a, Q a g) → wp (lift r) g Q.
Proof. by destruct r. Qed.

Lemma wp_inv {R A} (m : M R A) (g : R) Q :
  wp m g Q → ∃ a g', m g = Ok (a, g') ∧ Q a g'.
Proof. unfold wp. destruct (m g) as [[a g']|]; [eauto | done]. Qed.

Lemma bind_inv {R A B} (m : M R A) (k : A → M R B) (g : R) b g2 :
  bind m k g = Ok (b, g2) → ∃ a g1, m g = Ok (a, g1) ∧ k a g1 = Ok (b, g2).
Proof. unfold bind. destruct (m g) as [[a g1]|]; [eauto | done]. Qed.

Lemma bindE_inv {A B} (r : result A) (k : A → result B) b :
  bindE r k = Ok b → ∃ a, r = Ok a ∧ k a = Ok b.
Proof. destruct r; simpl; [eauto | done]. Qed.

Lemma getitem_inv {A} (l : list A) i a : getitem l i = Ok a → l !! i = Some a.
Proof. unfold getitem. destruct (l !! i); [by intros [= ->] | done]. Qed.

Section RandomFacts.
Context {R : Type} `{RandomLaws R}.

Lemma wp_random (g : R) (Q : Q → R → Prop) :
  (∀ u g', random g = (u, g') → (0 <= u)%Q → (u < 1)%Q → Q u g') →
  wp random_random g Q.
Proof.
  intros HQ. unfold wp, random_random.
  destruct (random g) as [u g'] eqn:E. apply HQ; [done| |];
    pose proof (random_unit g) as Hu; rewrite E in Hu; apply Hu.
Qed.

Lemma wp_rand_below n (g : R) (Q : nat → R → Prop) :
  0 < n → (∀ j g', j < n → Q j g') → wp (rand_below n) g Q.
Proof.
  intros Hn HQ. unfold wp, rand_below.
  destruct (randbelow n g) as [j g'] eqn:E. apply HQ.
  pose proof (randbelow_lt n g Hn) as Hj. by rewrite E in Hj.
Qed.

Lemma okE_swap {A} (x : list A) i j (Q : list A → Prop) :
  i < length x → j < length x →
  (∀ x', x' ≡ₚ x → Q x') → okE (swap x i j) Q.
Proof.
  intros Hi Hj HQ. unfold swap.
  apply okE_bind, okE_getitem_lt; [done|]. intros xj Hxj.
  apply okE_bind, okE_getitem_lt; [done|]. intros xi Hxi.
  apply okE_bind, okE_setitem; [done|].
  apply okE_setitem; [by rewrite length_insert|].
  apply HQ.
  destruct (decide (i = j)) as [->|Hne].
  - rewrite list_insert_insert_eq. rewrite list_insert_id; [done|congruence].
  - symmetry. apply Permutation_inj. split.
    { by rewrite !length_insert. }
    exists (λ k, if decide (k = i) then j else if decide (k = j) then i else k).
    split.
    + intros a b Hab. repeat case_decide; congruence.
    + intros k. repeat case_decide; subst.
      * rewrite list_lookup_insert_eq; [done|by rewrite length_insert].
      * rewrite list_lookup_insert_ne; [|done].
        rewrite list_lookup_insert_eq; [done|done].
      * by rewrite !list_lookup_insert_ne.
Qed.

Lemma wp_shuffle_from {A} i (x : list A) (g : R) (Q : list A → R → Prop) :
  i < length x ∨ (i = 0 ∧ x = []) →
  (∀ x' g', x' ≡ₚ x → Q x' g') → wp (shuffle_from i x) g Q.
Proof.
  revert x g. induction i as [|i IH]; intros x g Hi HQ.
  - simpl. apply wp_ret. by apply HQ.
  - simpl. apply wp_bind, wp_rand_below; [lia|]. intros j g1 Hj.
    apply wp_bind, wp_lift.
    apply okE_swap; [lia..|]. intros x' Hx'.
    apply IH.
    + left. rewrite Hx'. lia.
    + intros x'' g2 Hx''. apply HQ. by rewrite Hx''.
Qed.

Lemma wp_shuffle {A} (x : list A) (g : R) (Q : list A → R → Prop) :
  (∀ x' g', x' ≡ₚ x → Q x' g') → wp (shuffle x) g Q.
Proof.
  intros HQ. unfold shuffle. apply wp_shuffle_from; [|done].
  destruct x; simpl; [by right | left; lia].
Qed.

Lemma wp_choice {A} (xs : list A) (g : R) (Q : A → R → Prop) :
  xs ≠ [] → (∀ a g', a ∈ xs → Q a g') → wp (choice xs) g Q.
Proof.
  intros Hne HQ. unfold choice. destruct xs as [|x xs]; [done|].
  apply wp_bind, wp_rand_below; [simpl; lia|]. intros j g1 Hj.
  apply wp_lift, okE_getitem_lt; [done|]. intros a Ha.
  apply HQ. by eapply list_elem_of_lookup_2.
Qed.
End RandomFacts.

(** ** The chooser returns one of its candidates *)

Lemma LETTERS_nonempty : LETTERS ≠ [].
Proof. by vm_compute. Qed.

Lemma pick_weighted_elem cs ws r acc c :
  pick_weighted (zip cs ws) r acc = Some c → c ∈ cs.
Proof.
  revert ws acc. induction cs as [|c0 cs IH]; intros [|w ws] acc; simpl; try done.
  destruct (Qle_bool _ _).
  - intros [= ->]. left.
  - intros Hp. right. by eapply IH.
Qed.

Section ChooserFacts.
Context {R : Type} `{RandomLaws R}.

Lemma wp_choose_letter cands freq sb (g : R) (Q : string → R → Prop) :
  (∀ c g', c ∈ (match cands with [] => LETTERS | _ => cands end) → Q c g') →
  wp (_choose_letter cands freq sb) g Q.
Proof.
  unfold _choose_letter.
  set (cs := match cands with [] => LETTERS | _ => cands end).
  assert (cs ≠ []) as Hne.
  { subst cs. destruct cands; [apply LETTERS_nonempty | done]. }
  clearbody cs. intros HQ. destruct sb.
  - apply wp_bind, wp_random. intros u g' _ _ _.
    destruct (pick_weighted _ _ _) as [c|] eqn:Hp.
    + apply wp_ret, HQ. by eapply pick_weighted_elem.
    + apply wp_lift, okE_getitem_lt.
      * destruct cs; [done | simpl; lia].
      * intros a Ha. apply HQ. by eapply list_elem_of_lookup_2.
  - by apply wp_choice.
Qed.

Lemma wp_choose_letter_sub cands freq sb (g : R) (Q : string → R → Prop) :
  cands ⊆ LETTERS →
  (∀ c g', c ∈ LETTERS → Q c g') →
  wp (_choose_letter cands freq sb) g Q.
Proof.
  intros Hsub HQ. apply wp_choose_letter. intros c g' Hc. apply HQ.
  destruct cands; [done | by apply Hsub].
Qed.
End ChooserFacts.

(** ** Invariant of the fill loop of a primary attempt *)

Lemma filter_sub_LETTERS (P : string → Prop) `{!∀ c, Decision (P c)} cands :
  cands ⊆ LETTERS → filter P cands ⊆ LETTERS.
Proof. intros Hsub c Hc. apply list_elem_of_filter in Hc as [_ Hc]. by apply Hsub. Qed.

Lemma drop_last_letter_sub cfg sq cands :
  cands ⊆ LETTERS → drop_last_letter cfg sq cands ⊆ LETTERS.
Proof.
  intros Hsub. unfold drop_last_letter. destruct (last sq); [|done].
  destruct (_ && _); [by apply filter_sub_LETTERS | done].
Qed.

Lemma okE_filter_ne_item cands sq k (Q : list string → Prop) :
  k < length sq → (∀ cs, cs ⊆ cands → Q cs) → okE (filter_ne_item cands sq k) Q.
Proof.
  intros Hk HQ. unfold filter_ne_item. destruct cands as [|c cands].
  - simpl. by apply HQ.
  - apply okE_bind, okE_getitem_lt; [done|]. intros a _. simpl.
    apply HQ. intros x Hx. by apply list_elem_of_filter in Hx as [_ ?].
Qed.

Lemma okE_lure_source cfg sq i dist :
  1 ≤ n_back cfg → 0 < dist → dist ≤ i → length sq = i →
  Forall (λ c, c ∈ LETTERS) sq →
  okE (lure_source cfg sq i dist) (λ o, ∀ l, o = Some l → l ∈ LETTERS).
Proof.
  intros Hnb Hd Hi Hlen Hall. unfold lure_source.
  apply okE_bind, okE_getitem_lt; [lia|]. intros l Hl.
  assert (l ∈ LETTERS) as HlL by (by eapply Forall_lookup_1 in Hall).
  apply okE_bind.
  assert (okE (if decide (n_back cfg ≤ i)
               then bindE (getitem sq (i - n_back cfg)) (λ x, Ok (Some x))
               else Ok None) (λ _, True)) as Hn.
  { case_decide; [|done]. apply okE_bind, okE_getitem_lt; [lia | done]. }
  eapply okE_mono; [exact Hn|]. intros letter_n _.
  destruct (_ && _); simpl; [by intros ? [= <-] | done].
Qed.

Section FillFacts.
Context {R : Type} `{RandomLaws R}.

Lemma wp_place_lure cfg sq i (g : R) :
  1 ≤ n_back cfg → length sq = i → Forall (λ c, c ∈ LETTERS) sq →
  wp (place_lure cfg sq i) g (λ pb _,
    pb.1 ∈ lure_names ∧
    (pb.1 ≠ "none"%string → ∃ l, pb.2 = Some l ∧ l ∈ LETTERS)).
Proof.
  intros Hnb Hlen Hall. unfold place_lure.
  assert (∀ g' : R, wp (ret ("none"%string, @None string)) g' (λ pb _,
    pb.1 ∈ lure_names ∧
    (pb.1 ≠ "none"%string → ∃ l, pb.2 = Some l ∧ l ∈ LETTERS))) as Hnone.
  { intros g'. apply wp_ret. simpl. split; [left | done]. }
  destruct (include_lures cfg); [|apply Hnone].
  apply wp_bind.
  eapply wp_mono with (P := λ o _, ∀ l, o = Some l → l ∈ LETTERS).
  { case_decide as Hc; [|by apply wp_ret].
    apply wp_bind, wp_random. intros u g1 _ _ _.
    destruct (Qltb _ _); [|by apply wp_ret].
    apply wp_lift. eapply okE_mono; [apply okE_lure_source; try done; lia|].
    done. }
  intros [l|] g1 Hl; simpl.
  - apply wp_ret. simpl. split; [right; left | eauto].
  - case_decide; [|apply Hnone].
    apply wp_bind, wp_random. intros u g2 _ _ _.
    destruct (Qltb _ _); [|apply Hnone].
    apply wp_bind, wp_lift.
    eapply okE_mono; [apply okE_lure_source; try done; lia|].
    intros [l|] Hl'; simpl; [|apply Hnone].
    apply wp_ret. simpl. split; [right; right; left | eauto].
Qed.

Lemma wp_filler_letter cfg sq freqs i (g : R) :
  1 ≤ n_back cfg → length sq = i →
  wp (filler_letter cfg sq freqs i) g (λ c _, c ∈ LETTERS).
Proof.
  intros Hnb Hlen. unfold filler_letter.
  apply wp_bind, wp_lift.
  eapply okE_mono with (P := λ cs, cs ⊆ LETTERS).
  { case_decide; [|simpl; reflexivity].
    apply okE_bind, okE_getitem_lt; [lia|]. intros a _. simpl.
    by apply filter_sub_LETTERS. }
  intros cs Hcs. apply wp_choose_letter_sub; [|done].
  by apply drop_last_letter_sub.
Qed.

Lemma wp_adjust_letter cfg sq freqs i letter (g : R) :
  1 ≤ n_back cfg → length sq = i → letter ∈ LETTERS →
  wp (adjust_letter cfg sq freqs i letter) g (λ c _, c ∈ LETTERS).
Proof.
  intros Hnb Hlen Hl. unfold adjust_letter.
  destruct (negb _); [|by apply wp_ret].
  apply wp_bind, wp_lift.
  eapply okE_mono with (P := λ cs, cs ⊆ LETTERS).
  { case_decide.
    - apply okE_filter_ne_item; [lia|]. intros cs Hcs.
      etrans; [exact Hcs|]. by apply filter_sub_LETTERS.
    - simpl. by apply filter_sub_LETTERS. }
  intros cs Hcs. apply wp_choose_letter_sub; [|done].
  by apply drop_last_letter_sub.
Qed.

Lemma wp_fill_step cfg ts i st (g : R) :
  1 ≤ n_back cfg → attempt_inv i st →
  wp (fill_step cfg ts i st) g (λ st' _, attempt_inv (S i) st').
Proof.
  intros Hnb (Hs & Hf & Hl & HS & HF & HL). unfold fill_step.
  apply wp_bind.
  eapply wp_mono with (P := λ t _,
    t.1.1 ∈ LETTERS ∧ is_flag t.1.2 ∧ t.2 ∈ lure_names).
  { case_decide as Hc.
    - apply wp_bind. rewrite decide_True; [|tauto].
      apply wp_lift, okE_getitem_lt; [lia|]. intros a Ha.
      apply wp_ret. simpl. split_and!; [|by right|left].
      by eapply Forall_lookup_1 in HS.
    - apply wp_bind.
      eapply wp_mono; [by apply wp_place_lure|].
      intros [planned bound] g1 [Hp Hb]; simpl in *.
      apply wp_bind.
      eapply wp_mono with (P := λ c _, c ∈ LETTERS).
      { case_decide as Hpl; [by apply wp_filler_letter|].
        destruct (Hb Hpl) as (l & -> & Hl'). by apply wp_ret. }
      intros c g2 Hc'. apply wp_ret. simpl. split_and!; [done|by left|done]. }
  intros [[letter flag] planned] g1 (Hc1 & Hc2 & Hc3); simpl in *.
  apply wp_bind.
  eapply wp_mono; [by apply wp_adjust_letter|].
  intros c g2 Hc. apply wp_ret. unfold attempt_inv; simpl.
  rewrite !length_app, !Forall_app, !Forall_singleton. simpl.
  split_and!; try done; lia.
Qed.

Lemma wp_fill_loop cfg ts n i st (g : R) :
  1 ≤ n_back cfg → attempt_inv i st →
  wp (fill_loop cfg ts (seq i n) st) g (λ st' _, attempt_inv (i + n) st').
Proof.
  intros Hnb. revert i st g. induction n as [|n IH]; intros i st g Hinv; simpl.
  - apply wp_ret. by rewrite Nat.add_0_r.
  - apply wp_bind. eapply wp_mono; [by apply wp_fill_step|].
    intros st' g' Hinv'. eapply wp_mono; [by apply IH|].
    intros st'' g'' Hst. by replace (i + S n) with (S i + n) by lia.
Qed.
End FillFacts.

(** ** Soundness of the validator *)

Lemma any_target_false flags idxs :
  any_target flags idxs = Ok false →
  ∀ i, i ∈ idxs → flags !! i ≠ Some 1%Z.
Proof.
  induction idxs as [|j idxs IH]; simpl; intros Hany i Hi.
  - by apply elem_of_nil in Hi.
  - apply bindE_inv in Hany as (f & Hf & Hany). apply getitem_inv in Hf.
    case_decide as Hf1; [done|].
    apply elem_of_cons in Hi as [->|Hi]; [congruence | by apply IH].
Qed.

Lemma check_lures_pass nb sq flags lures idxs :
  check_lures nb sq flags lures idxs = Ok None →
  ∀ i, i ∈ idxs → check_lure nb sq flags lures i = Ok None.
Proof.
  induction idxs as [|j idxs IH]; simpl; intros Hc i Hi.
  - by apply elem_of_nil in Hi.
  - apply bindE_inv in Hc as ([why|] & Hj & Hc); [done|].
    apply elem_of_cons in Hi as [->|Hi]; [done | by apply IH].
Qed.

Lemma equals_n_back_false nb sq i :
  equals_n_back nb sq i = Ok false →
  nb ≤ i → ∃ a c, sq !! i = Some a ∧ sq !! (i - nb) = Some c ∧ a ≠ c.
Proof.
  unfold equals_n_back. intros He Hi. rewrite decide_True in He; [|done].
  apply bindE_inv in He as (a & Ha & He). apply bindE_inv in He as (c & Hc & He).
  apply getitem_inv in Ha, Hc. exists a, c. split_and!; [done..|].
  intros ->. by rewrite bool_decide_eq_true_2 in He.
Qed.

Lemma check_lure_pass nb sq flags lures i lt :
  check_lure nb sq flags lures i = Ok None → lures !! i = Some lt →
  (lt = "n-1"%string → 1 < nb ∧ nb - 1 ≤ i ∧ lure_lists_ok nb sq i (nb - 1)) ∧
  (lt = "n+1"%string → nb + 1 ≤ i ∧ lure_lists_ok nb sq i (nb + 1)).
Proof.
  unfold check_lure, getitem at 1. intros Hc Hlt. rewrite Hlt in Hc. simpl in Hc.
  assert (∀ dist why,
    bindE (getitem sq i) (λ a, bindE (getitem sq (i - dist)) (λ b,
      if decide (a ≠ b) then Ok (Some why)
      else bindE (equals_n_back nb sq i) (λ e,
             if e then Ok (Some R_nm1_equals_target) else Ok None))) = Ok None ∨
    bindE (getitem sq i) (λ a, bindE (getitem sq (i - dist)) (λ b,
      if decide (a ≠ b) then Ok (Some why)
      else bindE (equals_n_back nb sq i) (λ e,
             if e then Ok (Some R_np1_equals_target) else Ok None))) = Ok None →
    lure_lists_ok nb sq i dist) as Hcore.
  { intros dist why Hor.
    assert (∃ a b, sq !! i = Some a ∧ sq !! (i - dist) = Some b ∧ a = b ∧
                   equals_n_back nb sq i = Ok false) as (a & b & Ha & Hb & -> & He).
    { destruct Hor as [Hb|Hb];
        apply bindE_inv in Hb as (a & Ha & Hb);
        apply bindE_inv in Hb as (b & Hb' & Hb);
        apply getitem_inv in Ha, Hb';
        (case_decide as Hab; [done|]);
        apply bindE_inv in Hb as ([|] & He & Hb); try done;
        exists a, b; split_and!; try done; by apply dec_stable. }
    split; [eauto | by apply equals_n_back_false]. }
  split; intros ->.
  - rewrite decide_True in Hc; [|done].
    destruct (bool_decide _) eqn:Hb; simpl in Hc; [|done].
    apply bool_decide_eq_true in Hb as [Hb1 Hb2].
    apply bindE_inv in Hc as (f & _ & Hc). case_decide; [done|].
    split_and!; [lia | done | eapply Hcore; left; exact Hc].
  - rewrite decide_False in Hc; [|done]. rewrite decide_True in Hc; [|done].
    destruct (bool_decide _) eqn:Hb; simpl in Hc; [|done].
    apply bool_decide_eq_true in Hb.
    apply bindE_inv in Hc as (f & _ & Hc). case_decide; [done|].
    split; [done | eapply Hcore; right; exact Hc].
Qed.

Lemma check_consec_sound flags c limit :
  check_consec flags (Z.of_nat c) limit = true →
  (∀ len, 0 < len → flag_run flags 0 len → (Z.of_nat (c + len) ≤ limit)%Z) ∧
  (∀ i len, 0 < len → flag_run flags i len → (Z.of_nat len ≤ limit)%Z).
Proof.
  revert c. induction flags as [|f flags IH]; intros c Hc.
  - split; [intros len Hlen Hrun | intros i len Hlen Hrun];
      by specialize (Hrun 0 Hlen).
  - simpl in Hc. case_decide as Hf.
    + case_decide as Hlim; [done|].
      replace (Z.of_nat c + 1)%Z with (Z.of_nat (S c)) in Hc by lia.
      destruct (IH _ Hc) as [IH1 IH2].
      assert (∀ len, 0 < len → flag_run (f :: flags) 0 len →
                     (Z.of_nat (c + len) ≤ limit)%Z) as Hhead.
      { intros [|[|len]] Hlen Hrun; [lia | lia |].
        assert (Z.of_nat (S c + S len) ≤ limit)%Z; [|lia].
        apply IH1; [lia|]. intros j Hj. apply (Hrun (S j)). lia. }
      split; [done|]. intros [|i] len Hlen Hrun.
      * specialize (Hhead len Hlen Hrun). lia.
      * apply (IH2 i); [done|]. intros j Hj. by apply (Hrun j).
    + destruct (IH 0 Hc) as [IH1 IH2].
      assert (∀ len, 0 < len → ¬ flag_run (f :: flags) 0 len) as Hno.
      { intros len Hlen Hrun. specialize (Hrun 0 Hlen). simpl in Hrun. congruence. }
      split; [intros len Hlen Hrun; by destruct (Hno len)|].
      intros [|i] len Hlen Hrun; [by destruct (Hno len)|].
      apply (IH2 i); [done|]. intros j Hj. by apply (Hrun j).
Qed.

Lemma check_consec_no_long_run flags limit :
  check_consec flags 0 limit = true →
  ∀ i, ¬ flag_run flags i (S (Z.to_nat limit)).
Proof.
  intros Hc i Hrun.
  destruct (check_consec_sound flags 0 limit Hc) as [_ H2].
  assert (0 < S (Z.to_nat limit)) as Hpos by lia.
  specialize (H2 i _ Hpos Hrun). lia.
Qed.

Lemma validate_sequence_sound sq flags lures nb rate limit why :
  validate_sequence sq flags lures nb rate limit = Ok (true, why) →
  validated nb rate limit sq flags lures.
Proof.
  unfold validate_sequence. intros Hv.
  apply bindE_inv in Hv as ([|] & Hearly & Hv); [done|].
  destruct (bool_decide _) eqn:Hcount; simpl in Hv; [|done].
  apply bool_decide_eq_true in Hcount.
  apply bindE_inv in Hv as ([|] & _ & Hv); [done|].
  apply bindE_inv in Hv as ([w|] & Hlures & Hv); [done|].
  destruct (check_consec _ _ _) eqn:Hconsec; [|done].
  split_and!.
  - intros i Hi. eapply any_target_false; [done|]. apply elem_of_seq. lia.
  - done.
  - intros i lt Hi Hlt. eapply check_lure_pass; [|done].
    eapply check_lures_pass; [done|]. apply elem_of_seq. lia.
  - by apply check_consec_no_long_run.
Qed.

(** The validator never raises on three lists of one length. *)
Lemma validate_sequence_total sq flags lures nb rate limit :
  length flags = length sq → length lures = length sq →
  okE (validate_sequence sq flags lures nb rate limit) (λ _, True).
Proof.
  intros Hf Hl. unfold validate_sequence.
  assert (∀ idxs, Forall (λ i, i < length sq) idxs →
                  okE (any_target flags idxs) (λ _, True)) as Hany.
  { induction 1 as [|i idxs Hi _ IH]; simpl; [done|].
    apply okE_bind, okE_getitem_lt; [lia|]. intros f _. by case_decide. }
  assert (∀ i, i < length sq → okE (equals_n_back nb sq i) (λ _, True)) as Heq.
  { intros i Hi. unfold equals_n_back. case_decide; [|done].
    apply okE_bind, okE_getitem_lt; [lia|]. intros a _.
    apply okE_bind, okE_getitem_lt; [lia|]. by intros c _. }
  assert (∀ idxs, Forall (λ i, i < length sq) idxs →
                  okE (any_plain_repeat sq flags lures idxs) (λ _, True)) as Hrep.
  { induction 1 as [|i idxs Hi _ IH]; simpl; [done|].
    apply okE_bind. unfold plain_repeat.
    apply okE_bind, okE_getitem_lt; [lia|]. intros a _.
    apply okE_bind, okE_getitem_lt; [lia|]. intros b _.
    case_decide; [|done].
    apply okE_bind, okE_getitem_lt; [lia|]. intros f _.
    case_decide; [|done].
    apply okE_bind, okE_getitem_lt; [lia|]. intros lt _. simpl.
    by destruct (bool_decide _). }
  assert (∀ i, i < length sq → okE (check_lure nb sq flags lures i) (λ _, True)) as Hlure.
  { intros i Hi. unfold check_lure.
    apply okE_bind, okE_getitem_lt; [lia|]. intros lt _.
    repeat case_decide; try done;
      (destruct (negb _); [done|]);
      (apply okE_bind, okE_getitem_lt; [lia|]; intros f _);
      (case_decide; [done|]);
      (apply okE_bind, okE_getitem_lt; [lia|]; intros a _);
      (apply okE_bind, okE_getitem_lt; [lia|]; intros b _);
      (case_decide; [done|]);
      (apply okE_bind; eapply okE_mono; [by apply Heq|]);
      by intros [|] _. }
  assert (∀ idxs, Forall (λ i, i < length sq) idxs →
                  okE (check_lures nb sq flags lures idxs) (λ _, True)) as Hlures.
  { induction 1 as [|i idxs Hi _ IH]; simpl; [done|].
    apply okE_bind. eapply okE_mono; [by apply Hlure|]. by intros [w|] _. }
  assert (∀ a b, (∀ i, a ≤ i < a + b → i < length sq) →
                 Forall (λ i, i < length sq) (seq a b)) as Hseq.
  { intros a b Hab. apply Forall_forall. intros i Hi%elem_of_seq. by apply Hab. }
  apply okE_bind. eapply okE_mono; [apply Hany, Hseq; lia|].
  intros [|] _; [done|].
  destruct (negb _); [done|].
  apply okE_bind.
  eapply okE_mono with (P := λ _, True).
  { case_decide; [|done]. apply Hrep, Hseq. lia. }
  intros [|] _; [done|].
  apply okE_bind. eapply okE_mono; [apply Hlures, Hseq; lia|].
  intros [w|] _; [done|]. by destruct (check_consec _ _ _).
Qed.

(** ** From the three lists to the plans *)

Lemma wp_elim {R A} (m : M R A) (g : R) Q a g' :
  wp m g Q → m g = Ok (a, g') → Q a g'.
Proof. unfold wp. intros Hwp Hm. by rewrite Hm in Hwp. Qed.

Lemma okE_mapE_seq {B} (f : nat → result B) (P : nat → B → Prop) a n :
  (∀ i, a ≤ i < a + n → okE (f i) (P i)) →
  okE (mapE f (seq a n))
      (λ bs, length bs = n ∧ ∀ k b, bs !! k = Some b → P (a + k) b).
Proof.
  revert a. induction n as [|n IH]; intros a Hf; simpl.
  - split; [done|]. intros k b Hk. by rewrite lookup_nil in Hk.
  - apply okE_bind. eapply okE_mono; [apply Hf; lia|]. intros b Hb.
    apply okE_bind. eapply okE_mono; [apply IH; intros i Hi; apply Hf; lia|].
    intros bs [Hlen Hbs]. simpl. split; [by rewrite Hlen|].
    intros [|k] b' Hk; simpl in Hk.
    + injection Hk as <-. by rewrite Nat.add_0_r.
    + replace (a + S k) with (S a + k) by lia. by apply Hbs.
Qed.

Lemma fmap_eq_of_lookup {A B} (f : A → B) (xs : list A) (ys : list B) :
  length xs = length ys →
  (∀ k x, xs !! k = Some x → ys !! k = Some (f x)) →
  map f xs = ys.
Proof.
  intros Hlen Hl. apply list_eq. intros k.
  change (map f xs) with (f <$> xs). rewrite list_lookup_fmap.
  destruct (xs !! k) as [x|] eqn:Hx; simpl.
  - symmetry. by apply Hl.
  - symmetry. apply lookup_ge_None. rewrite <- Hlen. by apply lookup_ge_None.
Qed.

Lemma lookup_map_Some {A B} (f : A → B) (xs : list A) k x :
  xs !! k = Some x → map f xs !! k = Some (f x).
Proof.
  intros Hx. change (map f xs) with (f <$> xs). by rewrite list_lookup_fmap, Hx.
Qed.

Lemma lookup_map_inv {A B} (f : A → B) (xs : list A) k y :
  map f xs !! k = Some y → ∃ x, xs !! k = Some x ∧ y = f x.
Proof.
  change (map f xs) with (f <$> xs). rewrite list_lookup_fmap.
  destruct (xs !! k) as [x|]; simpl; [|done]. intros [= <-]. eauto.
Qed.

Lemma sumZ_flags_count plans :
  Forall (λ p, is_flag (is_target p)) plans →
  sumZ (map is_target plans) = target_count plans.
Proof.
  unfold target_count. induction 1 as [|p plans Hp _ IH]; simpl; [done|].
  rewrite filter_cons. rewrite IH. destruct Hp as [Hp|Hp]; rewrite Hp.
  - rewrite decide_False; [lia | done].
  - rewrite decide_True; [|done]. simpl. lia.
Qed.

Lemma target_run_flag_run plans i len :
  target_run plans i len → flag_run (map is_target plans) i len.
Proof.
  intros Hrun j Hj. destruct (Hrun j Hj) as (p & Hp & Hp1).
  rewrite <- Hp1. by apply lookup_map_Some.
Qed.

Lemma lure_lists_ok_plans nb plans i dist p :
  plans !! i = Some p →
  lure_lists_ok nb (map stimulus plans) i dist →
  (∃ q, plans !! (i - dist) = Some q ∧ stimulus p = stimulus q) ∧
  (nb ≤ i → ∃ q, plans !! (i - nb) = Some q ∧ stimulus p ≠ stimulus q).
Proof.
  intros Hp [(a & Ha & Hb) Hn].
  apply lookup_map_inv in Ha as (p' & Hp' & ->).
  assert (p' = p) as -> by congruence.
  apply lookup_map_inv in Hb as (q & Hq & Heq).
  split; [eauto|]. intros Hi.
  destruct (Hn Hi) as (a & c & Ha & Hc & Hne).
  apply lookup_map_inv in Ha as (p' & Hp'' & ->).
  assert (p' = p) as -> by congruence.
  apply lookup_map_inv in Hc as (q' & Hq' & ->). eauto.
Qed.

Lemma validated_primary_ok cfg plans :
  length plans = n_trials cfg →
  well_formed plans →
  validated (n_back cfg) (target_rate cfg) (max_consec_targets cfg)
    (map stimulus plans) (map is_target plans) (map lure_type plans) →
  primary_ok cfg plans.
Proof.
  intros Hlen Hwf (Hearly & Hcount & Hlure & Hrun).
  rewrite length_map in *. rewrite Hlen in *.
  assert (Forall (λ p, is_flag (is_target p)) plans) as Hflags.
  { eapply Forall_impl; [exact Hwf|]. by intros p (_ & Hp & _). }
  split_and!; try done.
  - intros i p Hp Hi Hp1. apply (Hearly i).
    + apply lookup_lt_Some in Hp. lia.
    + rewrite <- Hp1. by apply lookup_map_Some.
  - rewrite <- sumZ_flags_count by done. apply Hcount.
  - rewrite <- sumZ_flags_count by done. apply Hcount.
  - intros i Hr. apply (Hrun i). by apply target_run_flag_run.
  - intros i p Hp.
    assert (i < n_trials cfg) as Hi by (apply lookup_lt_Some in Hp; lia).
    destruct (Hlure i (lure_type p) Hi (lookup_map_Some _ _ _ _ Hp)) as [H1 H2].
    split; intros Hlt.
    + destruct (H1 Hlt) as (? & ? & Hok).
      destruct (lure_lists_ok_plans _ _ _ _ _ Hp Hok). by split_and!.
    + destruct (H2 Hlt) as (? & Hok).
      destruct (lure_lists_ok_plans _ _ _ _ _ Hp Hok). by split_and!.
Qed.

Lemma okE_build_plans cfg st :
  attempt_inv (n_trials cfg) st →
  okE (build_plans cfg st) (λ plans,
    length plans = n_trials cfg ∧ well_formed plans ∧
    map stimulus plans = a_seq st ∧ map is_target plans = a_flags st ∧
    map lure_type plans = a_lures st).
Proof.
  intros (Hs & Hf & Hl & HS & HF & HL). unfold build_plans.
  eapply okE_mono.
  { apply okE_mapE_seq with (P := λ i p,
      a_seq st !! i = Some (stimulus p) ∧ a_flags st !! i = Some (is_target p) ∧
      a_lures st !! i = Some (lure_type p)).
    intros i Hi.
    apply okE_bind, okE_getitem_lt; [lia|]. intros s Hs'.
    apply okE_bind, okE_getitem_lt; [lia|]. intros f Hf'.
    apply okE_bind, okE_getitem_lt; [lia|]. intros l Hl'. by simpl. }
  intros plans [Hlen Hp]. simpl in Hp.
  assert (map stimulus plans = a_seq st) as E1.
  { apply fmap_eq_of_lookup; [lia|]. intros k p Hk. by apply Hp. }
  assert (map is_target plans = a_flags st) as E2.
  { apply fmap_eq_of_lookup; [lia|]. intros k p Hk. by apply Hp. }
  assert (map lure_type plans = a_lures st) as E3.
  { apply fmap_eq_of_lookup; [lia|]. intros k p Hk. by apply Hp. }
  split_and!; try done.
  apply Forall_lookup. intros k p Hk. destruct (Hp k p Hk) as (H1 & H2 & H3).
  split_and!.
  - by eapply Forall_lookup_1 in HS.
  - by eapply Forall_lookup_1 in HF.
  - by eapply Forall_lookup_1 in HL.
Qed.

Section PrimaryFacts.
Context {R : Type} `{RandomLaws R}.

Lemma wp_sample_attempts n positions desired limit (g : R) :
  wp (sample_attempts n positions desired limit) g (λ _ _, True).
Proof.
  revert positions g. induction n as [|n IH]; intros positions g; simpl; [done|].
  apply wp_bind, wp_shuffle. intros positions' g' _.
  case_decide; [done | apply IH].
Qed.

Lemma wp_primary_attempt cfg (g : R) :
  1 ≤ n_back cfg →
  wp (primary_attempt cfg) g (λ r _, ∀ plans, r = Some plans → primary_ok cfg plans).
Proof.
  intros Hnb. unfold primary_attempt. apply wp_bind.
  eapply wp_mono with (P := λ _ _, True).
  { unfold _sample_target_indices. case_decide; [done | apply wp_sample_attempts]. }
  intros [idxs|] g1 _; [|by apply wp_ret].
  apply wp_bind. eapply wp_mono.
  { apply (wp_fill_loop cfg _ (n_trials cfg) 0); [done|].
    unfold attempt_inv; simpl. by split_and!. }
  intros st g2 Hinv. simpl in Hinv.
  apply wp_bind, wp_lift.
  destruct (validate_sequence _ _ _ _ _ _) as [[ok why]|e] eqn:Hv; simpl.
  - destruct ok; [|by apply wp_ret].
    apply wp_bind, wp_lift. eapply okE_mono; [by apply okE_build_plans|].
    intros plans (Hlen & Hwf & E1 & E2 & E3). apply wp_ret.
    intros ? [= <-]. apply validated_primary_ok; [done..|].
    rewrite E1, E2, E3. by eapply validate_sequence_sound.
  - destruct Hinv as (Hs & Hf & Hl & _).
    pose proof (validate_sequence_total (a_seq st) (a_flags st) (a_lures st)
                  (n_back cfg) (target_rate cfg) (max_consec_targets cfg)) as Ht.
    rewrite Hv in Ht. apply Ht; congruence.
Qed.

Lemma wp_primary_loop cfg n (g : R) :
  1 ≤ n_back cfg →
  wp (primary_loop cfg n) g (λ r _, ∀ plans, r = Some plans → primary_ok cfg plans).
Proof.
  intros Hnb. revert g. induction n as [|n IH]; intros g; simpl.
  - by apply wp_ret.
  - apply wp_bind. eapply wp_mono; [by apply wp_primary_attempt|].
    intros [plans|] g' Hp; [by apply wp_ret | apply IH].
Qed.
End PrimaryFacts.

(** ** The fallback *)

Lemma sumZ_insert (l : list Z) i old v :
  l !! i = Some old → sumZ (<[i:=v]> l) = (sumZ l - old + v)%Z.
Proof.
  revert i. induction l as [|x l IH]; intros [|i] Hi; simpl in *; try done.
  - injection Hi as ->. lia.
  - rewrite (IH i Hi). lia.
Qed.

Lemma okE_neighbour_runs flags nt i (Q : Z → Prop) :
  length flags = nt → i < nt →
  (∀ r, (0 ≤ r)%Z →
        (r = 0%Z → (1 ≤ i → flags !! (i - 1) ≠ Some 1%Z) ∧
                   flags !! (i + 1) ≠ Some 1%Z) → Q r) →
  okE (neighbour_runs flags nt i) Q.
Proof.
  intros Hlen Hi HQ. unfold neighbour_runs.
  apply okE_bind.
  eapply okE_mono with (P := λ l, (0 ≤ l)%Z ∧
    (l = 0%Z → 1 ≤ i → flags !! (i - 1) ≠ Some 1%Z)).
  { case_decide as H1; [|simpl; split; [done | lia]].
    apply okE_bind, okE_getitem_lt; [lia|]. intros f Hf. simpl.
    case_decide; split; try lia. intros _ _. congruence. }
  intros l [Hl0 Hl]. apply okE_bind.
  eapply okE_mono with (P := λ r, (0 ≤ r)%Z ∧
    (r = 0%Z → flags !! (i + 1) ≠ Some 1%Z)).
  { case_decide as H1.
    - apply okE_bind, okE_getitem_lt; [lia|]. intros f Hf. simpl.
      case_decide; split; try lia. intros _. congruence.
    - simpl. split; [done|]. intros _.
      rewrite (proj2 (lookup_ge_None flags (i + 1))); [done | lia]. }
  intros r [Hr0 Hr]. simpl. apply HQ; [lia|]. intros Hz.
  split; [apply Hl | apply Hr]; lia.
Qed.

Lemma flags_inv_set cfg flags i :
  flags_inv cfg flags → eligible cfg i →
  (max_consec_targets cfg = 1%Z →
     (1 ≤ i → flags !! (i - 1) ≠ Some 1%Z) ∧ flags !! (i + 1) ≠ Some 1%Z) →
  flags_inv cfg (<[i:=1%Z]> flags) ∧
  (sumZ (<[i:=1%Z]> flags) ≤ sumZ flags + 1)%Z.
Proof.
  intros (Hlen & Hall & Hlow & Hadj) [Hi1 Hi2] Hnb.
  destruct (lookup_lt_is_Some_2 flags i) as [old Hold]; [lia|].
  assert (is_flag old) as Hfo by (by eapply Forall_lookup_1 in Hall).
  split.
  - split_and!.
    + by rewrite length_insert.
    + apply Forall_insert; [done | by right].
    + intros j Hj. destruct (decide (j = i)) as [->|Hne]; [done|].
      rewrite list_lookup_insert_ne in Hj by done. by apply Hlow.
    + intros Hmc j Hj Hj'. destruct (Hnb Hmc) as [Hl Hr].
      destruct (decide (j = i)) as [->|Hne].
      * rewrite list_lookup_insert_ne in Hj' by lia.
        apply Hr. by replace (i + 1) with (S i) by lia.
      * rewrite list_lookup_insert_ne in Hj by done.
        destruct (decide (S j = i)) as [<-|Hne'].
        -- apply Hl; [lia|]. by replace (S j - 1) with j by lia.
        -- rewrite list_lookup_insert_ne in Hj' by done. by apply (Hadj Hmc j).
  - rewrite (sumZ_insert _ _ _ _ Hold). destruct Hfo; lia.
Qed.

Lemma okE_scatter_targets cfg cands flags :
  flags_inv cfg flags → Forall (eligible cfg) cands →
  (sumZ flags ≤ 0 `max` desired_targets cfg)%Z →
  okE (scatter_targets cands flags (n_trials cfg) (desired_targets cfg)
         (max_consec_targets cfg))
      (λ flags', flags_inv cfg flags' ∧
                 (sumZ flags' ≤ 0 `max` desired_targets cfg)%Z).
Proof.
  intros Hinv Hc. revert flags Hinv.
  induction Hc as [|i cands Hi _ IH]; intros flags Hinv Hsum; simpl; [done|].
  case_decide as Hd; [done|]. case_decide as Hmc; [by apply IH|].
  apply okE_bind, okE_neighbour_runs; [apply Hinv | apply Hi|].
  intros r Hr0 Hr. case_decide as Hle; [by apply IH|].
  apply okE_bind, okE_setitem.
  { destruct Hinv as [-> _]. apply Hi. }
  destruct (flags_inv_set cfg flags i Hinv Hi) as [Hinv' Hsum'].
  { intros Hmc1. apply Hr. lia. }
  apply IH; [done | lia].
Qed.

Lemma okE_final_pass cfg pool flags needed :
  flags_inv cfg flags → Forall (eligible cfg) pool →
  okE (final_pass pool flags (n_trials cfg) needed)
      (λ flags', flags_inv cfg flags' ∧
                 (sumZ flags' ≤ sumZ flags + 0 `max` needed)%Z).
Proof.
  intros Hinv Hp. revert flags needed Hinv.
  induction Hp as [|i pool Hi _ IH]; intros flags needed Hinv; simpl.
  { split; [done | lia]. }
  case_decide as Hn; [split; [done | lia]|].
  apply okE_bind, okE_neighbour_runs; [apply Hinv | apply Hi|].
  intros r Hr0 Hr. case_decide as Hz.
  - apply okE_bind, okE_setitem.
    { destruct Hinv as [-> _]. apply Hi. }
    destruct (flags_inv_set cfg flags i Hinv Hi) as [Hinv' Hsum'].
    { intros _. by apply Hr. }
    eapply okE_mono; [by apply IH|]. intros flags' [? ?]. split; [done | lia].
  - eapply okE_mono; [by apply IH|]. intros flags' [? ?]. split; [done | lia].
Qed.

Lemma okE_filterE_sub {A} (f : A → result bool) (P : A → Prop) l :
  Forall P l → (∀ a, P a → okE (f a) (λ _, True)) →
  okE (filterE f l) (Forall P).
Proof.
  intros Hl Hf. induction Hl as [|a l Ha _ IH]; simpl; [done|].
  apply okE_bind. eapply okE_mono; [by apply Hf|]. intros b _.
  apply okE_bind. eapply okE_mono; [exact IH|]. intros r Hr. simpl.
  destruct b; [by constructor | done].
Qed.

Lemma eligible_seq cfg :
  Forall (eligible cfg) (seq (n_back cfg) (n_trials cfg - n_back cfg)).
Proof. apply Forall_forall. intros i Hi%elem_of_seq. unfold eligible. lia. Qed.

Lemma flags_inv_zero cfg : flags_inv cfg (replicate (n_trials cfg) 0%Z).
Proof.
  split_and!.
  - by rewrite length_replicate.
  - apply Forall_replicate. by left.
  - intros i Hi. by apply lookup_replicate in Hi as [? _].
  - intros _ i Hi. by apply lookup_replicate in Hi as [? _].
Qed.

Lemma sumZ_replicate_zero n : sumZ (replicate n 0%Z) = 0%Z.
Proof. induction n; simpl; [done | by rewrite IHn]. Qed.

Section FallbackFacts.
Context {R : Type} `{RandomLaws R}.

Lemma wp_scatter_rounds cfg budget cands flags (g : R) :
  flags_inv cfg flags → Forall (eligible cfg) cands →
  (sumZ flags ≤ 0 `max` desired_targets cfg)%Z →
  wp (scatter_rounds budget cands flags (n_trials cfg) (desired_targets cfg)
        (max_consec_targets cfg)) g
     (λ flags' _, flags_inv cfg flags' ∧
                  (sumZ flags' ≤ 0 `max` desired_targets cfg)%Z).
Proof.
  revert cands flags g.
  induction budget as [|budget IH]; intros cands flags g Hinv Hc Hsum; simpl.
  { by apply wp_ret. }
  case_decide; [|by apply wp_ret].
  apply wp_bind, wp_shuffle. intros cands' g1 Hperm.
  assert (Forall (eligible cfg) cands') as Hc' by (by rewrite Hperm).
  apply wp_bind, wp_lift.
  eapply okE_mono; [by apply okE_scatter_targets|].
  intros flags' [Hinv' Hsum']. by apply IH.
Qed.

Lemma wp_fallback_flags cfg (g : R) :
  wp (fallback_flags cfg) g
     (λ flags _, flags_inv cfg flags ∧
                 (sumZ flags ≤ 0 `max` desired_targets cfg)%Z).
Proof.
  unfold fallback_flags. apply wp_bind.
  eapply wp_mono.
  { apply wp_scatter_rounds;
      [apply flags_inv_zero | apply eligible_seq |].
    rewrite sumZ_replicate_zero. lia. }
  intros flags g1 [Hinv Hsum]. simpl.
  case_decide as Hshort; [|by apply wp_ret].
  case_decide as Hneed; [|by apply wp_ret].
  apply wp_bind, wp_lift.
  eapply okE_mono.
  { apply okE_filterE_sub with (P := eligible cfg); [apply eligible_seq|].
    intros i [_ Hi]. apply okE_bind, okE_getitem_lt; [|done].
    destruct Hinv as [-> _]. done. }
  intros pool Hpool. apply wp_bind, wp_shuffle. intros pool' g2 Hperm.
  apply wp_lift. eapply okE_mono.
  { apply okE_final_pass; [done | by rewrite Hperm]. }
  intros flags' [Hinv' Hsum']. split; [done | lia].
Qed.

Lemma wp_fallback_letter cfg flags i sq (g : R) :
  1 ≤ n_back cfg → length flags = n_trials cfg → i < n_trials cfg →
  length sq = i → Forall (λ c, c ∈ LETTERS) sq →
  wp (fallback_letter cfg flags i sq) g (λ c _, c ∈ LETTERS).
Proof.
  intros Hnb Hlen Hi Hsq Hall. unfold fallback_letter.
  apply wp_bind, wp_lift, okE_getitem_lt; [lia|]. intros f _.
  case_decide as Hc.
  { apply wp_lift, okE_getitem_lt; [lia|]. intros a Ha.
    by eapply Forall_lookup_1 in Hall. }
  apply wp_bind, wp_lift.
  eapply okE_mono with (P := λ cs, cs ⊆ LETTERS).
  { case_decide; [|simpl; reflexivity].
    apply okE_bind, okE_getitem_lt; [lia|]. intros a _. simpl.
    by apply filter_sub_LETTERS. }
  intros cs Hcs. apply wp_bind, wp_lift.
  eapply okE_mono with (P := λ cs', cs' ⊆ LETTERS).
  { case_decide; [|done]. apply okE_filter_ne_item; [lia|].
    intros cs' Hcs'. by etrans. }
  intros [|c cs'] Hcs'.
  - apply wp_lift, okE_getitem_lt; [vm_compute; lia|].
    intros a Ha. by eapply list_elem_of_lookup_2.
  - apply wp_choice; [done|]. intros a g' Ha. by apply Hcs'.
Qed.

Lemma wp_fallback_letters cfg flags n i sq lures (g : R) :
  1 ≤ n_back cfg → length flags = n_trials cfg → i + n ≤ n_trials cfg →
  length sq = i → length lures = i →
  Forall (λ c, c ∈ LETTERS) sq → Forall (λ l, l = "none"%string) lures →
  wp (fallback_letters cfg flags (seq i n) sq lures) g
     (λ r _, length r.1 = i + n ∧ length r.2 = i + n ∧
             Forall (λ c, c ∈ LETTERS) r.1 ∧
             Forall (λ l, l = "none"%string) r.2).
Proof.
  intros Hnb Hlen. revert i sq lures g.
  induction n as [|n IH]; intros i sq lures g Hin Hsq Hlu Hall Hnone; simpl.
  { apply wp_ret. simpl. split_and!; try done; lia. }
  apply wp_bind. eapply wp_mono; [apply wp_fallback_letter; try done; lia|].
  intros c g' Hc. eapply wp_mono.
  { apply IH; [lia | rewrite length_app; simpl; lia
              | rewrite length_app; simpl; lia | |].
    - apply Forall_app. by split; [|constructor].
    - apply Forall_app. by split; [|constructor]. }
  intros [sq' lures'] g'' (? & ? & ? & ?). simpl in *. split_and!; try done; lia.
Qed.

Lemma wp_fallback cfg (g : R) :
  1 ≤ n_back cfg → wp (fallback cfg) g (λ plans _, fallback_ok cfg plans).
Proof.
  intros Hnb. unfold fallback. apply wp_bind.
  eapply wp_mono; [apply wp_fallback_flags|].
  intros flags g1 [(Hlen & Hflag & Hlow & Hadj) Hsum].
  apply wp_bind. eapply wp_mono.
  { apply (wp_fallback_letters cfg flags (n_trials cfg) 0 [] []); try done. }
  intros [sq lures] g2 (Hsq & Hlu & Hall & Hnone). simpl in *.
  apply wp_lift. eapply okE_mono.
  { apply okE_mapE_seq with (P := λ i p,
      sq !! i = Some (stimulus p) ∧ flags !! i = Some (is_target p) ∧
      lures !! i = Some (lure_type p)).
    intros i Hi.
    apply okE_bind, okE_getitem_lt; [lia|]. intros s Hs'.
    apply okE_bind, okE_getitem_lt; [lia|]. intros f Hf'.
    apply okE_bind, okE_getitem_lt; [lia|]. intros l Hl'. simpl.
    split_and!; [done| |done].
    assert (is_flag f) as [->| ->] by (by eapply Forall_lookup_1 in Hflag); done. }
  intros plans [Hplen Hp]. simpl in Hp.
  assert (map is_target plans = flags) as E2.
  { apply fmap_eq_of_lookup; [lia|]. intros k p Hk. by apply Hp. }
  assert (well_formed plans) as Hwf.
  { apply Forall_lookup. intros k p Hk. destruct (Hp k p Hk) as (H1 & H2 & H3).
    split_and!.
    - by eapply Forall_lookup_1 in Hall.
    - by eapply Forall_lookup_1 in Hflag.
    - eapply Forall_lookup_1 in Hnone; [|done]. rewrite Hnone. left. }
  split_and!; try done.
  - intros i p Hi Hlt Hp1. destruct (Hp i p Hi) as (_ & Hf & _).
    rewrite Hp1 in Hf. apply Hlow in Hf. lia.
  - rewrite <- sumZ_flags_count, E2; [done|].
    eapply Forall_impl; [exact Hwf|]. by intros p (_ & ? & _).
  - intros Hmc i Hrun. apply target_run_flag_run in Hrun. rewrite E2 in Hrun.
    apply (Hadj Hmc i).
    + rewrite <- (Hrun 0); [by rewrite Nat.add_0_r | lia].
    + rewrite <- (Hrun 1); [by rewrite Nat.add_1_r | lia].
  - apply Forall_lookup. intros k p Hk. destruct (Hp k p Hk) as (_ & _ & H3).
    by eapply Forall_lookup_1 in Hnone.
Qed.

(** The two ways [generate_sequence] returns. *)
Lemma generate_sequence_paths cfg (g g' : R) plans :
  generate_sequence cfg g = Ok (plans, g') →
  primary_loop cfg (Z.to_nat (max_attempts cfg)) g = Ok (Some plans, g') ∨
  ∃ g1, primary_loop cfg (Z.to_nat (max_attempts cfg)) g = Ok (None, g1) ∧
        fallback cfg g1 = Ok (plans, g').
Proof.
  unfold generate_sequence. intros Hg.
  apply bind_inv in Hg as ([p|] & g1 & Hloop & Hrest).
  - left. unfold ret in Hrest. by injection Hrest as -> ->.
  - right. eauto.
Qed.

Lemma wp_generate_sequence cfg (g : R) :
  1 ≤ n_back cfg →
  wp (generate_sequence cfg) g
     (λ plans _, primary_ok cfg plans ∨ fallback_ok cfg plans).
Proof.
  intros Hnb. unfold generate_sequence. apply wp_bind.
  eapply wp_mono; [by apply wp_primary_loop|].
  intros [plans|] g1 Hp.
  - apply wp_ret. left. by apply Hp.
  - eapply wp_mono; [by apply wp_fallback|]. intros plans g2 ?. by right.
Qed.

Lemma generate_sequence_ok cfg (g g' : R) plans :
  1 ≤ n_back cfg → generate_sequence cfg g = Ok (plans, g') →
  primary_ok cfg plans ∨ fallback_ok cfg plans.
Proof.
  intros Hnb Hg. by apply (wp_elim _ _ _ _ _ (wp_generate_sequence cfg g Hnb) Hg).
Qed.
End FallbackFacts.

(** ** The claims about [generate_sequence] *)

Lemma Qfloor_nonneg q : (0 <= q)%Q → (0 ≤ Qfloor q)%Z.
Proof. intros Hq. change 0%Z with (Qfloor 0). by apply Qfloor_resp_le. Qed.

Lemma py_round_nonneg q : (0 <= q)%Q → (0 ≤ py_round q)%Z.
Proof.
  intros Hq. pose proof (Qfloor_nonneg q Hq). unfold py_round.
  destruct (_ ?= _)%Q; [destruct (Z.even _)|..]; lia.
Qed.

Lemma desired_targets_nonneg cfg :
  (0 <= target_rate cfg)%Q → (0 ≤ desired_targets cfg)%Z.
Proof.
  intros Hr. apply py_round_nonneg. apply Qmult_le_0_compat; [done|].
  change 0%Q with (inject_Z 0). rewrite <- Zle_Qle. lia.
Qed.

Section Claims.
Context {R : Type} `{RandomLaws R}.

(** C1 (the code breaks it): with every keyword at its default,
    [generate_sequence(2, 3)] under the draws 0.5, 0.02, 0.7 returns a plan
    at position 2 flagged [is_target = 1] whose stimulus "T" differs from
    the stimulus "M" two positions back: the final run-limit adjustment
    replaces the letter of a target without clearing its flag. *)
Theorem target_flag_without_match :
  generate_sequence (default_config 2 3) demo_tape
    = Ok (demo_plans, {| floats := []; ints := [] |}) ∧
  (∃ p q, demo_plans !! 2 = Some p ∧ demo_plans !! 0 = Some q ∧
          is_target p = 1%Z ∧ stimulus p ≠ stimulus q).
Proof.
  split; [by vm_compute|].
  exists (plan "T" 1 "none"), (plan "M" 0 "none"). by split_and!.
Qed.

(** C2, amended: under a non-negative target rate the number of plans
    flagged as targets never exceeds round(target_rate * n_trials) + 1, and
    it is at least round(target_rate * n_trials) - 1 whenever the list is
    returned by the primary loop. *)
Theorem target_count_bounds cfg (g g' : R) plans :
  1 ≤ n_back cfg → (0 <= target_rate cfg)%Q →
  generate_sequence cfg g = Ok (plans, g') →
  (target_count plans ≤ desired_targets cfg + 1)%Z ∧
  (primary_loop cfg (Z.to_nat (max_attempts cfg)) g = Ok (Some plans, g') →
   (desired_targets cfg - 1 ≤ target_count plans)%Z).
Proof.
  intros Hnb Hrate Hg.
  pose proof (desired_targets_nonneg cfg Hrate) as Hd. split.
  - destruct (generate_sequence_ok cfg g g' plans Hnb Hg)
      as [(_ & _ & _ & Hc & _)|(_ & _ & _ & Hc & _)]; lia.
  - intros Hloop.
    pose proof (wp_elim _ _ _ _ _ (wp_primary_loop cfg _ g Hnb) Hloop plans eq_refl)
      as (_ & _ & _ & Hc & _). lia.
Qed.

(** C3, amended: a list returned by the primary loop has no run of
    consecutive targets longer than max_consec_targets; a list returned by
    either path has no two adjacent targets when max_consec_targets is 1. *)
Theorem consecutive_targets_bounded cfg (g g' : R) plans :
  1 ≤ n_back cfg →
  generate_sequence cfg g = Ok (plans, g') →
  (primary_loop cfg (Z.to_nat (max_attempts cfg)) g = Ok (Some plans, g') →
   runs_within plans (Z.to_nat (max_consec_targets cfg))) ∧
  (max_consec_targets cfg = 1%Z → runs_within plans 1).
Proof.
  intros Hnb Hg. split.
  - intros Hloop.
    by pose proof (wp_elim _ _ _ _ _ (wp_primary_loop cfg _ g Hnb) Hloop plans eq_refl)
      as (_ & _ & _ & _ & Hr & _).
  - intros Hmc.
    destruct (generate_sequence_ok cfg g g' plans Hnb Hg)
      as [(_ & _ & _ & _ & Hr & _)|(_ & _ & _ & _ & Hr & _)].
    + by rewrite Hmc in Hr.
    + by apply Hr.
Qed.

(** C4: no plan at a position below n_back is flagged as a target, on
    either path. *)
Theorem no_target_before_n_back cfg (g g' : R) plans :
  1 ≤ n_back cfg →
  generate_sequence cfg g = Ok (plans, g') →
  ∀ i p, plans !! i = Some p → i < n_back cfg → is_target p ≠ 1%Z.
Proof.
  intros Hnb Hg.
  by destruct (generate_sequence_ok cfg g g' plans Hnb Hg)
    as [(_ & _ & Hc & _)|(_ & _ & Hc & _)].
Qed.

(** C5: every plan with lure type "n-1" sits at a position i >= N-1 with
    N > 1, repeats the stimulus N-1 positions back and, when i >= N, differs
    from the stimulus N positions back; every plan with lure type "n+1" sits
    at i >= N+1, repeats the stimulus N+1 positions back and differs from
    the stimulus N positions back. *)
Theorem lures_are_valid cfg (g g' : R) plans :
  1 ≤ n_back cfg →
  generate_sequence cfg g = Ok (plans, g') →
  ∀ i p, plans !! i = Some p → lure_ok (n_back cfg) plans i p.
Proof.
  intros Hnb Hg i p Hp.
  destruct (generate_sequence_ok cfg g g' plans Hnb Hg)
    as [(_ & _ & _ & _ & _ & Hl)|(_ & _ & _ & _ & _ & Hnone)]; [by apply Hl|].
  eapply Forall_lookup_1 in Hnone; [|done].
  split; intros Hlt; by rewrite Hnone in Hlt.
Qed.

(** C6: for n_back >= 1 [generate_sequence] raises nothing and returns
    exactly n_trials plans; with max_attempts = 0 (or below) the call is the
    fallback alone. *)
Theorem generate_sequence_total cfg (g : R) :
  1 ≤ n_back cfg →
  (∃ plans g', generate_sequence cfg g = Ok (plans, g') ∧
               length plans = n_trials cfg) ∧
  ((max_attempts cfg ≤ 0)%Z → generate_sequence cfg g = fallback cfg g).
Proof.
  intros Hnb. split.
  - destruct (wp_inv _ _ _ (wp_generate_sequence cfg g Hnb))
      as (plans & g' & Hg & [(Hlen & _)|(Hlen & _)]); eauto.
  - intros Hma. unfold generate_sequence.
    replace (Z.to_nat (max_attempts cfg)) with 0 by lia. done.
Qed.

(** C10: every returned plan has a stimulus among the 23 letters of A-Z
    without I, O and Q, a lure type among "none", "n-1", "n+1", and a
    target flag 0 or 1. *)
Theorem plans_well_formed cfg (g g' : R) plans :
  1 ≤ n_back cfg →
  generate_sequence cfg g = Ok (plans, g') →
  LETTERS = ["A"; "B"; "C"; "D"; "E"; "F"; "G"; "H"; "J"; "K"; "L"; "M";
             "N"; "P"; "R"; "S"; "T"; "U"; "V"; "W"; "X"; "Y"; "Z"]%string ∧
  ∀ p, p ∈ plans →
    stimulus p ∈ LETTERS ∧
    lure_type p ∈ ["none"; "n-1"; "n+1"]%string ∧
    (is_target p = 0%Z ∨ is_target p = 1%Z).
Proof.
  intros Hnb Hg. split; [by vm_compute|]. intros p Hp.
  assert (well_formed plans) as Hwf.
  { by destruct (generate_sequence_ok cfg g g' plans Hnb Hg)
      as [(_ & Hwf & _)|(_ & Hwf & _)]. }
  eapply Forall_forall in Hwf; [|done]. destruct Hwf as (? & ? & ?).
  by split_and!.
Qed.
End Claims.

(** ** The claims at concrete runs *)

Lemma target_count_bounds_witness :
  (target_count demo_plans ≤ desired_targets (default_config 2 3) + 1)%Z ∧
  (primary_loop (default_config 2 3) (Z.to_nat (max_attempts (default_config 2 3)))
     demo_tape = Ok (Some demo_plans, zero_tape) →
   (desired_targets (default_config 2 3) - 1 ≤ target_count demo_plans)%Z).
Proof.
  apply (target_count_bounds (default_config 2 3) demo_tape zero_tape demo_plans);
    [simpl; lia | by vm_compute | by vm_compute].
Defined.

(** C2 as stated fails: level 1, three trials, target rate 1.0. Only
    positions 1 and 2 are eligible and they are adjacent, so the fallback
    places one target where three are desired. *)
Lemma fallback_undershoots :
  config_in_domain (crowded_config 3 1) ∧
  generate_sequence (crowded_config 3 1) zero_tape
    = Ok ([plan "A" 0 "none"; plan "B" 0 "none"; plan "B" 1 "none"], zero_tape) ∧
  desired_targets (crowded_config 3 1) = 3%Z ∧
  ¬ (desired_targets (crowded_config 3 1) - 1
       ≤ target_count [plan "A" 0 "none"; plan "B" 0 "none"; plan "B" 1 "none"])%Z.
Proof.
  split_and!.
  - unfold config_in_domain; simpl. split_and!; by vm_compute.
  - by vm_compute.
  - by vm_compute.
  - by vm_compute.
Qed.

Lemma consecutive_targets_bounded_witness :
  (primary_loop (default_config 2 3) (Z.to_nat (max_attempts (default_config 2 3)))
     demo_tape = Ok (Some demo_plans, zero_tape) →
   runs_within demo_plans (Z.to_nat (max_consec_targets (default_config 2 3)))) ∧
  (max_consec_targets (default_config 2 3) = 1%Z → runs_within demo_plans 1).
Proof.
  apply (consecutive_targets_bounded (default_config 2 3) demo_tape zero_tape demo_plans);
    [simpl; lia | by vm_compute].
Defined.

(** C3 as stated fails: level 1, four trials, target rate 1.0 and a limit of
    two consecutive targets. The fallback checks only the two neighbours of a
    position and flags positions 1, 2 and 3. *)
Lemma fallback_exceeds_run_limit :
  config_in_domain (crowded_config 4 2) ∧
  generate_sequence (crowded_config 4 2) zero_tape
    = Ok ([plan "A" 0 "none"; plan "A" 1 "none"; plan "A" 1 "none";
           plan "A" 1 "none"], zero_tape) ∧
  ¬ runs_within [plan "A" 0 "none"; plan "A" 1 "none"; plan "A" 1 "none";
                 plan "A" 1 "none"]
      (Z.to_nat (max_consec_targets (crowded_config 4 2))).
Proof.
  split_and!.
  - unfold config_in_domain; simpl. split_and!; by vm_compute.
  - by vm_compute.
  - intros Hr. apply (Hr 1). intros j Hj.
    destruct j as [|[|[|j]]]; simpl; [eauto..|].
    simpl in Hj. lia.
Qed.

Lemma no_target_before_n_back_witness :
  demo_plans !! 1 = Some (plan "M" 0 "n-1") ∧ is_target (plan "M" 0 "n-1") ≠ 1%Z.
Proof.
  split; [done|].
  apply (no_target_before_n_back (default_config 2 3) demo_tape zero_tape demo_plans)
    with (i := 1); [simpl; lia | by vm_compute | done | simpl; lia].
Defined.

Lemma lures_are_valid_witness :
  lure_ok 2 demo_plans 1 (plan "M" 0 "n-1").
Proof.
  apply (lures_are_valid (default_config 2 3) demo_tape zero_tape demo_plans);
    [simpl; lia | by vm_compute | done].
Defined.

Lemma generate_sequence_total_witness :
  (∃ plans g', generate_sequence (crowded_config 3 1) zero_tape = Ok (plans, g') ∧
               length plans = 3) ∧
  ((max_attempts (crowded_config 3 1) ≤ 0)%Z →
   generate_sequence (crowded_config 3 1) zero_tape
     = fallback (crowded_config 3 1) zero_tape).
Proof.
  apply (generate_sequence_total (crowded_config 3 1) zero_tape). simpl. lia.
Defined.

Lemma plans_well_formed_witness :
  LETTERS = ["A"; "B"; "C"; "D"; "E"; "F"; "G"; "H"; "J"; "K"; "L"; "M";
             "N"; "P"; "R"; "S"; "T"; "U"; "V"; "W"; "X"; "Y"; "Z"]%string ∧
  ∀ p, p ∈ demo_plans →
    stimulus p ∈ LETTERS ∧
    lure_type p ∈ ["none"; "n-1"; "n+1"]%string ∧
    (is_target p = 0%Z ∨ is_target p = 1%Z).
Proof.
  apply (plans_well_formed (default_config 2 3) demo_tape zero_tape demo_plans);
    [simpl; lia | by vm_compute].
Defined.

(** ** The soft-balancing rule of the chooser *)






Section ChooserClaim.
Context {R : Type} `{RandomLaws R}.

End ChooserClaim.



(** ** Two random sources that give the same draws *)

Section Determinism.
Context {R1 R2 : Type} `{RandomSource R1} `{RandomSource R2}.
Variable same : R1 → R2 → Prop.
Hypothesis same_random : ∀ g1 g2, same g1 g2 →
  (random g1).1 = (random g2).1 ∧ same (random g1).2 (random g2).2.
Hypothesis same_randbelow : ∀ n g1 g2, same g1 g2 →
  (randbelow n g1).1 = (randbelow n g2).1 ∧
  same (randbelow n g1).2 (randbelow n g2).2.

Lemma sim_ret {A} (a : A) : sim same (ret a) (ret a).
Proof using Type. by intros g1 g2 Hg. Qed.

Lemma sim_lift {A} (r : result A) : sim same (lift r) (lift r).
Proof using Type. intros g1 g2 Hg. unfold lift. by destruct r. Qed.

Lemma sim_bind {A B} (m1 : M R1 A) (m2 : M R2 A) (k1 : A → M R1 B) (k2 : A → M R2 B) :
  sim same m1 m2 → (∀ a, sim same (k1 a) (k2 a)) → sim same (bind m1 k1) (bind m2 k2).
Proof using Type.
  intros Hm Hk g1 g2 Hg. unfold bind. specialize (Hm g1 g2 Hg).
  destruct (m1 g1) as [[a1 g1']|e1], (m2 g2) as [[a2 g2']|e2]; try done.
  destruct Hm as [<- Hg']. by apply Hk.
Qed.

Lemma sim_random : sim same random_random random_random.
Proof using same_random.
  intros g1 g2 Hg. unfold random_random.
  destruct (same_random g1 g2 Hg) as [Hv Hs].
  destruct (random g1), (random g2). by simpl in *.
Qed.

Lemma sim_rand_below n : sim same (rand_below n) (rand_below n).
Proof using same_randbelow.
  intros g1 g2 Hg. unfold rand_below.
  destruct (same_randbelow n g1 g2 Hg) as [Hv Hs].
  destruct (randbelow n g1), (randbelow n g2). by simpl in *.
Qed.

Ltac sim_step :=
  match goal with
  | |- sim same (bind _ _) (bind _ _) => apply sim_bind; [|intros ?]
  | |- sim same (ret _) (ret _) => apply sim_ret
  | |- sim same (lift _) (lift _) => apply sim_lift
  | |- sim same random_random random_random => apply sim_random
  | |- sim same (rand_below _) (rand_below _) => apply sim_rand_below
  | |- sim same (match ?x with _ => _ end) _ => destruct x
  end.

Lemma sim_shuffle_from {A} i (x : list A) : sim same (shuffle_from i x) (shuffle_from i x).
Proof using same_randbelow.
  revert x. induction i as [|i IH]; intros x; simpl; repeat sim_step. apply IH.
Qed.

Lemma sim_shuffle {A} (x : list A) : sim same (shuffle x) (shuffle x).
Proof using same_randbelow. apply sim_shuffle_from. Qed.

Lemma sim_choice {A} (xs : list A) : sim same (choice xs) (choice xs).
Proof using same_randbelow. unfold choice. repeat sim_step. Qed.

Lemma sim_choose_letter cands freq sb :
  sim same (_choose_letter cands freq sb) (_choose_letter cands freq sb).
Proof using same_random same_randbelow.
  unfold _choose_letter. destruct sb; [repeat sim_step | apply sim_choice].
Qed.

Lemma sim_sample_attempts n positions desired limit :
  sim same (sample_attempts n positions desired limit)
      (sample_attempts n positions desired limit).
Proof using same_randbelow.
  revert positions. induction n as [|n IH]; intros positions; simpl.
  - apply sim_ret.
  - apply sim_bind; [apply sim_shuffle|]. intros positions'.
    case_decide; [apply sim_ret | apply IH].
Qed.

Lemma sim_place_lure cfg sq i : sim same (place_lure cfg sq i) (place_lure cfg sq i).
Proof using same_random. unfold place_lure. repeat sim_step. Qed.

Lemma sim_filler_letter cfg sq freqs i :
  sim same (filler_letter cfg sq freqs i) (filler_letter cfg sq freqs i).
Proof using same_random same_randbelow.
  unfold filler_letter. apply sim_bind; [apply sim_lift|].
  intros cs. apply sim_choose_letter.
Qed.

Lemma sim_adjust_letter cfg sq freqs i letter :
  sim same (adjust_letter cfg sq freqs i letter) (adjust_letter cfg sq freqs i letter).
Proof using same_random same_randbelow.
  unfold adjust_letter. destruct (negb _); [|apply sim_ret].
  apply sim_bind; [apply sim_lift|]. intros cs. apply sim_choose_letter.
Qed.

Lemma sim_fill_step cfg ts i st : sim same (fill_step cfg ts i st) (fill_step cfg ts i st).
Proof using same_random same_randbelow.
  unfold fill_step. apply sim_bind.
  - case_decide.
    + apply sim_bind; [|intros ?; apply sim_ret].
      case_decide; [apply sim_lift | apply sim_choose_letter].
    + apply sim_bind; [apply sim_place_lure|]. intros [planned bound].
      apply sim_bind; [|intros ?; apply sim_ret].
      case_decide; [apply sim_filler_letter|]. repeat sim_step.
  - intros [[letter flag] planned].
    apply sim_bind; [apply sim_adjust_letter|]. intros ?. apply sim_ret.
Qed.

Lemma sim_fill_loop cfg ts idxs st :
  sim same (fill_loop cfg ts idxs st) (fill_loop cfg ts idxs st).
Proof using same_random same_randbelow.
  revert st. induction idxs as [|i idxs IH]; intros st; simpl.
  - apply sim_ret.
  - apply sim_bind; [apply sim_fill_step | apply IH].
Qed.

Lemma sim_primary_attempt cfg : sim same (primary_attempt cfg) (primary_attempt cfg).
Proof using same_random same_randbelow.
  unfold primary_attempt. apply sim_bind.
  - unfold _sample_target_indices.
    case_decide; [apply sim_ret | apply sim_sample_attempts].
  - intros [idxs|]; [|apply sim_ret].
    apply sim_bind; [apply sim_fill_loop|]. intros st.
    apply sim_bind; [apply sim_lift|]. intros [[|] why]; repeat sim_step.
Qed.

Lemma sim_primary_loop cfg n : sim same (primary_loop cfg n) (primary_loop cfg n).
Proof using same_random same_randbelow.
  induction n as [|n IH]; simpl; [apply sim_ret|].
  apply sim_bind; [apply sim_primary_attempt|].
  intros [plans|]; [apply sim_ret | apply IH].
Qed.

Lemma sim_scatter_rounds budget cands flags nt desired limit :
  sim same (scatter_rounds budget cands flags nt desired limit)
      (scatter_rounds budget cands flags nt desired limit).
Proof using same_randbelow.
  revert cands flags. induction budget as [|b IH]; intros cands flags; simpl.
  - apply sim_ret.
  - case_decide; [|apply sim_ret].
    apply sim_bind; [apply sim_shuffle|]. intros cands'.
    apply sim_bind; [apply sim_lift|]. intros flags'. apply IH.
Qed.

Lemma sim_fallback_flags cfg : sim same (fallback_flags cfg) (fallback_flags cfg).
Proof using same_randbelow.
  unfold fallback_flags. apply sim_bind; [apply sim_scatter_rounds|].
  intros flags. simpl. case_decide; [|apply sim_ret].
  case_decide; [|apply sim_ret].
  apply sim_bind; [apply sim_lift|]. intros pool.
  apply sim_bind; [apply sim_shuffle|]. intros pool'. apply sim_lift.
Qed.

Lemma sim_fallback_letter cfg flags i sq :
  sim same (fallback_letter cfg flags i sq) (fallback_letter cfg flags i sq).
Proof using same_randbelow.
  unfold fallback_letter. apply sim_bind; [apply sim_lift|]. intros f.
  case_decide; [apply sim_lift|].
  apply sim_bind; [apply sim_lift|]. intros cs.
  apply sim_bind; [apply sim_lift|]. intros cs'.
  destruct cs'; [apply sim_lift | apply sim_choice].
Qed.

Lemma sim_fallback_letters cfg flags idxs sq lures :
  sim same (fallback_letters cfg flags idxs sq lures)
      (fallback_letters cfg flags idxs sq lures).
Proof using same_randbelow.
  revert sq lures. induction idxs as [|i idxs IH]; intros sq lures; simpl.
  - apply sim_ret.
  - apply sim_bind; [apply sim_fallback_letter|]. intros letter. apply IH.
Qed.

Lemma sim_fallback cfg : sim same (fallback cfg) (fallback cfg).
Proof using same_randbelow.
  unfold fallback. apply sim_bind; [apply sim_fallback_flags|]. intros flags.
  apply sim_bind; [apply sim_fallback_letters|]. intros [sq lures].
  apply sim_lift.
Qed.

Lemma sim_generate_sequence cfg : sim same (generate_sequence cfg) (generate_sequence cfg).
Proof using same_random same_randbelow.
  unfold generate_sequence. apply sim_bind; [apply sim_primary_loop|].
  intros [plans|]; [apply sim_ret | apply sim_fallback].
Qed.

(** C9: two calls with the same arguments, made from random sources that
    give the same draws, return the same list of plans (and leave the two
    sources giving the same draws); if one raises, so does the other. *)
Theorem same_seed_same_plans cfg (g1 : R1) (g2 : R2) :
  same g1 g2 →
  (∀ plans1 g1', generate_sequence cfg g1 = Ok (plans1, g1') →
     ∃ g2', generate_sequence cfg g2 = Ok (plans1, g2') ∧ same g1' g2') ∧
  (∀ e, generate_sequence cfg g1 = Raise e → generate_sequence cfg g2 = Raise e).
Proof using same_random same_randbelow.
  intros Hg. pose proof (sim_generate_sequence cfg g1 g2 Hg) as Hs.
  destruct (generate_sequence cfg g1) as [[p1 g1']|e1],
           (generate_sequence cfg g2) as [[p2 g2']|e2]; try done.
  - destruct Hs as [<- Hs]. split; [|done].
    intros ? ? [= <- <-]. eauto.
  - subst. split; [done|]. by intros ? [= <-].
Qed.
End Determinism.

Lemma same_seed_same_plans_witness :
  (∀ plans1 g1', generate_sequence (default_config 2 3) demo_tape = Ok (plans1, g1') →
     ∃ g2', generate_sequence (default_config 2 3) demo_tape = Ok (plans1, g2') ∧
            g1' = g2') ∧
  (∀ e, generate_sequence (default_config 2 3) demo_tape = Raise e →
        generate_sequence (default_config 2 3) demo_tape = Raise e).
Proof.
  apply (same_seed_same_plans (@eq Tape)).
  - by intros g1 g2 ->.
  - by intros n g1 g2 ->.
  - reflexivity.
Defined.

(** ** Scoring of a trial *)

Lemma getKeys_listed keyList presses :
  Forall (λ kt, kt.1 ∈ keyList) (getKeys keyList presses).
Proof.
  apply Forall_forall. intros kt Hkt.
  by apply list_elem_of_filter in Hkt as [? _].
Qed.

Lemma listed_not_quit k :
  k ∈ [KEY_RESPONSE; KEY_QUIT] → k ≠ KEY_QUIT → k = KEY_RESPONSE.
Proof.
  intros Hk Hq. apply elem_of_cons in Hk as [->|Hk]; [done|].
  apply list_elem_of_singleton in Hk. done.
Qed.

Lemma scan_keys_latched keys k rt :
  Forall (λ kt, kt.1 ∈ [KEY_RESPONSE; KEY_QUIT]) keys →
  scan_keys keys = Latched k rt → k = KEY_RESPONSE.
Proof.
  induction 1 as [|[k0 t0] keys Hk0 _ IH]; simpl; [done|].
  case_decide as Hq; [done|]. case_decide as He.
  - intros [= <- _]. by apply listed_not_quit.
  - apply IH.
Qed.

Lemma first_key_latched keys k rt :
  Forall (λ kt, kt.1 ∈ [KEY_RESPONSE; KEY_QUIT]) keys →
  first_key keys = Latched k rt → k = KEY_RESPONSE.
Proof.
  destruct 1 as [|[k0 t0] keys Hk0 _]; simpl; [done|].
  case_decide as Hq; [done|]. intros [= <- _]. by apply listed_not_quit.
Qed.


(** The polling loop ends, by the clock or by the quit key, once a clock
    reading reaches the SOA. *)
Lemma poll_loop_finishes hw soa_ms polls l :
  Exists (λ p, Qle_bool soa_ms (now_ms p) = true) polls →
  is_Some (poll_loop hw soa_ms polls l).
Proof.
  intros Hex. revert l. induction Hex as [p polls Hp|p polls _ IH]; intros l; simpl.
  - by rewrite Hp.
  - destruct (Qle_bool soa_ms (now_ms p)); [done|].
    destruct (_ && _); [|apply IH].
    destruct (if hw then _ else _); [apply IH | done | apply IH].
Qed.



(** * Further properties of the code *)

(** ** The run-limit check *)

Lemma count_run_ge l c r : (r ≤ count_run l c r)%Z.
Proof.
  revert r. induction l as [|x l IH]; intros r; simpl; [lia|].
  case_decide; [|lia]. specialize (IH (r + 1)%Z). lia.
Qed.

Lemma count_run_reaches l c r k :
  (r + Z.of_nat k ≤ count_run l c r)%Z ↔
  k ≤ length l ∧ Forall (λ x, x = c) (take k l).
Proof.
  revert r k. induction l as [|x l IH]; intros r k.
  - rewrite take_nil. simpl. split.
    + intros Hk. split; [lia | constructor].
    + intros [Hk _]. lia.
  - destruct k as [|k].
    { simpl. split.
      - intros _. split; [lia | constructor].
      - intros _. pose proof (count_run_ge (x :: l) c r) as Hge. simpl in Hge. lia. }
    simpl. case_decide as Hx.
    + specialize (IH (r + 1)%Z k).
      replace (r + 1 + Z.of_nat k)%Z with (r + Z.of_nat (S k))%Z in IH by lia.
      rewrite IH, Forall_cons. split.
      * intros [? ?]. split; [lia | done].
      * intros [? [_ ?]]. split; [lia | done].
    + split; [lia|]. intros [_ HF]. by apply Forall_cons in HF as [? _].
Qed.

(** X1: [_valid_run_limit] refuses a candidate exactly when the limit is
    positive and the last [max_run] letters of the sequence all equal the
    candidate. *)
Theorem valid_run_limit_refuses sq c max_run :
  _valid_run_limit sq c max_run = false ↔
  (0 < max_run)%Z ∧ trailing_all sq c (Z.to_nat max_run).
Proof.
  unfold _valid_run_limit, trailing_all. case_decide as Hm.
  { split; [done | lia]. }
  rewrite bool_decide_eq_false.
  pose proof (count_run_reaches (reverse sq) c 1 (Z.to_nat max_run)) as Hc.
  rewrite take_reverse, length_reverse, Forall_reverse in Hc.
  split.
  - intros Hgt. split; [lia|]. apply Hc. lia.
  - intros [_ Ht]. apply Hc in Ht. lia.
Qed.

(** ** The target-index sampler *)

Lemma choose_positions_picks positions chosen desired limit :
  ∃ picked, choose_positions positions chosen desired limit = chosen ++ picked ∧
            picked `sublist_of` positions.
Proof.
  revert chosen. induction positions as [|i rest IH]; intros chosen; simpl.
  - exists []. by rewrite app_nil_r.
  - case_decide.
    { exists []. rewrite app_nil_r. split; [done | apply sublist_nil_l]. }
    destruct (skips_position chosen i limit).
    + destruct (IH chosen) as (picked & -> & Hsub).
      exists picked. split; [done | by apply sublist_cons].
    + destruct (IH (chosen ++ [i])) as (picked & -> & Hsub).
      exists (i :: picked). rewrite <- app_assoc. split; [done | by apply sublist_skip].
Qed.

Section SamplerFacts.
Context {R : Type} `{RandomLaws R}.

Lemma wp_sample_attempts_spec n positions desired limit (g : R) :
  NoDup positions →
  wp (sample_attempts n positions desired limit) g (λ r _,
    ∀ l, r = Some l →
      Sorted le l ∧ NoDup l ∧ (∀ i, i ∈ l → i ∈ positions) ∧
      Z.of_nat (length l) = desired).
Proof.
  revert positions g. induction n as [|n IH]; intros positions g Hnd; simpl.
  { by apply wp_ret. }
  apply wp_bind, wp_shuffle. intros positions' g' Hperm.
  assert (NoDup positions') as Hnd' by (by rewrite Hperm).
  destruct (choose_positions_picks positions' [] desired limit)
    as (picked & Hpick & Hsub). simpl in Hpick.
  case_decide as Hlen.
  - apply wp_ret. intros l [= <-]. rewrite Hpick in *.
    split_and!.
    + apply Sorted_merge_sort. apply _.
    + rewrite merge_sort_Permutation. by eapply sublist_NoDup.
    + intros i Hi. rewrite merge_sort_Permutation in Hi.
      rewrite <- Hperm. by eapply elem_of_sublist.
    + by rewrite merge_sort_Permutation.
  - eapply wp_mono; [by apply IH|]. intros r g'' Hr l Hl.
    destruct (Hr l Hl) as (? & ? & Hin & ?). split_and!; try done.
    intros i Hi. rewrite <- Hperm. by apply Hin.
Qed.

(** X2: [_sample_target_indices] raises nothing; a returned list is sorted,
    free of duplicates, drawn from [range(n_back, n_trials)] and of exactly
    the desired length; it returns the empty list, without drawing, when no
    target is desired, and [None] only when some are. *)
Theorem sample_target_indices_spec nb nt desired limit attempts (g : R) :
  ∃ r g', _sample_target_indices nb nt desired limit attempts g = Ok (r, g') ∧
    match r with
    | Some l =>
        Sorted le l ∧ NoDup l ∧ (∀ i, i ∈ l → nb ≤ i < nt) ∧
        Z.of_nat (length l) = Z.max 0 desired
    | None => (0 < desired)%Z
    end ∧
    ((desired ≤ 0)%Z → r = Some [] ∧ g' = g).
Proof.
  unfold _sample_target_indices. case_decide as Hd.
  - exists (Some []), g. split; [done|]. split; [|done].
    split_and!; [constructor | constructor | by intros i ?%elem_of_nil | simpl; lia].
  - destruct (wp_inv _ _ _ (wp_sample_attempts_spec attempts (seq nb (nt - nb))
                              desired limit g (NoDup_seq _ _)))
      as (r & g' & Hrun & Hr).
    exists r, g'. split_and!; [done| |lia].
    destruct r as [l|]; [|lia].
    destruct (Hr l eq_refl) as (? & ? & Hin & ?). split_and!; try done; [|lia].
    intros i Hi. apply Hin, elem_of_seq in Hi. lia.
Qed.
End SamplerFacts.

Lemma sample_target_indices_spec_witness :
  ∃ r g', _sample_target_indices 2 10 3 1 200 zero_tape = Ok (r, g') ∧
    match r with
    | Some l =>
        Sorted le l ∧ NoDup l ∧ (∀ i, i ∈ l → 2 ≤ i < 10) ∧
        Z.of_nat (length l) = Z.max 0 3
    | None => (0 < 3)%Z
    end ∧
    ((3 ≤ 0)%Z → r = Some [] ∧ g' = zero_tape).
Proof. apply (sample_target_indices_spec 2 10 3 1 200 zero_tape). Defined.

(** ** What the fill loop of a primary attempt appends *)

Lemma spare_letter (a b : option string) :
  ∃ c, c ∈ LETTERS ∧ Some c ≠ a ∧ Some c ≠ b.
Proof.
  assert ("A"%string ∈ LETTERS ∧ "B"%string ∈ LETTERS ∧ "C"%string ∈ LETTERS)
    as (HA & HB & HC).
  { split_and!; apply list_elem_of_In; vm_compute; tauto. }
  destruct (decide (a = Some "A"%string ∨ b = Some "A"%string)) as [H1|H1].
  2:{ exists "A"%string. split_and!; [done|..]; intros E; apply H1; auto. }
  destruct (decide (a = Some "B"%string ∨ b = Some "B"%string)) as [H2|H2].
  2:{ exists "B"%string. split_and!; [done|..]; intros E; apply H2; auto. }
  exists "C"%string. split_and!; [done|..]; intros E;
    destruct H1 as [H1|H1], H2 as [H2|H2]; congruence.
Qed.

Lemma valid_run_limit_other sq c max_run :
  last sq ≠ Some c → _valid_run_limit sq c max_run = true.
Proof.
  intros Hl. unfold _valid_run_limit. case_decide as Hm; [done|].
  apply bool_decide_eq_true.
  destruct sq as [|x sq _] using rev_ind; simpl; [lia|].
  rewrite reverse_snoc. simpl. rewrite last_snoc in Hl.
  rewrite decide_False; [lia | congruence].
Qed.

Lemma drop_last_letter_elem cfg sq cands c :
  c ∈ drop_last_letter cfg sq cands → c ∈ cands.
Proof.
  unfold drop_last_letter. destruct (last sq); [|done].
  destruct (_ && _); [|done]. by intros [_ ?]%list_elem_of_filter.
Qed.

Lemma drop_last_letter_keeps cfg sq cands c :
  c ∈ cands → last sq ≠ Some c → c ∈ drop_last_letter cfg sq cands.
Proof.
  intros Hc Hl. unfold drop_last_letter. destruct (last sq) as [l|]; [|done].
  destruct (_ && _); [|done]. apply list_elem_of_filter. split; [congruence | done].
Qed.

Lemma okE_lure_source_strong cfg sq i dist :
  1 ≤ n_back cfg → 0 < dist → dist ≤ i → length sq = i →
  okE (lure_source cfg sq i dist) (λ o, ∀ l, o = Some l →
    _valid_run_limit sq l (max_identical_run cfg) = true ∧
    (n_back cfg ≤ i → sq !! (i - n_back cfg) ≠ Some l)).
Proof.
  intros Hnb Hd Hi Hlen. unfold lure_source.
  apply okE_bind, okE_getitem_lt; [lia|]. intros l Hl.
  apply okE_bind.
  eapply okE_mono with (P := λ letter_n,
    n_back cfg ≤ i → ∃ x, letter_n = Some x ∧ sq !! (i - n_back cfg) = Some x).
  { case_decide; [|simpl; lia].
    apply okE_bind, okE_getitem_lt; [lia|]. intros x Hx. simpl. eauto. }
  intros letter_n Hn.
  destruct (bool_decide (l ≠ ""%string)); simpl; [|done].
  destruct (bool_decide (letter_n ≠ Some l)) eqn:Hne; simpl; [|done].
  destruct (_valid_run_limit sq l (max_identical_run cfg)) eqn:Hv; simpl; [|done].
  intros ? [= <-]. split; [done|]. intros Hge.
  destruct (Hn Hge) as (x & -> & Hx). apply bool_decide_eq_true in Hne. congruence.
Qed.

Section FillTrace.
Context {R : Type} `{RandomLaws R}.

Lemma wp_choose_letter_nonempty cands freq sb (g : R) (Q : string → R → Prop) :
  cands ≠ [] → (∀ c g', c ∈ cands → Q c g') →
  wp (_choose_letter cands freq sb) g Q.
Proof.
  intros Hne HQ. apply wp_choose_letter. intros c g' Hc. apply HQ.
  by destruct cands.
Qed.

Lemma wp_place_lure_strong cfg sq i (g : R) :
  1 ≤ n_back cfg → length sq = i →
  wp (place_lure cfg sq i) g (λ pb _,
    (pb.1 = "none"%string ∨
     ∃ l, pb.2 = Some l ∧
          _valid_run_limit sq l (max_identical_run cfg) = true ∧
          (n_back cfg ≤ i → sq !! (i - n_back cfg) ≠ Some l) ∧
          include_lures cfg = true ∧
          ((pb.1 = "n-1"%string ∧ (0 < lure_n_minus_1_rate cfg)%Q) ∨
           (pb.1 = "n+1"%string ∧ (0 < lure_n_plus_1_rate cfg)%Q)))).
Proof.
  intros Hnb Hlen. unfold place_lure.
  destruct (include_lures cfg) eqn:Hinc; [|apply wp_ret; by left].
  apply wp_bind.
  eapply wp_mono with (P := λ o _, ∀ l, o = Some l →
    _valid_run_limit sq l (max_identical_run cfg) = true ∧
    (n_back cfg ≤ i → sq !! (i - n_back cfg) ≠ Some l) ∧
    (0 < lure_n_minus_1_rate cfg)%Q).
  { case_decide as Hc; [|by apply wp_ret].
    apply wp_bind, wp_random. intros u g1 _ Hu0 _.
    destruct (Qltb u (lure_n_minus_1_rate cfg)) eqn:Hlt; [|by apply wp_ret].
    assert (0 < lure_n_minus_1_rate cfg)%Q as Hpos.
    { unfold Qltb in Hlt. apply negb_true_iff in Hlt.
      eapply Qle_lt_trans; [exact Hu0|]. apply Qnot_le_lt. intros Hle.
      apply Qle_bool_iff in Hle. congruence. }
    apply wp_lift.
    eapply okE_mono; [apply okE_lure_source_strong; try done; lia|].
    intros o Ho l Hl. destruct (Ho l Hl). by split_and!. }
  intros [l|] g1 Hl; simpl.
  - apply wp_ret. simpl. right. exists l.
    destruct (Hl l eq_refl) as (? & ? & ?). split_and!; try done. by left.
  - case_decide; [|apply wp_ret; by left].
    apply wp_bind, wp_random. intros u g2 _ Hu0 _.
    destruct (Qltb u (lure_n_plus_1_rate cfg)) eqn:Hlt; [|apply wp_ret; by left].
    assert (0 < lure_n_plus_1_rate cfg)%Q as Hpos.
    { unfold Qltb in Hlt. apply negb_true_iff in Hlt.
      eapply Qle_lt_trans; [exact Hu0|]. apply Qnot_le_lt. intros Hle.
      apply Qle_bool_iff in Hle. congruence. }
    apply wp_bind, wp_lift.
    eapply okE_mono; [apply okE_lure_source_strong; try done; lia|].
    intros [l|] Hl'; simpl; [|apply wp_ret; by left].
    apply wp_ret. simpl. right. exists l.
    destruct (Hl' l eq_refl) as (? & ?). split_and!; try done. by right.
Qed.

Lemma wp_filler_letter_strong cfg sq freqs i (g : R) :
  1 ≤ n_back cfg → length sq = i →
  wp (filler_letter cfg sq freqs i) g (λ c _,
    n_back cfg ≤ i → sq !! (i - n_back cfg) ≠ Some c).
Proof.
  intros Hnb Hlen. unfold filler_letter.
  apply wp_bind, wp_lift.
  eapply okE_mono with (P := λ cs,
    (∀ c, c ∈ cs → c ∈ LETTERS ∧
                   (n_back cfg ≤ i → sq !! (i - n_back cfg) ≠ Some c)) ∧
    (∀ c, c ∈ LETTERS → (n_back cfg ≤ i → sq !! (i - n_back cfg) ≠ Some c) →
          c ∈ cs)).
  { case_decide as Hi.
    - apply okE_bind, okE_getitem_lt; [lia|]. intros a Ha. simpl. split.
      + intros c [Hc Hin]%list_elem_of_filter. split; [done|]. congruence.
      + intros c Hc Hne. apply list_elem_of_filter. split; [|done].
        intros ->. by apply Hne.
    - simpl. split; [intros c Hc; split; [done | lia] | done]. }
  intros cs [Hsound Hcompl].
  destruct (spare_letter (sq !! (i - n_back cfg)) (last sq)) as (c0 & Hc0 & Hn1 & Hn2).
  apply wp_choose_letter_nonempty.
  - intros Hemp.
    assert (c0 ∈ drop_last_letter cfg sq cs) as Hin.
    { apply drop_last_letter_keeps; [|congruence]. apply Hcompl; [done|]. congruence. }
    rewrite Hemp in Hin. by apply elem_of_nil in Hin.
  - intros c g' Hc. apply drop_last_letter_elem in Hc. by apply Hsound.
Qed.

Lemma wp_adjust_letter_strong cfg sq freqs i letter (g : R) :
  1 ≤ n_back cfg → length sq = i →
  wp (adjust_letter cfg sq freqs i letter) g (λ c _,
    _valid_run_limit sq c (max_identical_run cfg) = true ∧
    (c = letter ∨
     (_valid_run_limit sq letter (max_identical_run cfg) = false ∧
      (n_back cfg ≤ i → sq !! (i - n_back cfg) ≠ Some c)))).
Proof.
  intros Hnb Hlen. unfold adjust_letter.
  destruct (_valid_run_limit sq letter (max_identical_run cfg)) eqn:Hv; simpl.
  { apply wp_ret. split; [done | by left]. }
  apply wp_bind, wp_lift.
  eapply okE_mono with (P := λ cs,
    (∀ c, c ∈ cs → _valid_run_limit sq c (max_identical_run cfg) = true ∧
                   (n_back cfg ≤ i → sq !! (i - n_back cfg) ≠ Some c)) ∧
    (∀ c, c ∈ LETTERS → _valid_run_limit sq c (max_identical_run cfg) = true →
          (n_back cfg ≤ i → sq !! (i - n_back cfg) ≠ Some c) → c ∈ cs)).
  { case_decide as Hi.
    - unfold filter_ne_item.
      destruct (filter _ LETTERS) as [|c1 cs1] eqn:Hf.
      + simpl. split; [by intros c ?%elem_of_nil|].
        intros c Hc Hval _. assert (c ∈ filter
          (λ c, _valid_run_limit sq c (max_identical_run cfg) = true) LETTERS) as Hin
          by (by apply list_elem_of_filter).
        by rewrite Hf in Hin.
      + apply okE_bind, okE_getitem_lt; [lia|]. intros a Ha. simpl.
        rewrite <- Hf. split.
        * intros c [Hne [Hval Hc]%list_elem_of_filter]%list_elem_of_filter.
          split; [done|]. congruence.
        * intros c Hc Hval Hne. apply list_elem_of_filter. split.
          -- intros ->. by apply Hne.
          -- by apply list_elem_of_filter.
    - simpl. split.
      + intros c [Hval Hc]%list_elem_of_filter. split; [done | lia].
      + intros c Hc Hval _. by apply list_elem_of_filter. }
  intros cs [Hsound Hcompl].
  destruct (spare_letter (sq !! (i - n_back cfg)) (last sq)) as (c0 & Hc0 & Hn1 & Hn2).
  apply wp_choose_letter_nonempty.
  - intros Hemp.
    assert (c0 ∈ drop_last_letter cfg sq cs) as Hin.
    { apply drop_last_letter_keeps; [|congruence].
      apply Hcompl; [done | apply valid_run_limit_other; congruence | congruence]. }
    rewrite Hemp in Hin. by apply elem_of_nil in Hin.
  - intros c g' Hc. apply drop_last_letter_elem in Hc.
    destruct (Hsound c Hc) as [Hval Hne]. split; [done|]. right. by split.
Qed.

Lemma wp_fill_step_strong cfg ts i st (g : R) :
  1 ≤ n_back cfg → attempt_inv i st →
  wp (fill_step cfg ts i st) g (λ st' _,
    ∃ letter flag planned,
      a_seq st' = a_seq st ++ [letter] ∧ a_flags st' = a_flags st ++ [flag] ∧
      a_lures st' = a_lures st ++ [planned] ∧
      step_ok cfg ts (a_seq st) i letter flag planned).
Proof.
  intros Hnb (Hs & Hf & Hl & _). unfold fill_step.
  apply wp_bind.
  eapply wp_mono with (P := λ t _,
    let '(letter, flag, planned) := t in
    (flag = 1%Z ↔ i ∈ ts ∧ n_back cfg ≤ i) ∧
    (flag = 1%Z → planned = "none"%string ∧
                  a_seq st !! (i - n_back cfg) = Some letter) ∧
    (flag ≠ 1%Z → n_back cfg ≤ i → a_seq st !! (i - n_back cfg) ≠ Some letter) ∧
    (flag ≠ 1%Z → planned ≠ "none"%string →
       _valid_run_limit (a_seq st) letter (max_identical_run cfg) = true) ∧
    (planned ≠ "none"%string → include_lures cfg = true) ∧
    (planned = "n-1"%string → (0 < lure_n_minus_1_rate cfg)%Q) ∧
    (planned = "n+1"%string → (0 < lure_n_plus_1_rate cfg)%Q)).
  { case_decide as Hc.
    - apply wp_bind. rewrite decide_True; [|tauto].
      apply wp_lift, okE_getitem_lt; [lia|]. intros a Ha.
      apply wp_ret. split_and!; try done.
    - apply wp_bind.
      eapply wp_mono; [by apply wp_place_lure_strong|].
      intros [planned bound] g1 Hp; simpl in Hp.
      apply wp_bind.
      eapply wp_mono with (P := λ c _,
        (n_back cfg ≤ i → a_seq st !! (i - n_back cfg) ≠ Some c) ∧
        (planned ≠ "none"%string →
           _valid_run_limit (a_seq st) c (max_identical_run cfg) = true)).
      { case_decide as Hpl.
        - eapply wp_mono; [by apply wp_filler_letter_strong|].
          intros c g2 Hc'. by split.
        - destruct Hp as [Hp|(l & -> & Hval & Hne & _)]; [done|].
          apply wp_ret. by split. }
      intros c g2 [Hc1 Hc2]. apply wp_ret.
      split_and!.
      + split; [done | tauto].
      + done.
      + by intros _.
      + by intros _.
      + intros Hpl. by destruct Hp as [?|(l & _ & _ & _ & ? & _)].
      + intros ->. destruct Hp as [?|(l & _ & _ & _ & _ & [[_ ?]|[? _]])]; done.
      + intros ->. destruct Hp as [?|(l & _ & _ & _ & _ & [[? _]|[_ ?]])]; done. }
  intros [[letter flag] planned] g1 (Hflag & Htgt & Hnon & Hlure & Hinc & Hr1 & Hr2).
  apply wp_bind.
  eapply wp_mono; [by apply wp_adjust_letter_strong|].
  intros c g2 [Hval Hc]. apply wp_ret. simpl.
  exists c, flag, planned. split_and!; try done.
  unfold step_ok. split_and!; try done.
  - intros Hf1. by apply Htgt.
  - intros Hf0 Hge. destruct Hc as [->|[_ Hne]]; [by apply Hnon | by apply Hne].
  - intros Hf1. destruct (Htgt Hf1) as [_ Hback]. exists letter. split; [done|].
    destruct Hc as [->|[Hinv _]]; [by left | by right].
Qed.

Lemma trace_ok_snoc cfg ts st st' letter flag planned i :
  attempt_inv i st → trace_ok cfg ts st →
  a_seq st' = a_seq st ++ [letter] → a_flags st' = a_flags st ++ [flag] →
  a_lures st' = a_lures st ++ [planned] →
  step_ok cfg ts (a_seq st) i letter flag planned →
  trace_ok cfg ts st'.
Proof.
  intros (Hs & Hf & Hl & _) Htr Es Ef El Hstep j l f p.
  rewrite Es, Ef, El. intros Hj1 Hj2 Hj3.
  destruct (decide (j < i)) as [Hlt|Hge].
  - rewrite lookup_app_l in Hj1 by lia. rewrite lookup_app_l in Hj2 by lia.
    rewrite lookup_app_l in Hj3 by lia.
    rewrite take_app_le by lia. by apply Htr.
  - assert (j = i) as ->.
    { apply lookup_lt_Some in Hj1. rewrite length_app in Hj1. simpl in Hj1. lia. }
    rewrite lookup_app_r in Hj1 by lia. rewrite lookup_app_r in Hj2 by lia.
    rewrite lookup_app_r in Hj3 by lia.
    rewrite Hs in Hj1. rewrite Hf in Hj2. rewrite Hl in Hj3.
    rewrite Nat.sub_diag in Hj1, Hj2, Hj3. simpl in *.
    injection Hj1 as <-. injection Hj2 as <-. injection Hj3 as <-.
    rewrite take_app_length' by done. done.
Qed.

Lemma wp_fill_loop_strong cfg ts n i st (g : R) :
  1 ≤ n_back cfg → attempt_inv i st → trace_ok cfg ts st →
  wp (fill_loop cfg ts (seq i n) st) g (λ st' _,
    attempt_inv (i + n) st' ∧ trace_ok cfg ts st').
Proof.
  intros Hnb. revert i st g. induction n as [|n IH]; intros i st g Hinv Htr; simpl.
  - apply wp_ret. by rewrite Nat.add_0_r.
  - apply wp_bind.
    pose proof (wp_fill_step cfg ts i st g Hnb Hinv) as H1.
    pose proof (wp_fill_step_strong cfg ts i st g Hnb Hinv) as H2.
    unfold wp in *. destruct (fill_step cfg ts i st g) as [[st' g']|]; [|done].
    destruct H2 as (letter & flag & planned & Es & Ef & El & Hstep).
    pose proof (trace_ok_snoc _ _ _ _ _ _ _ _ Hinv Htr Es Ef El Hstep) as Htr'.
    pose proof (IH (S i) st' g' H1 Htr') as H3.
    destruct (fill_loop cfg ts (seq (S i) n) st' g') as [[st'' g'']|]; [|done].
    by replace (i + S n) with (S i + n) by lia.
Qed.
End FillTrace.

(** ** What the primary loop returns *)

Lemma wp_of_eq {R A} (m : M R A) (g : R) (Q : A → R → Prop) a g' :
  m g = Ok (a, g') → Q a g' → wp m g Q.
Proof. unfold wp. by intros ->. Qed.

Lemma any_plain_repeat_false sq flags lures idxs :
  any_plain_repeat sq flags lures idxs = Ok false →
  ∀ i, i ∈ idxs → plain_repeat sq flags lures i = Ok false.
Proof.
  induction idxs as [|j idxs IH]; simpl; intros Hany i Hi.
  - by apply elem_of_nil in Hi.
  - apply bindE_inv in Hany as ([|] & Hj & Hany); [done|].
    apply elem_of_cons in Hi as [->|Hi]; [done | by apply IH].
Qed.

Lemma plain_repeat_false sq flags lures i a f l :
  plain_repeat sq flags lures i = Ok false →
  sq !! i = Some a → sq !! (i - 1) = Some a →
  flags !! i = Some f → lures !! i = Some l →
  f ≠ 0%Z ∨ l ≠ "none"%string.
Proof.
  unfold plain_repeat, getitem. intros Hp Ha Hb Hf Hl.
  rewrite Ha, Hb in Hp. simpl in Hp. rewrite decide_True in Hp by done.
  rewrite Hf in Hp. simpl in Hp. case_decide as Hf0; [|by left].
  rewrite Hl in Hp. simpl in Hp. right. intros ->.
  by rewrite bool_decide_eq_true_2 in Hp.
Qed.

Lemma validate_sequence_no_repeat sq flags lures nb rate limit why :
  validate_sequence sq flags lures nb rate limit = Ok (true, why) →
  1 < nb →
  ∀ i a f l, sq !! (S i) = Some a → sq !! i = Some a →
    flags !! (S i) = Some f → lures !! (S i) = Some l →
    f ≠ 0%Z ∨ l ≠ "none"%string.
Proof.
  unfold validate_sequence. intros Hv Hnb i a f l Ha Hb Hf Hl.
  apply bindE_inv in Hv as ([|] & _ & Hv); [done|].
  destruct (negb _); [done|].
  rewrite decide_True in Hv by done.
  apply bindE_inv in Hv as ([|] & Hrep & Hv); [done|].
  eapply plain_repeat_false; [| exact Ha | | exact Hf | exact Hl].
  - eapply any_plain_repeat_false; [exact Hrep|].
    apply elem_of_seq. apply lookup_lt_Some in Ha. lia.
  - by replace (S i - 1) with i by lia.
Qed.

Lemma okE_build_plans_iti cfg st :
  attempt_inv (n_trials cfg) st →
  okE (build_plans cfg st) (Forall (λ p, iti_ms p = fixed_iti_ms cfg)).
Proof.
  intros (Hs & Hf & Hl & _). unfold build_plans.
  eapply okE_mono.
  { apply okE_mapE_seq with (P := λ _ p, iti_ms p = fixed_iti_ms cfg).
    intros i Hi.
    apply okE_bind, okE_getitem_lt; [lia|]. intros s _.
    apply okE_bind, okE_getitem_lt; [lia|]. intros f _.
    apply okE_bind, okE_getitem_lt; [lia|]. by intros l _. }
  intros plans [_ Hp]. apply Forall_lookup. intros k p Hk. by eapply Hp.
Qed.

Lemma trace_ok_plans cfg ts st plans :
  trace_ok cfg ts st →
  map stimulus plans = a_seq st → map is_target plans = a_flags st →
  map lure_type plans = a_lures st →
  ∀ j p, plans !! j = Some p → plan_step_ok cfg ts plans j p.
Proof.
  intros Htr E1 E2 E3 j p Hp. unfold plan_step_ok.
  change (map stimulus (take j plans)) with (stimulus <$> take j plans).
  rewrite fmap_take. change (stimulus <$> plans) with (map stimulus plans).
  rewrite E1. apply Htr.
  - rewrite <- E1. by apply lookup_map_Some.
  - rewrite <- E2. by apply lookup_map_Some.
  - rewrite <- E3. by apply lookup_map_Some.
Qed.

Section PrimaryStrong.
Context {R : Type} `{RandomLaws R}.

Lemma wp_primary_attempt_strong cfg (g : R) :
  1 ≤ n_back cfg →
  wp (primary_attempt cfg) g
     (λ r _, ∀ plans, r = Some plans → primary_strong cfg plans).
Proof.
  intros Hnb. unfold primary_attempt. apply wp_bind.
  destruct (sample_target_indices_spec (n_back cfg) (n_trials cfg)
              (desired_targets cfg) (max_consec_targets cfg) 200 g)
    as (r & g1 & Hs & Hr & _).
  eapply wp_of_eq; [exact Hs|].
  destruct r as [idxs|]; [|by apply wp_ret].
  destruct Hr as (_ & Hnd & Hrange & Hlen).
  apply wp_bind. eapply wp_mono.
  { apply (wp_fill_loop_strong cfg _ (n_trials cfg) 0); [done| |].
    - unfold attempt_inv; simpl. by split_and!.
    - intros j l f p Hj. simpl in Hj. by rewrite lookup_nil in Hj. }
  intros st g2 [Hinv Htr]. simpl in Hinv.
  apply wp_bind, wp_lift.
  destruct (validate_sequence _ _ _ _ _ _) as [[ok why]|e] eqn:Hv; simpl.
  - destruct ok; [|by apply wp_ret].
    apply wp_bind, wp_lift.
    pose proof (okE_build_plans cfg st Hinv) as Hb1.
    pose proof (okE_build_plans_iti cfg st Hinv) as Hb2.
    destruct (build_plans cfg st) as [plans|]; [|done]. simpl in *.
    destruct Hb1 as (Hlen' & Hwf & E1 & E2 & E3).
    apply wp_ret. intros ? [= <-]. exists idxs. split_and!; try done.
    + by eapply trace_ok_plans.
    + intros Hnb1 i p q Hp Hq Heq.
      eapply (validate_sequence_no_repeat _ _ _ _ _ _ _ Hv Hnb1 i (stimulus p)).
      * rewrite <- E1. by apply lookup_map_Some.
      * rewrite <- E1, Heq. by apply lookup_map_Some.
      * rewrite <- E2. by apply lookup_map_Some.
      * rewrite <- E3. by apply lookup_map_Some.
  - destruct Hinv as (Hs' & Hf & Hl & _).
    pose proof (validate_sequence_total (a_seq st) (a_flags st) (a_lures st)
                  (n_back cfg) (target_rate cfg) (max_consec_targets cfg)) as Ht.
    rewrite Hv in Ht. apply Ht; congruence.
Qed.

Lemma wp_primary_loop_strong cfg n (g : R) :
  1 ≤ n_back cfg →
  wp (primary_loop cfg n) g
     (λ r _, ∀ plans, r = Some plans → primary_strong cfg plans).
Proof.
  intros Hnb. revert g. induction n as [|n IH]; intros g; simpl.
  - by apply wp_ret.
  - apply wp_bind. eapply wp_mono; [by apply wp_primary_attempt_strong|].
    intros [plans|] g' Hp; [by apply wp_ret | apply IH].
Qed.

Lemma primary_loop_strong cfg n (g g' : R) plans :
  1 ≤ n_back cfg → primary_loop cfg n g = Ok (Some plans, g') →
  primary_ok cfg plans ∧ primary_strong cfg plans.
Proof.
  intros Hnb Hloop. split.
  - by apply (wp_elim _ _ _ _ _ (wp_primary_loop cfg n g Hnb) Hloop).
  - by apply (wp_elim _ _ _ _ _ (wp_primary_loop_strong cfg n g Hnb) Hloop).
Qed.
End PrimaryStrong.

(** ** What the fallback returns *)

Section FallbackStrong.
Context {R : Type} `{RandomLaws R}.

Lemma wp_fallback_letter_strong cfg flags i sq f (g : R) :
  1 ≤ n_back cfg → length sq = i → flags !! i = Some f →
  (f = 1%Z → n_back cfg ≤ i) →
  wp (fallback_letter cfg flags i sq) g (λ c _,
    (f = 1%Z → sq !! (i - n_back cfg) = Some c) ∧
    (f ≠ 1%Z → (n_back cfg ≤ i → sq !! (i - n_back cfg) ≠ Some c) ∧
               (1 ≤ i → sq !! (i - 1) ≠ Some c))).
Proof.
  intros Hnb Hsq Hf Hlow. unfold fallback_letter.
  apply wp_bind, wp_lift, okE_getitem; exists f. split; [done|].
  case_decide as Hc.
  { apply wp_lift, okE_getitem_lt; [lia|]. intros a Ha. split; [done|].
    intros Hne. by destruct Hc. }
  assert (f ≠ 1%Z) as Hf1 by (intros ->; apply Hc; auto).
  apply wp_bind, wp_lift.
  eapply okE_mono with (P := λ cs,
    (∀ c, c ∈ cs → n_back cfg ≤ i → sq !! (i - n_back cfg) ≠ Some c) ∧
    (∀ c, c ∈ LETTERS → (n_back cfg ≤ i → sq !! (i - n_back cfg) ≠ Some c) →
          c ∈ cs)).
  { case_decide as Hi.
    - apply okE_bind, okE_getitem_lt; [lia|]. intros a Ha. simpl. split.
      + intros c [Hc' _]%list_elem_of_filter _. congruence.
      + intros c Hc' Hne. apply list_elem_of_filter. split; [|done].
        intros ->. by apply Hne.
    - simpl. split; [intros; lia | done]. }
  intros cs [Hs1 Hc1]. apply wp_bind, wp_lift.
  eapply okE_mono with (P := λ cs',
    (∀ c, c ∈ cs' → c ∈ cs ∧ (1 ≤ i → sq !! (i - 1) ≠ Some c)) ∧
    (∀ c, c ∈ cs → (1 ≤ i → sq !! (i - 1) ≠ Some c) → c ∈ cs')).
  { case_decide as Hi.
    - unfold filter_ne_item. destruct cs as [|c1 cs1] eqn:Hcs.
      + simpl. split; [by intros c ?%elem_of_nil | done].
      + apply okE_bind, okE_getitem_lt; [lia|]. intros a Ha. simpl.
        rewrite <- Hcs. split.
        * intros c [Hne Hc']%list_elem_of_filter. split; [done | congruence].
        * intros c Hc' Hne. apply list_elem_of_filter. split.
          -- intros ->. by apply Hne.
          -- done.
    - simpl. split; [intros c Hc'; split; [done | lia] | done]. }
  intros cs' [Hs2 Hc2].
  destruct (spare_letter (sq !! (i - n_back cfg)) (sq !! (i - 1)))
    as (c0 & Hc0 & Hn1 & Hn2).
  assert (c0 ∈ cs') as Hin.
  { apply Hc2; [apply Hc1; [done|] |]; congruence. }
  destruct cs' as [|c1 cs1] eqn:Hcs'; [by apply elem_of_nil in Hin|].
  apply wp_choice; [done|]. intros a g' Ha. split; [done|]. intros _.
  destruct (Hs2 a Ha) as [Ha1 Ha2]. split; [by apply Hs1 | done].
Qed.

Lemma wp_fallback_letters_strong cfg flags n i sq lures (g : R) :
  1 ≤ n_back cfg → length flags = n_trials cfg → i + n ≤ n_trials cfg →
  (∀ j, flags !! j = Some 1%Z → n_back cfg ≤ j) →
  length sq = i → letters_ok cfg flags sq →
  wp (fallback_letters cfg flags (seq i n) sq lures) g
     (λ r _, letters_ok cfg flags r.1).
Proof.
  intros Hnb Hlen. revert i sq lures g.
  induction n as [|n IH]; intros i sq lures g Hin Hlow Hsq Hok; simpl.
  { by apply wp_ret. }
  destruct (lookup_lt_is_Some_2 flags i) as [f Hf]; [lia|].
  apply wp_bind. eapply wp_mono.
  { apply (wp_fallback_letter_strong cfg flags i sq f); try done.
    intros ->. by apply Hlow. }
  intros c g' [Hc1 Hc2]. apply IH; [lia | done | rewrite length_app; simpl; lia|].
  intros j c' f' Hj Hf'.
  destruct (decide (j < i)) as [Hlt|Hge].
  - rewrite lookup_app_l in Hj by lia.
    destruct (Hok j c' f' Hj Hf') as [H1 H2]. split.
    + intros Hf1. destruct (H1 Hf1) as [? ?]. split; [done|].
      rewrite lookup_app_l by lia. done.
    + intros Hf1. destruct (H2 Hf1) as [? ?]. split; intros Hg.
      * rewrite lookup_app_l by lia. auto.
      * rewrite lookup_app_l by lia. auto.
  - assert (j = i) as ->.
    { apply lookup_lt_Some in Hj. rewrite length_app in Hj. simpl in Hj. lia. }
    rewrite lookup_app_r in Hj by lia. rewrite Hsq, Nat.sub_diag in Hj.
    injection Hj as <-. assert (f' = f) as -> by congruence. split.
    + intros Hf1. assert (n_back cfg ≤ i) by (apply Hlow; congruence).
      split; [done|]. rewrite lookup_app_l by lia. by apply Hc1.
    + intros Hf1. destruct (Hc2 Hf1) as [? ?]. split; intros Hg.
      * rewrite lookup_app_l by lia. auto.
      * rewrite lookup_app_l by lia. auto.
Qed.

Lemma wp_fallback_strong cfg (g : R) :
  1 ≤ n_back cfg → wp (fallback cfg) g (λ plans _, fallback_strong cfg plans).
Proof.
  intros Hnb. unfold fallback. apply wp_bind.
  eapply wp_mono; [apply wp_fallback_flags|].
  intros flags g1 [(Hlen & Hflag & Hlow & Hadj) Hsum].
  apply wp_bind.
  pose proof (wp_fallback_letters cfg flags (n_trials cfg) 0 [] [] g1 Hnb Hlen
                (Nat.le_refl _) eq_refl eq_refl (Forall_nil_2 _) (Forall_nil_2 _)) as W1.
  assert (letters_ok cfg flags []) as Hnil.
  { intros j c f Hj. by rewrite lookup_nil in Hj. }
  pose proof (wp_fallback_letters_strong cfg flags (n_trials cfg) 0 [] [] g1 Hnb Hlen
                (Nat.le_refl _) Hlow eq_refl Hnil) as W2.
  unfold wp in W1, W2 |- *.
  destruct (fallback_letters cfg flags (seq 0 (n_trials cfg)) [] [] g1)
    as [[[sq lures] g2]|]; [|done].
  simpl in W1, W2. destruct W1 as (Hsq & Hlu & _ & _).
  change (wp (lift (mapE (λ i,
      bindE (getitem sq i) (λ s, bindE (getitem flags i) (λ f,
        bindE (getitem lures i) (λ l,
          Ok {| stimulus := s;
                is_target := if decide (f = 1%Z) then 1%Z else 0%Z;
                lure_type := l; iti_ms := fixed_iti_ms cfg |}))))
      (seq 0 (n_trials cfg)))) g2 (λ plans _, fallback_strong cfg plans)).
  apply wp_lift. eapply okE_mono.
  { apply okE_mapE_seq with (P := λ i p,
      sq !! i = Some (stimulus p) ∧
      (∃ f, flags !! i = Some f ∧ (is_target p = 1%Z ↔ f = 1%Z)) ∧
      iti_ms p = fixed_iti_ms cfg).
    intros i Hi.
    apply okE_bind, okE_getitem_lt; [lia|]. intros s Hs'.
    apply okE_bind, okE_getitem_lt; [lia|]. intros f Hf'.
    apply okE_bind, okE_getitem_lt; [lia|]. intros l Hl'. simpl.
    split_and!; [done | | done]. exists f. split; [done|].
    case_decide; split; (done || lia). }
  intros plans [Hplen Hp]. simpl in Hp.
  assert (∀ k c, sq !! k = Some c → ∃ q, plans !! k = Some q ∧ stimulus q = c) as Hback.
  { intros k c Hk.
    destruct (lookup_lt_is_Some_2 plans k) as [q Hq].
    { apply lookup_lt_Some in Hk. lia. }
    exists q. split; [done|]. destruct (Hp k q Hq) as (Hq1 & _). congruence. }
  assert (∀ k q c, plans !! k = Some q → sq !! k ≠ Some c → c ≠ stimulus q) as Hne.
  { intros k q c Hq Hk ->. apply Hk. by destruct (Hp k q Hq) as (Hq1 & _). }
  split.
  - intros j p Hj. destruct (Hp j p Hj) as (Hs1 & (f & Hf & Hiff) & _).
    destruct (W2 j (stimulus p) f Hs1 Hf) as [Ht Hn]. split.
    + intros Hp1. destruct (Ht (proj1 Hiff Hp1)) as [_ Hb].
      destruct (Hback _ _ Hb) as (q & Hq & Heq). eauto.
    + intros Hp1. assert (f ≠ 1%Z) as Hf1 by (intros ?; apply Hp1; tauto).
      destruct (Hn Hf1) as [Hn1 Hn2]. split; intros Hg.
      * destruct (lookup_lt_is_Some_2 plans (j - n_back cfg)) as [q Hq].
        { apply lookup_lt_Some in Hj. lia. }
        exists q. split; [done|]. eapply Hne; [done | by apply Hn1].
      * destruct (lookup_lt_is_Some_2 plans (j - 1)) as [q Hq].
        { apply lookup_lt_Some in Hj. lia. }
        exists q. split; [done|]. eapply Hne; [done | by apply Hn2].
  - apply Forall_lookup. intros k p Hk. by destruct (Hp k p Hk) as (_ & _ & ?).
Qed.

Lemma fallback_strong_ok cfg (g g' : R) plans :
  1 ≤ n_back cfg → fallback cfg g = Ok (plans, g') →
  fallback_ok cfg plans ∧ fallback_strong cfg plans.
Proof.
  intros Hnb Hf. split.
  - by apply (wp_elim _ _ _ _ _ (wp_fallback cfg g Hnb) Hf).
  - by apply (wp_elim _ _ _ _ _ (wp_fallback_strong cfg g Hnb) Hf).
Qed.

(** Every list [generate_sequence] returns comes with the facts of its path. *)
Lemma generate_sequence_strong cfg (g g' : R) plans :
  1 ≤ n_back cfg → generate_sequence cfg g = Ok (plans, g') →
  (primary_ok cfg plans ∧ primary_strong cfg plans) ∨
  (fallback_ok cfg plans ∧ fallback_strong cfg plans).
Proof.
  intros Hnb Hg.
  destruct (generate_sequence_paths cfg g g' plans Hg) as [Hp|(g1 & _ & Hf)].
  - left. by eapply primary_loop_strong.
  - right. by eapply fallback_strong_ok.
Qed.
End FallbackStrong.

(** ** Properties of the returned plans *)

Lemma take_lookup_map (plans : list TrialPlan) i k :
  k < i → map stimulus (take i plans) !! k = stimulus <$> plans !! k.
Proof.
  intros Hk. change (map stimulus (take i plans)) with (stimulus <$> take i plans).
  by rewrite list_lookup_fmap, lookup_take_lt.
Qed.

Lemma trailing_all_plans (plans : list TrialPlan) i c k :
  i ≤ length plans →
  trailing_all (map stimulus (take i plans)) c k ↔
  k ≤ i ∧ ∀ j r, i - k ≤ j < i → plans !! j = Some r → stimulus r = c.
Proof.
  intros Hi. unfold trailing_all.
  rewrite length_map, length_take, Nat.min_l by lia.
  split; intros [Hk Hall]; (split; [done|]).
  - intros j r Hj Hr. rewrite Forall_lookup in Hall.
    apply (Hall (j - (i - k))). rewrite lookup_drop.
    replace (i - k + (j - (i - k))) with j by lia.
    rewrite take_lookup_map by lia. by rewrite Hr.
  - apply Forall_lookup. intros n x Hx. rewrite lookup_drop in Hx.
    assert (i - k + n < i) as Hlt.
    { apply lookup_lt_Some in Hx.
      rewrite length_map, length_take in Hx. lia. }
    rewrite take_lookup_map in Hx by done.
    destruct (plans !! (i - k + n)) as [r|] eqn:Hr; [|done].
    injection Hx as <-. eapply Hall; [|exact Hr]. lia.
Qed.


Section PlanProperties.
Context {R : Type} `{RandomLaws R}.

(** X3: on either path a plan that is not flagged as a target differs from
    the stimulus n_back positions before it. *)
Theorem non_target_differs cfg (g g' : R) plans :
  1 ≤ n_back cfg →
  generate_sequence cfg g = Ok (plans, g') →
  ∀ i p q, plans !! i = Some p → n_back cfg ≤ i →
    plans !! (i - n_back cfg) = Some q → is_target p = 0%Z →
    stimulus p ≠ stimulus q.
Proof.
  intros Hnb Hg i p q Hp Hi Hq Hp0.
  destruct (generate_sequence_strong cfg g g' plans Hnb Hg)
    as [[_ (idxs & _ & _ & _ & Hstep & _)]|[_ [Hfb _]]].
  - destruct (Hstep i p Hp) as (_ & _ & _ & Hne & _).
    intros Heq. apply Hne; [lia | done|].
    rewrite take_lookup_map by lia. by rewrite Hq, Heq.
  - destruct (Hfb i p Hp) as [_ Hn].
    destruct Hn as [Hn _]; [lia|]. destruct (Hn Hi) as (q' & Hq' & Hne). congruence.
Qed.

(** X4: on the fallback path a plan is flagged as a target exactly when its
    position is at least n_back and it repeats the stimulus n_back positions
    before it. *)
Theorem fallback_targets_match cfg (g g' : R) plans :
  1 ≤ n_back cfg →
  fallback cfg g = Ok (plans, g') →
  ∀ i p, plans !! i = Some p →
    (is_target p = 1%Z ↔
     n_back cfg ≤ i ∧ ∃ q, plans !! (i - n_back cfg) = Some q ∧ stimulus p = stimulus q).
Proof.
  intros Hnb Hf i p Hp.
  destruct (fallback_strong_ok cfg g g' plans Hnb Hf)
    as [(_ & Hwf & Hearly & _) [Hfb _]].
  destruct (Hfb i p Hp) as [Ht Hn]. split.
  - intros Hp1. split; [|by apply Ht].
    destruct (decide (n_back cfg ≤ i)); [done|].
    exfalso. apply (Hearly i p Hp); [lia | done].
  - intros [Hi (q & Hq & Heq)].
    destruct (decide (is_target p = 1%Z)) as [|Hne]; [done|].
    destruct (Hn Hne) as [Hn1 _]. destruct (Hn1 Hi) as (q' & Hq' & Hdiff).
    congruence.
Qed.

(** X5: on the primary path a plan flagged as a target repeats the stimulus
    n_back positions before it, unless max_identical_run is positive and the
    max_identical_run stimuli just before it all equal that stimulus. *)
Theorem primary_target_match_or_capped cfg n (g g' : R) plans :
  1 ≤ n_back cfg →
  primary_loop cfg n g = Ok (Some plans, g') →
  ∀ i p, plans !! i = Some p → is_target p = 1%Z →
    ∃ q, plans !! (i - n_back cfg) = Some q ∧
      (stimulus p = stimulus q ∨
       ((0 < max_identical_run cfg)%Z ∧
        Z.to_nat (max_identical_run cfg) ≤ i ∧
        ∀ j r, i - Z.to_nat (max_identical_run cfg) ≤ j < i →
               plans !! j = Some r → stimulus r = stimulus q)).
Proof.
  intros Hnb Hloop i p Hp Hp1.
  destruct (primary_loop_strong cfg n g g' plans Hnb Hloop)
    as [(_ & _ & Hearly & _) (idxs & _ & _ & _ & Hstep & _)].
  assert (n_back cfg ≤ i) as Hi.
  { destruct (decide (n_back cfg ≤ i)); [done|].
    exfalso. apply (Hearly i p Hp); [lia | done]. }
  assert (i ≤ length plans) as Hlen by (apply lookup_lt_Some in Hp; lia).
  destruct (Hstep i p Hp) as (_ & _ & _ & _ & Hback & _).
  destruct (Hback Hp1) as (back & Hb & Hor).
  rewrite take_lookup_map in Hb by lia.
  destruct (plans !! (i - n_back cfg)) as [q|] eqn:Hq; [|done].
  injection Hb as <-. exists q. split; [done|].
  destruct Hor as [?|Hcap]; [by left | right].
  apply valid_run_limit_refuses in Hcap as [Hpos Htr].
  apply trailing_all_plans in Htr as [? ?]; done.
Qed.

(** X6: on the primary path, with a positive max_identical_run, no letter is
    shown more than max_identical_run times in a row. *)
Theorem primary_run_cap cfg n (g g' : R) plans :
  1 ≤ n_back cfg → (0 < max_identical_run cfg)%Z →
  primary_loop cfg n g = Ok (Some plans, g') →
  ∀ i c, ¬ letter_run plans i (S (Z.to_nat (max_identical_run cfg))) c.
Proof.
  intros Hnb Hpos Hloop i c Hrun.
  destruct (primary_loop_strong cfg n g g' plans Hnb Hloop)
    as [_ (idxs & _ & _ & _ & Hstep & _)].
  set (k := Z.to_nat (max_identical_run cfg)) in *.
  destruct (Hrun k) as (p & Hp & Hpc); [lia|].
  destruct (Hstep (i + k) p Hp) as (_ & _ & Hval & _).
  assert (_valid_run_limit (map stimulus (take (i + k) plans)) (stimulus p)
            (max_identical_run cfg) = false) as Hinv; [|congruence].
  apply valid_run_limit_refuses. split; [done|].
  apply trailing_all_plans; [apply lookup_lt_Some in Hp; lia|].
  fold k. split; [lia|]. intros j r Hj Hr.
  destruct (Hrun (j - i)) as (r' & Hr' & Hrc); [lia|].
  replace (i + (j - i)) with j in Hr' by lia. congruence.
Qed.

(** X7: on either path a plan with a lure type other than "none" is not
    flagged as a target, and it occurs only when lures are included and the
    rate of its lure type is positive. *)
Theorem lures_only_when_enabled cfg (g g' : R) plans :
  1 ≤ n_back cfg →
  generate_sequence cfg g = Ok (plans, g') →
  ∀ p, p ∈ plans → lure_type p ≠ "none"%string →
    is_target p = 0%Z ∧ include_lures cfg = true ∧
    (lure_type p = "n-1"%string → (0 < lure_n_minus_1_rate cfg)%Q) ∧
    (lure_type p = "n+1"%string → (0 < lure_n_plus_1_rate cfg)%Q).
Proof.
  intros Hnb Hg p Hin Hlure. apply list_elem_of_lookup in Hin as [i Hp].
  destruct (generate_sequence_strong cfg g g' plans Hnb Hg)
    as [[(_ & Hwf & _) (idxs & _ & _ & _ & Hstep & _)]|[(_ & _ & _ & _ & _ & Hnone) _]].
  - destruct (Hstep i p Hp) as (_ & Hexcl & _ & _ & _ & Hinc & Hr1 & Hr2).
    eapply Forall_lookup_1 in Hwf; [|exact Hp]. destruct Hwf as (_ & [Hz|Ho] & _).
    + by split_and!; auto.
    + by specialize (Hexcl Ho).
  - eapply Forall_lookup_1 in Hnone; [|exact Hp]. done.
Qed.


(** X9: with n_back above 1, on either path, a stimulus repeats the one just
    before it only at a plan flagged as a target or carrying a lure. *)
Theorem immediate_repeat_is_marked cfg (g g' : R) plans :
  1 < n_back cfg →
  generate_sequence cfg g = Ok (plans, g') →
  ∀ i p q, plans !! (S i) = Some p → plans !! i = Some q →
    stimulus p = stimulus q →
    is_target p = 1%Z ∨ lure_type p ≠ "none"%string.
Proof.
  intros Hnb Hg i p q Hp Hq Heq.
  destruct (generate_sequence_strong cfg g g' plans ltac:(lia) Hg)
    as [[(_ & Hwf & _) (idxs & _ & _ & _ & _ & Hrep & _)]|[_ [Hfb _]]].
  - destruct (Hrep Hnb i p q Hp Hq Heq) as [Hn|Hl]; [|by right].
    eapply Forall_lookup_1 in Hwf; [|exact Hp].
    destruct Hwf as (_ & [Hz|Ho] & _); [done | by left].
  - destruct (decide (is_target p = 1%Z)) as [|Hne]; [by left|].
    destruct (Hfb (S i) p Hp) as [_ Hn]. destruct (Hn Hne) as [_ Hprev].
    destruct Hprev as (q' & Hq' & Hdiff); [lia|].
    replace (S i - 1) with i in Hq' by lia. congruence.
Qed.

(** X10: every returned plan carries the configured fixed ITI. *)
Theorem plans_carry_fixed_iti cfg (g g' : R) plans :
  1 ≤ n_back cfg →
  generate_sequence cfg g = Ok (plans, g') →
  ∀ p, p ∈ plans → iti_ms p = fixed_iti_ms cfg.
Proof.
  intros Hnb Hg p Hp.
  destruct (generate_sequence_strong cfg g g' plans Hnb Hg)
    as [[_ (idxs & _ & _ & _ & _ & _ & Hiti)]|[_ [_ Hiti]]];
    by eapply Forall_forall in Hiti.
Qed.

End PlanProperties.

Lemma demo_primary_run :
  primary_loop (default_config 2 3) 300 demo_tape = Ok (Some demo_plans, zero_tape).
Proof. by vm_compute. Qed.

Lemma crowded_fallback_run :
  fallback (crowded_config 3 1) zero_tape = Ok (crowded_plans, zero_tape).
Proof. by vm_compute. Qed.

Lemma crowded_run :
  generate_sequence (crowded_config 3 1) zero_tape = Ok (crowded_plans, zero_tape).
Proof. by vm_compute. Qed.

Lemma non_target_differs_witness :
  crowded_plans !! 1 = Some (plan "B" 0 "none") ∧
  stimulus (plan "B" 0 "none") ≠ stimulus (plan "A" 0 "none").
Proof.
  split; [done|].
  apply (non_target_differs (crowded_config 3 1) zero_tape zero_tape crowded_plans)
    with (i := 1); [simpl; lia | apply crowded_run | done | simpl; lia | done | done].
Defined.

Lemma fallback_targets_match_witness :
  is_target (plan "B" 1 "none") = 1%Z ↔
  n_back (crowded_config 3 1) ≤ 2 ∧
  ∃ q, crowded_plans !! (2 - n_back (crowded_config 3 1)) = Some q ∧
       stimulus (plan "B" 1 "none") = stimulus q.
Proof.
  apply (fallback_targets_match (crowded_config 3 1) zero_tape zero_tape crowded_plans);
    [simpl; lia | apply crowded_fallback_run | done].
Defined.

Lemma primary_target_match_or_capped_witness :
  ∃ q, demo_plans !! (2 - n_back (default_config 2 3)) = Some q ∧
    (stimulus (plan "T" 1 "none") = stimulus q ∨
     ((0 < max_identical_run (default_config 2 3))%Z ∧
      Z.to_nat (max_identical_run (default_config 2 3)) ≤ 2 ∧
      ∀ j r, 2 - Z.to_nat (max_identical_run (default_config 2 3)) ≤ j < 2 →
             demo_plans !! j = Some r → stimulus r = stimulus q)).
Proof.
  apply (primary_target_match_or_capped (default_config 2 3) 300 demo_tape zero_tape
           demo_plans); [simpl; lia | apply demo_primary_run | done | done].
Defined.

Lemma primary_run_cap_witness :
  (0 < max_identical_run (default_config 2 3))%Z ∧
  ¬ letter_run demo_plans 0 (S (Z.to_nat (max_identical_run (default_config 2 3)))) "M".
Proof.
  split; [done|].
  apply (primary_run_cap (default_config 2 3) 300 demo_tape zero_tape demo_plans);
    [simpl; lia | done | apply demo_primary_run].
Defined.

Lemma lures_only_when_enabled_witness :
  is_target (plan "M" 0 "n-1") = 0%Z ∧ include_lures (default_config 2 3) = true ∧
  (lure_type (plan "M" 0 "n-1") = "n-1"%string →
   (0 < lure_n_minus_1_rate (default_config 2 3))%Q) ∧
  (lure_type (plan "M" 0 "n-1") = "n+1"%string →
   (0 < lure_n_plus_1_rate (default_config 2 3))%Q).
Proof.
  apply (lures_only_when_enabled (default_config 2 3) demo_tape zero_tape demo_plans);
    [simpl; lia | by vm_compute | | done].
  apply list_elem_of_In. simpl. tauto.
Defined.


Lemma immediate_repeat_is_marked_witness :
  is_target (plan "M" 0 "n-1") = 1%Z ∨ lure_type (plan "M" 0 "n-1") ≠ "none"%string.
Proof.
  apply (immediate_repeat_is_marked (default_config 2 3) demo_tape zero_tape demo_plans)
    with (i := 0) (q := plan "M" 0 "none");
    [simpl; lia | by vm_compute | done | done | done].
Defined.

Lemma plans_carry_fixed_iti_witness :
  iti_ms (plan "T" 1 "none") = fixed_iti_ms (default_config 2 3).
Proof.
  apply (plans_carry_fixed_iti (default_config 2 3) demo_tape zero_tape demo_plans);
    [simpl; lia | by vm_compute |].
  apply list_elem_of_In. simpl. tauto.
Defined.


(** ** The validator accepts exactly the valid sequences *)















Section ChooserTotal.
Context {R : Type} `{RandomLaws R}.

(** X13: [_choose_letter] raises nothing and returns one of the candidates,
    or a letter of the full pool when there is no candidate, with or without
    soft balancing. *)
Theorem choose_letter_returns_candidate candidates freq soft_balance (g : R) :
  ∃ c g', _choose_letter candidates freq soft_balance g = Ok (c, g') ∧
          c ∈ (match candidates with [] => LETTERS | _ => candidates end).
Proof.
  destruct (wp_inv _ _ _ (wp_choose_letter candidates freq soft_balance g
              (λ c _, c ∈ (match candidates with [] => LETTERS | _ => candidates end))
              (λ c g' Hc, Hc))) as (c & g' & Hrun & Hc).
  eauto.
Qed.
End ChooserTotal.

Lemma choose_letter_returns_candidate_witness :
  ∃ c g', _choose_letter [] skewed_freq false zero_tape = Ok (c, g') ∧ c ∈ LETTERS.
Proof. apply (choose_letter_returns_candidate [] skewed_freq false zero_tape). Defined.

(** ** Event markers *)

Lemma land_255_range code : (0 ≤ Z.land code 255 ≤ 255)%Z.
Proof.
  assert (Z.land code 255 = code `mod` 256)%Z as ->.
  { change 255%Z with (Z.ones 8). by rewrite Z.land_ones. }
  pose proof (Z.mod_pos_bound code 256 ltac:(lia)). lia.
Qed.

Lemma land_255_id code : (0 ≤ code ≤ 255)%Z → Z.land code 255 = code.
Proof.
  intros Hc. assert (Z.land code 255 = code `mod` 256)%Z as ->.
  { change 255%Z with (Z.ones 8). by rewrite Z.land_ones. }
  apply Z.mod_small. lia.
Qed.

(** X14: [set_trigger_code] raises KeyError exactly for a name the table
    does not hold and then changes nothing; otherwise it keeps the enable
    flag, the set of names and every other code, and a later [send_named] of
    that name sends the code masked to 8 bits. *)
Theorem set_trigger_code_then_send {W} st name code :
  match set_trigger_code st name code with
  | KeyError key => key = name ∧ triggers st !! name = None
  | Returned st' =>
      is_Some (triggers st !! name) ∧
      ENABLE_MARKERS st' = ENABLE_MARKERS st ∧
      dom (triggers st') = dom (triggers st) ∧
      (∀ other, other ≠ name → triggers st' !! other = triggers st !! other) ∧
      (0 ≤ Z.land code 255 ≤ 255)%Z ∧
      ∀ pp el (w : W),
        send_named st' name pp el w =
        Returned (send_marker st' (Z.land code 255) pp el w)
  end.
Proof.
  unfold set_trigger_code. destruct (triggers st !! name) as [old|] eqn:Hold.
  - split_and!; simpl.
    + done.
    + done.
    + apply set_eq. intros k. rewrite !elem_of_dom.
      destruct (decide (k = name)) as [->|Hne].
      * rewrite lookup_insert_eq, Hold. split; eauto.
      * by rewrite lookup_insert_ne.
    + intros other Hne. by rewrite lookup_insert_ne.
    + apply land_255_range.
    + apply land_255_range.
    + intros pp el w. unfold send_named. simpl. by rewrite lookup_insert_eq.
  - done.
Qed.

Lemma set_trigger_code_table_ok st name code st' :
  table_ok st → set_trigger_code st name code = Returned st' → table_ok st'.
Proof.
  intros [Hdom Hcodes] Hset. unfold set_trigger_code in Hset.
  destruct (triggers st !! name) as [old|] eqn:Hold; [|done].
  injection Hset as <-. split; simpl.
  - rewrite <- Hdom. apply set_eq. intros k. rewrite !elem_of_dom.
    destruct (decide (k = name)) as [->|Hne].
    + rewrite lookup_insert_eq, Hold. split; eauto.
    + by rewrite lookup_insert_ne.
  - intros k c. destruct (decide (k = name)) as [->|Hne].
    + rewrite lookup_insert_eq. intros [= <-]. apply land_255_range.
    + rewrite lookup_insert_ne by done. apply Hcodes.
Qed.

Lemma markers_at_import_ok : table_ok markers_at_import.
Proof.
  split; [done|]. intros name code Hl. simpl in Hl.
  assert ((name, code) ∈ map_to_list TRIGGERS) as Hin
    by by apply elem_of_map_to_list.
  revert Hin. rewrite list_elem_of_In.
  let v := eval vm_compute in (map_to_list TRIGGERS) in
  assert (map_to_list TRIGGERS = v) as -> by by vm_compute.
  simpl. intros Hin. repeat (destruct Hin as [[= <- <-]|Hin]; [lia|]). done.
Qed.

Lemma after_calls_table_ok st cs : table_ok st → table_ok (after_calls st cs).
Proof.
  revert st. induction cs as [|c cs IH]; intros st Hst; [done|].
  apply IH. destruct c as [value|name code]; simpl.
  - done.
  - destruct (set_trigger_code st name code) as [st'|] eqn:Hset; [|done].
    by eapply set_trigger_code_table_ok.
Qed.

(** X15: whatever calls of [set_enable] and [set_trigger_code] came before,
    [send_named] raises KeyError exactly for the names outside the default
    table, with markers on or off, and every code of the table lies in
    0..255, so masking it for the port changes nothing. *)
Theorem trigger_names_fixed {W} cs name pp el (w : W) :
  (send_named (after_calls markers_at_import cs) name pp el w = KeyError name ↔
   TRIGGERS !! name = None) ∧
  (∀ code, triggers (after_calls markers_at_import cs) !! name = Some code →
     (0 ≤ code ≤ 255)%Z ∧ Z.land code 255 = code).
Proof.
  destruct (after_calls_table_ok _ cs markers_at_import_ok) as [Hdom Hcodes].
  split.
  - assert (triggers (after_calls markers_at_import cs) !! name = None ↔
            TRIGGERS !! name = None) as <-.
    { rewrite <- !not_elem_of_dom. by rewrite Hdom. }
    unfold send_named. destruct (triggers _ !! name); split; done.
  - intros code Hc. split; [by eapply Hcodes|]. apply land_255_id. by eapply Hcodes.
Qed.

(** X16: with markers on, a named marker reaches the port as its table code
    and the eye tracker as the decimal text of the same code; a port whose
    call raises does not keep the message from the eye tracker. *)
Theorem named_marker_reaches_backends cs name code w :
  ENABLE_MARKERS (after_calls markers_at_import cs) = true →
  triggers (after_calls markers_at_import cs) !! name = Some code →
  send_named (after_calls markers_at_import cs) name
    (Some recording_port) (Some recording_eyelink) w =
  Returned {| port_data := port_data w ++ [code];
              messages := messages w ++ [pretty code] |} ∧
  send_named (after_calls markers_at_import cs) name
    (Some failing_backend) (Some recording_eyelink) w =
  Returned {| port_data := port_data w;
              messages := messages w ++ [pretty code] |} ∧
  (0 ≤ code ≤ 255)%Z.
Proof.
  intros Hon Hc.
  destruct (after_calls_table_ok _ cs markers_at_import_ok) as [_ Hcodes].
  pose proof (Hcodes _ _ Hc) as Hr.
  unfold send_named, send_marker, try_pass. rewrite Hc, Hon. simpl.
  rewrite land_255_id by done. done.
Qed.

Lemma named_marker_reaches_backends_witness :
  send_named
    (after_calls markers_at_import
       [Call_set_enable true; Call_set_trigger_code "fixation_onset" 300])
    "fixation_onset" (Some recording_port) (Some recording_eyelink) idle_wire =
  Returned {| port_data := [44%Z]; messages := ["44"%string] |} ∧
  send_named
    (after_calls markers_at_import
       [Call_set_enable true; Call_set_trigger_code "fixation_onset" 300])
    "fixation_onset" (Some failing_backend) (Some recording_eyelink) idle_wire =
  Returned {| port_data := []; messages := ["44"%string] |} ∧
  (0 ≤ 44 ≤ 255)%Z.
Proof.
  by apply (named_marker_reaches_backends
              [Call_set_enable true; Call_set_trigger_code "fixation_onset" 300]
              "fixation_onset" 44 idle_wire).
Defined.


(** ** A whole block *)

Lemma count_name_app name a b :
  count_name name (a ++ b) = count_name name a + count_name name b.
Proof. unfold count_name. by rewrite filter_app, length_app. Qed.

Lemma count_name_single name x :
  count_name name [x] = if decide (x = name) then 1 else 0.
Proof.
  unfold count_name. rewrite filter_cons, filter_nil. by case_decide.
Qed.

Lemma response_name_cases nb :
  response_name nb = "response_ll"%string ∨ response_name nb = "response_hl"%string.
Proof. unfold response_name. case_decide; auto. Qed.

Lemma trial_loop_latch hw soa nb polls s :
  end_latch <$> trial_loop hw soa nb polls s = poll_loop hw soa polls (t_latch s).
Proof.
  revert s. induction polls as [|p polls IH]; intros s; simpl; [done|].
  destruct (Qle_bool soa (now_ms p)); [done|].
  destruct (_ && _).
  - destruct (if hw then _ else _) as [| |k rt]; [| done |].
    + rewrite IH. by repeat (case_match; simpl).
    + rewrite IH. by repeat (case_match; simpl).
  - rewrite IH. by repeat (case_match; simpl).
Qed.

(** What a pass of the polling loop that does not quit appends and keeps. *)
Lemma trial_loop_elapsed hw soa nb polls s s' :
  latch_full (t_latch s) →
  trial_loop hw soa nb polls s = Some (LoopElapsed s') →
  latch_full (t_latch s') ∧
  (got_response (t_latch s) = true → t_latch s' = t_latch s) ∧
  (fixation_mark_sent s = true → fixation_mark_sent s' = true) ∧
  ∃ extra,
    t_sent s' = t_sent s ++ extra ∧
    Forall (λ n, n = response_name nb ∨ n = "fixation_onset"%string) extra ∧
    count_name (response_name nb) extra =
      Nat.b2n (negb (got_response (t_latch s)) && got_response (t_latch s')) ∧
    count_name "fixation_onset"%string extra =
      Nat.b2n (negb (fixation_mark_sent s) && fixation_mark_sent s').
Proof.
  revert s. induction polls as [|p polls IH]; intros s Hs; simpl; [done|].
  destruct (Qle_bool soa (now_ms p)).
  { intros [= <-]. split_and!; try done. exists []. rewrite app_nil_r.
    split_and!; try done.
    - by destruct (got_response (t_latch s)).
    - by destruct (fixation_mark_sent s). }
  pose proof (getKeys_listed [KEY_RESPONSE; KEY_QUIT] (pressed p)) as Hkeys.
  pose proof (response_name_cases nb) as Hrn.
  set (after := if _ && _ then _ else _).
  assert (after = None ∨ ∃ s1 e1, after = Some s1 ∧
            latch_full (t_latch s1) ∧
            (got_response (t_latch s) = true → t_latch s1 = t_latch s) ∧
            (got_response (t_latch s) = false → got_response (t_latch s1) = true →
               e1 = [response_name nb]) ∧
            (got_response (t_latch s1) = got_response (t_latch s) → e1 = []) ∧
            fixation_mark_sent s1 = fixation_mark_sent s ∧
            t_sent s1 = t_sent s ++ e1) as [->|(s1 & e1 & -> & Hl1 & Hk1 & Hn1 & He1 & Hf1 & Hsent1)].
  { subst after. destruct (bool_decide _); simpl.
    - destruct (got_response (t_latch s)) eqn:Hgot; simpl.
      + right. exists s, []. rewrite app_nil_r. by split_and!.
      + destruct (if hw then _ else _) as [| |k rt] eqn:Hscan.
        * right. exists s, []. rewrite app_nil_r. split_and!; try done. congruence.
        * by left.
        * right. eexists _, [response_name nb]. split; [done|]. simpl.
          assert (k = KEY_RESPONSE) as ->.
          { destruct hw; [by eapply first_key_latched | by eapply scan_keys_latched]. }
          split_and!; try done. left. simpl. eauto.
    - right. exists s, []. rewrite app_nil_r. split_and!; try done. congruence. }
  { done. }
  set (s2 := if Qltb _ _ then _ else _).
  assert (∃ e2, latch_full (t_latch s2) ∧ t_latch s2 = t_latch s1 ∧
            (fixation_mark_sent s1 = true → fixation_mark_sent s2 = true ∧ e2 = []) ∧
            (fixation_mark_sent s1 = false →
               (fixation_mark_sent s2 = true ∧ e2 = ["fixation_onset"%string]) ∨
               (fixation_mark_sent s2 = false ∧ e2 = [])) ∧
            t_sent s2 = t_sent s1 ++ e2) as (e2 & Hl2 & Hk2 & Hf2 & Hn2 & Hsent2).
  { subst s2. destruct (Qltb _ _).
    - exists []. rewrite app_nil_r. split_and!; try done. intros ?. by right.
    - destruct (fixation_mark_sent s1) eqn:Hfix.
      + exists []. rewrite app_nil_r. by split_and!.
      + exists ["fixation_onset"%string]. split_and!; try done. intros _. by left. }
  intros Hloop. destruct (IH s2 Hl2 Hloop) as (Hl' & Hk' & Hf' & extra & Hsent' & Hall & Hcr & Hcf).
  split; [done|]. split.
  { intros Hgot. rewrite Hk'; [by rewrite Hk2, Hk1|]. by rewrite Hk2, Hk1. }
  split.
  { intros Hfix. apply Hf'. rewrite Hf1 in Hf2. by apply Hf2. }
  exists (e1 ++ e2 ++ extra). split.
  { rewrite Hsent', Hsent2, Hsent1. by rewrite <- !app_assoc. }
  assert (count_name "fixation_onset"%string e1 = 0 ∧
          Forall (λ n, n = response_name nb ∨ n = "fixation_onset"%string) e1 ∧
          count_name (response_name nb) e1 =
            Nat.b2n (negb (got_response (t_latch s)) && got_response (t_latch s1)))
    as (Hc1f & Hall1 & Hc1r).
  { destruct (got_response (t_latch s)) eqn:Hgot.
    - rewrite Hk1, Hgot in * by done. rewrite He1 by done. done.
    - destruct (got_response (t_latch s1)) eqn:Hgot1.
      + rewrite Hn1 by done. rewrite !count_name_single.
        split_and!.
        * case_decide as Heq; [|done]. destruct Hrn as [Hr|Hr]; by rewrite Hr in Heq.
        * repeat constructor.
        * by rewrite decide_True.
      + rewrite He1 by done. done. }
  assert (count_name (response_name nb) e2 = 0 ∧
          Forall (λ n, n = response_name nb ∨ n = "fixation_onset"%string) e2 ∧
          count_name "fixation_onset"%string e2 =
            Nat.b2n (negb (fixation_mark_sent s1) && fixation_mark_sent s2))
    as (Hc2r & Hall2 & Hc2f).
  { destruct (fixation_mark_sent s1) eqn:Hfix.
    - destruct (Hf2 eq_refl) as [-> ->]. done.
    - destruct (Hn2 eq_refl) as [[-> ->]|[-> ->]]; [|done].
      rewrite !count_name_single. split_and!.
      + case_decide as Heq; [|done]. destruct Hrn as [Hr|Hr]; by rewrite Hr in Heq.
      + apply Forall_singleton. by right.
      + done. }
  split; [by rewrite !Forall_app|].
  rewrite !count_name_app, Hc1f, Hc1r, Hc2r, Hc2f, Hcr, Hcf, Hk2, Hf1.
  split.
  - destruct (got_response (t_latch s)) eqn:Hgot; simpl.
    + rewrite Hk1 by done. by rewrite Hgot.
    + destruct (got_response (t_latch s1)) eqn:Hgot1; simpl; [|done].
      rewrite Hk', Hk2, Hgot1 by by rewrite Hk2. done.
  - destruct (fixation_mark_sent s) eqn:Hfix; simpl.
    + assert (fixation_mark_sent s2 = true) as Hfix2 by (apply Hf2; congruence).
      by rewrite Hfix2.
    + destruct (fixation_mark_sent s2) eqn:Hfix2; simpl; [|done].
      by rewrite Hf'.
Qed.


Lemma score_latch plan l :
  latch_full l →
  score plan l =
  if got_response l then (if decide (is_target plan = 1%Z) then 1%Z else 0%Z)
  else (if decide (is_target plan = 0%Z) then 1%Z else 0%Z).
Proof.
  unfold score.
  intros [(-> & -> & _)|(-> & -> & _)]; repeat case_bool_decide; repeat case_decide;
    simpl; congruence.
Qed.

Lemma block_trial_done gl bi nb t plan inp v v' :
  block_trial gl bi nb t plan inp v = Some (TrialDone v') →
  ∃ r extra,
    row_of_plan gl bi nb t plan r ∧ response_columns nb r ∧
    rows_out v' = (λ rows, rows ++ [r]) <$> rows_out v ∧
    accs_out v' = accs_out v ++ [csv_correct r] ∧
    correct_count v' = (correct_count v + csv_correct r)%Z ∧
    rts_out v' = rts_out v ++ hit_rts [r] ∧
    sent v' = sent v ++ "stim_presentation"%string :: extra ∧
    Forall (λ n, n = response_name nb ∨ n = "fixation_onset"%string) extra ∧
    count_name (response_name nb) extra =
      length (filter (λ r, is_Some (csv_rt_ms r)) [r]) ∧
    count_name "fixation_onset"%string extra ≤ 1.
Proof.
  unfold block_trial.
  destruct (trial_loop _ _ _ _ _) as [[names|s]|] eqn:Hloop; try done.
  intros [= <-].
  apply trial_loop_elapsed in Hloop as (Hl & _ & _ & extra & Hsent & Hall & Hcr & Hcf);
    [|by right].
  simpl in Hsent, Hcr, Hcf.
  exists (make_row gl bi nb t plan inp (t_latch s)), extra.
  assert (count_name "fixation_onset"%string extra ≤ 1) as Hle.
  { rewrite Hcf. destruct (fixation_mark_sent s); simpl; lia. }
  assert (t_sent s = sent v ++ "stim_presentation"%string :: extra) as Hs.
  { by rewrite Hsent, <- app_assoc. }
  split; [by split_and!|].
  pose proof (score_latch plan _ Hl) as Hscore.
  unfold response_columns, hit_rts, is_hit, make_row. simpl.
  revert Hscore. generalize (score plan (t_latch s)). intros c Hc.
  destruct Hl as [(Hgot & Hkey & [rt Hrt])|(Hgot & Hkey & Hrt)];
    rewrite Hgot in Hc, Hcr; rewrite ?Hgot, ?Hkey, ?Hrt; simpl.
  - split; [left; by split_and!; eauto|].
    destruct (decide (is_target plan = 1%Z)) as [Ht|Ht]; subst c.
    + rewrite !bool_decide_eq_true_2 by done. simpl. by split_and!.
    + rewrite (bool_decide_eq_false_2 (is_target plan = 1%Z)) by done. simpl.
      split_and!; try done.
      * lia.
      * by rewrite app_nil_r.
  - split; [right; by split_and!|].
    assert ((if bool_decide (is_target plan = 1%Z) && bool_decide (c = 1%Z)
             then None else @None Q) = None) as -> by by destruct (_ && _).
    rewrite app_nil_r.
    destruct (decide (is_target plan = 0%Z)) as [Ht|Ht]; subst c.
    + by split_and!.
    + split_and!; try done. case_decide; [done|lia].
Qed.

Lemma count_name_none name l :
  Forall (λ n, n ≠ name) l → count_name name l = 0.
Proof.
  unfold count_name. induction 1 as [|x l Hx _ IH]; [done|].
  by rewrite filter_cons_False.
Qed.

Lemma sumZ_app a b : sumZ (a ++ b) = (sumZ a + sumZ b)%Z.
Proof. unfold sumZ. induction a as [|x a IH]; simpl; lia. Qed.

Lemma hit_rts_app a b : hit_rts (a ++ b) = hit_rts a ++ hit_rts b.
Proof. unfold hit_rts. apply omap_app. Qed.

Lemma stim_name_distinct nb :
  "stim_presentation"%string ≠ response_name nb ∧
  "stim_presentation"%string ≠ "fixation_onset"%string.
Proof. split; [|done]. by destruct (response_name_cases nb) as [-> | ->]. Qed.

(** What the trials of a block that runs to its end append. *)
Lemma block_trials_done gl bi nb t plans inputs v v' :
  block_trials gl bi nb t plans inputs v = Some (TrialDone v') →
  ∃ new body,
    length new = length plans ∧
    (∀ j r, new !! j = Some r →
       ∃ p, plans !! j = Some p ∧ row_of_plan gl bi nb (t + j) p r ∧
            response_columns nb r) ∧
    rows_out v' = (λ rows, rows ++ new) <$> rows_out v ∧
    accs_out v' = accs_out v ++ map csv_correct new ∧
    correct_count v' = (correct_count v + sumZ (map csv_correct new))%Z ∧
    rts_out v' = rts_out v ++ hit_rts new ∧
    sent v' = sent v ++ body ∧
    Forall (λ n, n ∈ trial_names nb) body ∧
    count_name "stim_presentation"%string body = length plans ∧
    count_name (response_name nb) body =
      length (filter (λ r, is_Some (csv_rt_ms r)) new) ∧
    count_name "fixation_onset"%string body ≤ length plans.
Proof.
  revert t inputs v. induction plans as [|plan plans IH]; intros t inputs v; simpl.
  - intros [= <-]. exists [], []. rewrite !app_nil_r. split_and!; try done.
    + destruct (rows_out v) as [rows|]; simpl; [|done]. by rewrite app_nil_r.
    + simpl. lia.
  - destruct inputs as [|inp inputs]; [done|].
    destruct (block_trial gl bi nb t plan inp v) as [[names|v1]|] eqn:Htrial; try done.
    intros Hrest.
    apply block_trial_done in Htrial
      as (r & extra & Hrow & Hresp & Hrows & Haccs & Hcc & Hrts & Hsent & Hall & Hcr & Hcf).
    apply IH in Hrest
      as (new & body & Hlen & Hnew & Hrows' & Haccs' & Hcc' & Hrts' & Hsent' & Hall' &
          Hcs' & Hcr' & Hcf').
    destruct (stim_name_distinct nb) as [Hd1 Hd2].
    exists (r :: new), ("stim_presentation"%string :: extra ++ body).
    split_and!.
    + simpl. by rewrite Hlen.
    + intros [|j] r' Hr'; simpl in Hr'.
      * injection Hr' as <-. exists plan. rewrite Nat.add_0_r. by split_and!.
      * destruct (Hnew j r' Hr') as (p & Hp & Hrp & Hcp). exists p.
        replace (t + S j) with (S t + j) by lia. by split_and!.
    + rewrite Hrows', Hrows. destruct (rows_out v) as [rows|]; simpl; [|done].
      by rewrite <- app_assoc.
    + rewrite Haccs', Haccs. by rewrite <- app_assoc.
    + rewrite Hcc', Hcc. simpl. lia.
    + rewrite Hrts', Hrts, <- app_assoc. by rewrite <- hit_rts_app.
    + rewrite Hsent', Hsent, <- app_assoc. done.
    + apply Forall_cons. split; [unfold trial_names; set_solver|].
      apply Forall_app. split; [|done].
      eapply Forall_impl; [exact Hall|]. simpl. unfold trial_names.
      intros n [-> | ->]; set_solver.
    + change ("stim_presentation"%string :: extra ++ body)
        with (["stim_presentation"%string] ++ extra ++ body).
      rewrite !count_name_app, count_name_single, decide_True by done.
      rewrite (count_name_none _ extra), Hcs'; [simpl; lia|].
      eapply Forall_impl; [exact Hall|]. simpl. intros n [-> | ->]; congruence.
    + change ("stim_presentation"%string :: extra ++ body)
        with (["stim_presentation"%string] ++ extra ++ body).
      rewrite !count_name_app, count_name_single, decide_False by done.
      rewrite Hcr, Hcr'. change (r :: new) with ([r] ++ new).
      rewrite filter_app, length_app. lia.
    + change ("stim_presentation"%string :: extra ++ body)
        with (["stim_presentation"%string] ++ extra ++ body).
      rewrite !count_name_app, count_name_single, decide_False by done.
      simpl. lia.
Qed.


Lemma run_block_done gl bi nb plans inputs accs rts rows acc mean v :
  run_block gl bi nb plans inputs accs rts rows = Some (BlockDone acc mean v) →
  ∃ v0,
    block_trials gl bi nb 1 plans inputs
      {| correct_count := 0; accs_out := accs; rts_out := rts; rows_out := rows;
         sent := [block_start_name nb] |} = Some (TrialDone v0) ∧
    correct_count v = correct_count v0 ∧ accs_out v = accs_out v0 ∧
    rts_out v = rts_out v0 ∧ rows_out v = rows_out v0 ∧
    sent v = sent v0 ++ [block_end_name nb] ∧
    acc = match plans with
          | [] => 0%Q
          | _ => (inject_Z (correct_count v0) / inject_Z (Z.of_nat (length plans)))%Q
          end ∧
    mean = match rts_out v0 with
           | [] => None
           | _ => Some (sumQ (rts_out v0) / inject_Z (Z.of_nat (length (rts_out v0))))%Q
           end.
Proof.
  unfold run_block. destruct (block_trials _ _ _ _ _ _ _) as [[names|v0]|]; try done.
  intros [= <- <- <-]. exists v0. by split_and!.
Qed.

Lemma response_columns_rt nb r :
  response_columns nb r →
  (is_Some (csv_rt_ms r) ↔ csv_response_key r = KEY_RESPONSE) ∧
  (is_hit r = true ↔ csv_is_target r = 1%Z ∧ csv_response_key r = KEY_RESPONSE) ∧
  is_flag (csv_correct r).
Proof.
  unfold is_hit.
  intros [(Hk & [rt Hrt] & _ & Hc)|(Hk & Hrt & _ & Hc)]; rewrite Hk, Hrt, Hc.
  - split_and!.
    + split; eauto.
    + rewrite andb_true_iff, !bool_decide_eq_true.
      destruct (decide _); split; intros [? ?]; done.
    + case_decide; [by right | by left].
  - split_and!.
    + split; [by intros [? ?] | done].
    + rewrite andb_true_iff, !bool_decide_eq_true.
      case_decide; split; try done; intros [? ?]; try done; lia.
    + case_decide; [by right | by left].
Qed.

(** X18: in a block that runs to its end with a row list, [run_block]
    appends one row per plan, in plan order and numbered from 1; a row copies
    the participant, session, block number, level and the plan's stimulus,
    flag, lure type and ITI, carries the stimulus code of the plan, and its
    response columns are either the response key with a reaction time and the
    response code of the level, or three empty cells. *)
Theorem run_block_rows gl bi nb plans inputs accs rts rows acc mean v :
  run_block gl bi nb plans inputs accs rts (Some rows) = Some (BlockDone acc mean v) →
  ∃ new,
    rows_out v = Some (rows ++ new) ∧ length new = length plans ∧
    accs_out v = accs ++ map csv_correct new ∧
    ∀ j r, new !! j = Some r →
      ∃ p, plans !! j = Some p ∧ row_of_plan gl bi nb (S j) p r ∧
           response_columns nb r.
Proof.
  intros Hrun.
  apply run_block_done in Hrun as (v0 & Htrials & _ & -> & _ & -> & _).
  apply block_trials_done in Htrials
    as (new & body & Hlen & Hnew & Hrows & Haccs & _).
  exists new. by split_and!.
Qed.

Lemma run_block_rows_witness :
  ∃ acc mean v,
    run_block demo_globals 1 2 demo_plans demo_inputs [] [] (Some []) =
      Some (BlockDone acc mean v) ∧
    ∃ new,
      rows_out v = Some ([] ++ new) ∧ length new = length demo_plans ∧
      accs_out v = [] ++ map csv_correct new ∧
      ∀ j r, new !! j = Some r →
        ∃ p, demo_plans !! j = Some p ∧ row_of_plan demo_globals 1 2 (S j) p r ∧
             response_columns 2 r.
Proof.
  assert (∃ acc mean v,
            run_block demo_globals 1 2 demo_plans demo_inputs [] [] (Some []) =
            Some (BlockDone acc mean v)) as (acc & mean & v & Hrun)
    by (vm_compute; eauto).
  exists acc, mean, v. split; [exact Hrun|].
  exact (run_block_rows _ _ _ _ _ _ _ _ _ _ _ Hrun).
Defined.

Lemma sumZ_flags_bounds l : Forall is_flag l → (0 ≤ sumZ l ≤ Z.of_nat (length l))%Z.
Proof.
  induction 1 as [|x l [-> | ->] _ IH]; simpl; [lia| |]; unfold sumZ in *; simpl; lia.
Qed.

Lemma quotient_in_unit c n :
  (0 ≤ c ≤ Z.of_nat (S n))%Z →
  (0 <= inject_Z c / inject_Z (Z.of_nat (S n)))%Q ∧
  (inject_Z c / inject_Z (Z.of_nat (S n)) <= 1)%Q ∧
  (inject_Z c / inject_Z (Z.of_nat (S n)) * inject_Z (Z.of_nat (S n)) == inject_Z c)%Q.
Proof.
  intros Hc.
  assert (0 < inject_Z (Z.of_nat (S n)))%Q as Hpos.
  { unfold Qlt. simpl. lia. }
  split_and!.
  - apply Qle_shift_div_l; [done|]. rewrite Qmult_0_l. unfold Qle. simpl. lia.
  - apply Qle_shift_div_r; [done|]. rewrite Qmult_1_l. rewrite <- Zle_Qle. lia.
  - field. intros Hz. rewrite Hz in Hpos. by apply Qlt_irrefl in Hpos.
Qed.

(** X19: in a block that runs to its end [run_block] appends one 0 or 1 per
    plan to accs_out; the accuracy it returns is the number of ones among
    them divided by the number of plans, lies between 0 and 1, is 0 for an
    empty plan list, and equals the quotient [run_practice] recomputes from
    the list it passed in empty. The mean reaction time is None exactly when
    rts_out ends empty. *)
Theorem run_block_accuracy gl bi nb plans inputs accs rts rows acc mean v :
  run_block gl bi nb plans inputs accs rts rows = Some (BlockDone acc mean v) →
  ∃ new,
    accs_out v = accs ++ new ∧ length new = length plans ∧ Forall is_flag new ∧
    correct_count v = sumZ new ∧
    (0 <= acc)%Q ∧ (acc <= 1)%Q ∧
    (acc * inject_Z (Z.of_nat (length plans)) == inject_Z (sumZ new))%Q ∧
    (plans = [] → acc = 0%Q) ∧
    (accs = [] → acc = mean_acc (accs_out v)) ∧
    (mean = None ↔ rts_out v = []).
Proof.
  intros Hrun.
  apply run_block_done in Hrun as (v0 & Htrials & -> & -> & -> & _ & _ & -> & ->).
  apply block_trials_done in Htrials
    as (new & body & Hlen & Hnew & _ & Haccs & Hcc & _).
  simpl in Haccs, Hcc.
  assert (Forall is_flag (map csv_correct new)) as Hflags.
  { apply Forall_forall. intros c Hc. apply list_elem_of_fmap in Hc as (r & -> & Hr).
    apply list_elem_of_lookup in Hr as [j Hj].
    destruct (Hnew j r Hj) as (p & _ & _ & Hresp).
    by apply response_columns_rt in Hresp as (_ & _ & ?). }
  exists (map csv_correct new).
  assert (length (map csv_correct new) = length plans) as Hlen'
    by by rewrite length_map.
  pose proof (sumZ_flags_bounds _ Hflags) as Hsum. rewrite Hlen' in Hsum.
  split_and!.
  - done.
  - done.
  - done.
  - rewrite Hcc. lia.
  - destruct plans as [|p plans]; [done|]. rewrite Hcc. simpl in Hsum |- *.
    apply (quotient_in_unit _ (length plans)). lia.
  - destruct plans as [|p plans]; [done|]. rewrite Hcc. simpl in Hsum |- *.
    apply (quotient_in_unit _ (length plans)). lia.
  - destruct plans as [|p plans].
    + destruct new; [|done]. simpl. by rewrite Qmult_0_l.
    + rewrite Hcc. simpl in Hsum |- *.
      apply (quotient_in_unit _ (length plans)). lia.
  - by intros ->.
  - intros ->. rewrite Haccs. simpl. unfold mean_acc.
    destruct plans as [|p plans]; destruct new as [|r new]; try done.
    rewrite Hcc, Hlen'. simpl. by rewrite Z.add_0_l.
  - by destruct (rts_out v0).
Qed.

Lemma run_block_accuracy_witness :
  ∃ acc mean v,
    run_block demo_globals 1 2 demo_plans demo_inputs [] [] None =
      Some (BlockDone acc mean v) ∧
    ∃ new,
      accs_out v = [] ++ new ∧ length new = length demo_plans ∧ Forall is_flag new ∧
      correct_count v = sumZ new ∧
      (0 <= acc)%Q ∧ (acc <= 1)%Q ∧
      (acc * inject_Z (Z.of_nat (length demo_plans)) == inject_Z (sumZ new))%Q ∧
      (demo_plans = [] → acc = 0%Q) ∧
      (@nil Z = [] → acc = mean_acc (accs_out v)) ∧
      (mean = None ↔ rts_out v = []).
Proof.
  assert (∃ acc mean v,
            run_block demo_globals 1 2 demo_plans demo_inputs [] [] None =
            Some (BlockDone acc mean v)) as (acc & mean & v & Hrun)
    by (vm_compute; eauto).
  exists acc, mean, v. split; [exact Hrun|].
  exact (run_block_accuracy _ _ _ _ _ _ _ _ _ _ _ Hrun).
Defined.






Lemma trial_loop_latched_stays hw soa nb polls s e :
  got_response (t_latch s) = true →
  trial_loop hw soa nb polls s = Some e →
  ∃ s', e = LoopElapsed s' ∧ t_latch s' = t_latch s.
Proof.
  revert s. induction polls as [|p polls IH]; intros s Hgot; simpl; [done|].
  destruct (Qle_bool soa (now_ms p)); [intros [= <-]; eauto|].
  rewrite Hgot, andb_false_r.
  destruct (Qltb _ _); [by apply IH|].
  destruct (fixation_mark_sent s); [by apply IH|].
  intros Hloop. by apply IH in Hloop.
Qed.

(** X22: the first pass of the polling loop that reports a key before the
    SOA decides the trial: if its first key is the response key, that key
    and its time stamp times 1000 are latched, and whatever later passes
    report, the quit key included, the loop runs on to the SOA with this
    latch unchanged. *)
Theorem first_press_is_latched hw soa nb pre p post t more s e :
  got_response (t_latch s) = false →
  Forall (λ q, Qle_bool soa (now_ms q) = false ∧
               getKeys [KEY_RESPONSE; KEY_QUIT] (pressed q) = []) pre →
  Qle_bool soa (now_ms p) = false →
  getKeys [KEY_RESPONSE; KEY_QUIT] (pressed p) = (KEY_RESPONSE, t) :: more →
  trial_loop hw soa nb (pre ++ p :: post) s = Some e →
  ∃ s', e = LoopElapsed s' ∧
        t_latch s' = {| got_response := true; resp_key := Some KEY_RESPONSE;
                        rt_ms := Some (t * 1000)%Q |}.
Proof.
  intros Hgot Hpre Hp Hkeys. revert s Hgot.
  induction Hpre as [|q pre [Hq Hnone] _ IH]; intros s Hgot; simpl.
  - rewrite Hp, Hkeys, Hgot. simpl.
    assert ((if hw then Latched KEY_RESPONSE (t * 1000)%Q
             else Latched KEY_RESPONSE (t * 1000)%Q) =
            Latched KEY_RESPONSE (t * 1000)%Q) as -> by by destruct hw.
    intros Hloop. apply trial_loop_latched_stays in Hloop as (s' & -> & Hl).
    + exists s'. split; [done|]. rewrite Hl. by repeat case_match.
    + by repeat case_match.
  - rewrite Hq, Hnone. simpl.
    intros Hloop. apply IH in Hloop; [done|]. by repeat case_match.
Qed.

Lemma first_press_is_latched_witness :
  ∃ s', trial_loop false 2500 2 demo_polls (trial_start []) = Some (LoopElapsed s') ∧
        t_latch s' = {| got_response := true; resp_key := Some KEY_RESPONSE;
                        rt_ms := Some ((64 # 100) * 1000)%Q |}.
Proof.
  destruct (trial_loop false 2500 2 demo_polls (trial_start [])) as [e|] eqn:Hloop;
    [|by vm_compute in Hloop].
  destruct (first_press_is_latched false 2500 2
              [ {| now_ms := 100; pressed := [] |} ]
              {| now_ms := 640; pressed := [("space"%string, 64 # 100)] |}
              [ {| now_ms := 1200; pressed := [("escape"%string, 12 # 10)] |};
                {| now_ms := 2500; pressed := [] |} ]
              (64 # 100) [] (trial_start []) e) as (s' & -> & Hl);
    [done | by repeat constructor | done | done | exact Hloop |].
  by exists s'.
Defined.

(** ** The stimulus code, the set-up and the schedule *)

Section StimCode.
Context {R : Type} `{RandomLaws R}.

(** X23: on the plans [generate_sequence] returns, the stimulus code
    written to the CSV names the kind of trial: 41 exactly for a plan
    flagged as a target, 43 exactly for an n-1 lure, 44 exactly for an n+1
    lure and 42 exactly for a plan that is neither. *)
Theorem stim_code_names_category cfg (g g' : R) plans :
  1 ≤ n_back cfg →
  generate_sequence cfg g = Ok (plans, g') →
  ∀ p, p ∈ plans →
    (_marker_code_for_stim (is_target p) (lure_type p) = 41%Z ↔ is_target p = 1%Z) ∧
    (_marker_code_for_stim (is_target p) (lure_type p) = 43%Z ↔
     lure_type p = "n-1"%string) ∧
    (_marker_code_for_stim (is_target p) (lure_type p) = 44%Z ↔
     lure_type p = "n+1"%string) ∧
    (_marker_code_for_stim (is_target p) (lure_type p) = 42%Z ↔
     is_target p = 0%Z ∧ lure_type p = "none"%string).
Proof.
  intros Hnb Hg p Hin. apply list_elem_of_lookup in Hin as [i Hp].
  assert (is_flag (is_target p) ∧ lure_type p ∈ lure_names ∧
          (is_target p = 1%Z → lure_type p = "none"%string)) as (Hflag & Hlure & Hexcl).
  { destruct (generate_sequence_strong cfg g g' plans Hnb Hg)
      as [[(_ & Hwf & _) (idxs & _ & _ & _ & Hstep & _)]
         |[(_ & Hwf & _ & _ & _ & Hnone) _]].
    - destruct (Hstep i p Hp) as (_ & Hexcl & _).
      eapply Forall_lookup_1 in Hwf; [|exact Hp]. by destruct Hwf as (_ & ? & ?).
    - eapply Forall_lookup_1 in Hwf; [|exact Hp]. destruct Hwf as (_ & ? & ?).
      eapply Forall_lookup_1 in Hnone; [|exact Hp]. done. }
  unfold _marker_code_for_stim, lure_names in *.
  repeat (apply elem_of_cons in Hlure as [Hlure|Hlure]);
    [| | |by apply elem_of_nil in Hlure];
    destruct Hflag as [Hz|Ho]; rewrite ?Hz, ?Ho, ?Hlure in *;
    try (specialize (Hexcl eq_refl)); try done;
    simpl; split_and!; split; try done; try lia; by intros [? ?].
Qed.
End StimCode.

Lemma stim_code_names_category_witness :
  (_marker_code_for_stim (is_target (plan "B" 1 "none")) (lure_type (plan "B" 1 "none"))
     = 41%Z ↔ is_target (plan "B" 1 "none") = 1%Z) ∧
  (_marker_code_for_stim (is_target (plan "B" 1 "none")) (lure_type (plan "B" 1 "none"))
     = 43%Z ↔ lure_type (plan "B" 1 "none") = "n-1"%string) ∧
  (_marker_code_for_stim (is_target (plan "B" 1 "none")) (lure_type (plan "B" 1 "none"))
     = 44%Z ↔ lure_type (plan "B" 1 "none") = "n+1"%string) ∧
  (_marker_code_for_stim (is_target (plan "B" 1 "none")) (lure_type (plan "B" 1 "none"))
     = 42%Z ↔
   is_target (plan "B" 1 "none") = 0%Z ∧ lure_type (plan "B" 1 "none") = "none"%string).
Proof.
  apply (stim_code_names_category (crowded_config 3 1) zero_tape zero_tape crowded_plans);
    [simpl; lia | apply crowded_run |].
  by apply (list_elem_of_lookup_2 _ 2).
Defined.




Lemma phase_slots_closed nb k c total :
  phase_slots nb k c total =
  (map (λ j, {| slot_block_idx := c + Z.of_nat (S j); slot_n_back := nb;
                slot_break := bool_decide (c + Z.of_nat (S j) < total)%Z |})
       (seq 0 k),
   (c + Z.of_nat k)%Z).
Proof.
  revert c. induction k as [|k IH]; intros c; simpl.
  - by rewrite Z.add_0_r.
  - rewrite IH. f_equal.
    + f_equal. rewrite <- seq_shift, map_map. apply map_ext. intros j.
      by replace (c + 1 + Z.of_nat (S j))%Z with (c + Z.of_nat (S (S j)))%Z by lia.
    + lia.
Qed.

(** X25: the main task runs 2 * max(1, blocks_per_load) blocks numbered 1,
    2, ... without a gap across the two loads; the first max(1,
    blocks_per_load) of them at the first level of the load order and the
    rest at the second, levels 1 then 3 for version A and 3 then 1
    otherwise; the break screen follows every block but the last. *)
Theorem main_block_schedule a :
  main_slots a =
  map (slot_at (if decide (arg_version a = "A"%string) then 1 else 3)
               (if decide (arg_version a = "A"%string) then 3 else 1)
               (Z.to_nat (Z.max 1 (arg_blocks_per_load a))))
      (seq 0 (2 * Z.to_nat (Z.max 1 (arg_blocks_per_load a)))).
Proof.
  unfold main_slots, load_order, blocks_per_load.
  remember (Z.to_nat (Z.max 1 (arg_blocks_per_load a))) as b eqn:Hb.
  assert (Z.max 1 (arg_blocks_per_load a) = Z.of_nat b) as -> by lia.
  replace (2 * b) with (b + b) by lia. rewrite seq_app, map_app.
  assert (∀ first second,
            session_slots [first; second] (Z.of_nat b) 0 (2 * Z.of_nat b) =
            map (slot_at first second b) (seq 0 b) ++
            map (slot_at first second b) (seq (0 + b) b)) as Hclosed.
  { intros first second. simpl. rewrite Nat2Z.id, !phase_slots_closed, app_nil_r.
    f_equal.
    - apply map_ext_in. intros j Hj. apply in_seq in Hj. unfold slot_at.
      rewrite decide_True by lia. f_equal; try lia. apply bool_decide_ext. lia.
    - pose proof (fmap_add_seq b 0 b) as Hs. rewrite Nat.add_0_r in Hs.
      rewrite <- Hs. change (Nat.add b <$> seq 0 b) with (map (Nat.add b) (seq 0 b)).
      rewrite map_map. apply map_ext_in. intros j Hj. apply in_seq in Hj.
      unfold slot_at. rewrite decide_False by lia.
      f_equal; try lia. apply bool_decide_ext. lia. }
  case_decide; apply Hclosed.
Qed.

Section PracticePlans.
Context {R : Type} `{RandomLaws R}.

(** X26: the practice block of [main] always gets its plans: the call of
    [run_practice] raises nothing and returns max(1, practice_trials) plans,
    none of them a lure, each with the planned ITI of the session, so that
    every practice row carries stimulus code 41 or 42. *)
Theorem practice_plans_plain a participant session hw (g : R) :
  ∃ plans g',
    generate_sequence
      (main_practice_config a (apply_cli a participant session hw)) g =
      Ok (plans, g') ∧
    length plans = Z.to_nat (Z.max 1 (arg_practice_trials a)) ∧
    Forall (λ p, lure_type p = "none"%string ∧
                 iti_ms p = CFG_FIXED_ITI_MS (apply_cli a participant session hw) ∧
                 (_marker_code_for_stim (is_target p) (lure_type p) = 41%Z ∨
                  _marker_code_for_stim (is_target p) (lure_type p) = 42%Z)) plans.
Proof.
  set (cfg := main_practice_config a (apply_cli a participant session hw)).
  assert (1 ≤ n_back cfg) as Hnb by (simpl; lia).
  destruct (wp_inv _ _ _ (wp_generate_sequence cfg g Hnb)) as (plans & g' & Hg & _).
  exists plans, g'. split; [done|].
  destruct (generate_sequence_strong cfg g g' plans Hnb Hg)
    as [[(Hlen & _) (idxs & _ & _ & _ & Hstep & _ & Hiti)]
       |[(Hlen & _ & _ & _ & _ & Hnone) (_ & Hiti)]].
  - split; [done|]. apply Forall_lookup. intros i p Hp.
    destruct (Hstep i p Hp) as (_ & _ & _ & _ & _ & Hinc & _).
    assert (lure_type p = "none"%string) as Hl.
    { destruct (decide (lure_type p = "none"%string)) as [|Hne]; [done|].
      by specialize (Hinc Hne). }
    eapply Forall_lookup_1 in Hiti; [|exact Hp].
    split_and!; [done | done |].
    unfold _marker_code_for_stim. rewrite Hl. case_decide; auto.
  - split; [done|]. apply Forall_lookup. intros i p Hp.
    eapply Forall_lookup_1 in Hnone; [|exact Hp].
    eapply Forall_lookup_1 in Hiti; [|exact Hp].
    split_and!; [done | done |].
    unfold _marker_code_for_stim. rewrite Hnone. case_decide; auto.
Qed.
End PracticePlans.

Lemma practice_plans_plain_witness :
  ∃ plans g',
    generate_sequence
      (main_practice_config default_args (apply_cli default_args "anon" "s" false))
      zero_tape = Ok (plans, g') ∧
    length plans = Z.to_nat (Z.max 1 (arg_practice_trials default_args)) ∧
    Forall (λ p, lure_type p = "none"%string ∧
                 iti_ms p = CFG_FIXED_ITI_MS (apply_cli default_args "anon" "s" false) ∧
                 (_marker_code_for_stim (is_target p) (lure_type p) = 41%Z ∨
                  _marker_code_for_stim (is_target p) (lure_type p) = 42%Z)) plans.
Proof. apply (practice_plans_plain default_args "anon" "s" false zero_tape). Defined.

(** ** File names *)

Section SafeFilenameFacts.
Context {char : Type} `{EqDecision char}.
Variables (isalnum isspace : char → bool) (hyphen underscore dot : char).
(** No character is both alphanumeric and whitespace, and the three
    punctuation characters are not whitespace. *)
Hypothesis alnum_not_space : ∀ c, isalnum c = true → isspace c = false.
Hypothesis punctuation_not_space :
  isspace hyphen = false ∧ isspace underscore = false ∧ isspace dot = false.

Lemma kept_not_space c : kept isalnum hyphen underscore dot c = true → isspace c = false.
Proof using alnum_not_space punctuation_not_space.
  unfold kept. intros Hk. apply orb_true_iff in Hk as [Hk|Hk]; [by apply alnum_not_space|].
  apply bool_decide_eq_true in Hk. destruct punctuation_not_space as (? & ? & ?).
  repeat (apply elem_of_cons in Hk as [->|Hk]); try done. by apply elem_of_nil in Hk.
Qed.

Lemma lstrip_no_space s :
  match s with [] => True | c :: _ => isspace c = false end → lstrip isspace s = s.
Proof. destruct s as [|c s]; [done|]. simpl. by intros ->. Qed.

Lemma strip_kept s :
  Forall (λ c, kept isalnum hyphen underscore dot c = true) s → strip isspace s = s.
Proof using alnum_not_space punctuation_not_space.
  intros Hs. unfold strip.
  rewrite (lstrip_no_space s).
  - rewrite lstrip_no_space; [by rewrite reverse_involutive|].
    destruct (reverse s) as [|c r] eqn:Hrev; [done|].
    apply kept_not_space. rewrite Forall_forall in Hs. apply Hs.
    apply elem_of_reverse. rewrite Hrev. by left.
  - destruct Hs as [|c s Hc _]; [done|]. by apply kept_not_space.
Qed.

(** X27: [safe_filename] keeps, in their order, exactly the characters that
    are alphanumeric or one of - _ . and drops every other; its final
    [strip()] never removes anything; applying it twice changes nothing
    more, and a name made of kept characters only is returned as it is. *)
Theorem safe_filename_keeps_allowed name :
  safe_filename isalnum isspace hyphen underscore dot name =
    filter (λ c, kept isalnum hyphen underscore dot c = true) name ∧
  Forall (λ c, isalnum c = true ∨ c ∈ [hyphen; underscore; dot])
    (safe_filename isalnum isspace hyphen underscore dot name) ∧
  safe_filename isalnum isspace hyphen underscore dot
    (safe_filename isalnum isspace hyphen underscore dot name) =
    safe_filename isalnum isspace hyphen underscore dot name ∧
  (Forall (λ c, isalnum c = true ∨ c ∈ [hyphen; underscore; dot]) name →
   safe_filename isalnum isspace hyphen underscore dot name = name).
Proof using alnum_not_space punctuation_not_space.
  assert (∀ l, Forall (λ c, kept isalnum hyphen underscore dot c = true)
                 (filter (λ c, kept isalnum hyphen underscore dot c = true) l)) as Hfil.
  { intros l. apply Forall_forall. intros c Hc.
    by apply list_elem_of_filter in Hc as [? _]. }
  assert (∀ l, safe_filename isalnum isspace hyphen underscore dot l =
               filter (λ c, kept isalnum hyphen underscore dot c = true) l) as Heq.
  { intros l. unfold safe_filename. by apply strip_kept. }
  assert (∀ c, kept isalnum hyphen underscore dot c = true ↔
               isalnum c = true ∨ c ∈ [hyphen; underscore; dot]) as Hkept.
  { intros c. unfold kept. by rewrite orb_true_iff, bool_decide_eq_true. }
  assert (∀ l, Forall (λ c, kept isalnum hyphen underscore dot c = true) l →
               filter (λ c, kept isalnum hyphen underscore dot c = true) l = l) as Hid.
  { intros l. induction 1 as [|c l Hc _ IH]; [done|].
    by rewrite filter_cons_True, IH. }
  split_and!.
  - apply Heq.
  - rewrite Heq. eapply Forall_impl; [apply Hfil|]. intros c. apply Hkept.
  - rewrite !Heq. apply Hid, Hfil.
  - intros Hall. rewrite Heq. apply Hid.
    eapply Forall_impl; [exact Hall|]. intros c. apply Hkept.
Qed.
End SafeFilenameFacts.

Lemma ascii_alnum_not_space c : ascii_isalnum c = true → ascii_isspace c = false.
Proof.
  unfold ascii_isalnum, ascii_isspace. generalize (Ascii.nat_of_ascii c). intros n Hn.
  apply orb_true_iff in Hn as [Hn|Hn]; [apply orb_true_iff in Hn as [Hn|Hn]|];
    apply andb_true_iff in Hn as [H1 H2];
    apply Nat.leb_le in H1; apply Nat.leb_le in H2;
    apply orb_false_iff; split; apply andb_false_iff;
    rewrite !Nat.leb_gt; lia.
Qed.

Lemma safe_filename_keeps_allowed_witness :
  ascii_safe_filename " p 01/..\x.csv " = "p01..x.csv"%string ∧
  safe_filename ascii_isalnum ascii_isspace "-"%char "_"%char "."%char
    (String.list_ascii_of_string "a b") =
    filter (λ c, kept ascii_isalnum "-"%char "_"%char "."%char c = true)
      (String.list_ascii_of_string "a b") ∧
  Forall (λ c, ascii_isalnum c = true ∨ c ∈ ["-"%char; "_"%char; "."%char])
    (safe_filename ascii_isalnum ascii_isspace "-"%char "_"%char "."%char
       (String.list_ascii_of_string "a b")) ∧
  safe_filename ascii_isalnum ascii_isspace "-"%char "_"%char "."%char
    (safe_filename ascii_isalnum ascii_isspace "-"%char "_"%char "."%char
       (String.list_ascii_of_string "a b")) =
    safe_filename ascii_isalnum ascii_isspace "-"%char "_"%char "."%char
      (String.list_ascii_of_string "a b") ∧
  (Forall (λ c, ascii_isalnum c = true ∨ c ∈ ["-"%char; "_"%char; "."%char])
     (String.list_ascii_of_string "a b") →
   safe_filename ascii_isalnum ascii_isspace "-"%char "_"%char "."%char
     (String.list_ascii_of_string "a b") = String.list_ascii_of_string "a b").
Proof.
  split; [by vm_compute|].
  apply (safe_filename_keeps_allowed ascii_isalnum ascii_isspace
           "-"%char "_"%char "."%char ascii_alnum_not_space).
  by vm_compute.
Defined.
